(** * Streams of the media server: incoming and outgoing track containers

    A shallow embedding of [incomingstream.go] and [outgoingstream.go]:
  the constructors and the track maps of the two stream types, the
  resolution of an SDP track descriptor into RTP source groups done by
  [CreateTrack], and the attach, detach and stop operations. *)

From stdpp Require Import gmap strings list fin_maps pretty.

Local Open Scope string_scope.
Local Open Scope list_scope.
Local Open Scope nat_scope.

(** ** Go run-time behaviour *)

(** A Go call either returns or panics (index out of range, call on a nil
  interface). *)
Inductive result (A : Type) : Type :=
| Ok (a : A)
| Panic.
Arguments Ok {A} a.
Arguments Panic {A}.

#[global] Instance result_ret : MRet result := λ A a, Ok a.
#[global] Instance result_bind : MBind result :=
  λ A B f r, match r with Ok a => f a | Panic => Panic end.

(** [l[i]] on a slice. *)
Definition index {A} (l : list A) (i : nat) : result A :=
match l !! i with
| Some a => Ok a
| None => Panic
end.

(** A method call through an interface value that may be nil. *)
Definition deref {A} (x : option A) : result A :=
match x with
| Some a => Ok a
| None => Panic
end.

(** A loop whose body may panic. *)
Fixpoint foldM {A B} (f : A → B → result A) (a : A) (l : list B) : result A :=
match l with
| [] => Ok a
| b :: l' => a' ← f a b; foldM f a' l'
end.

(** The native layer stores an ssrc in a [DWORD]: a Go [uint] handed to it
  keeps its low 32 bits. *)
Definition DWORD (n : N) : N := (n mod 2 ^ 32)%N.
Arguments DWORD : simpl never.

(** ** [strconv] *)

Definition digit (c : Ascii.ascii) : option N :=
let n := Ascii.N_of_ascii c in
if ((48 <=? n) && (n <=? 57))%N then Some (n - 48)%N else None.

Fixpoint digits (s : string) (acc : N) : option N :=
match s with
| EmptyString => Some acc
| String c s' => d ← digit c; digits s' (10 * acc + d)%N
end.

(** [strconv.ParseUint(s, 10, 32)]: a non-empty run of decimal digits, no
  sign, whose value fits 32 bits; [None] is the [err != nil] outcome. *)
Definition ParseUint (s : string) : option N :=
match s with
| EmptyString => None
| _ => n ← digits s 0%N; if (n <? 2 ^ 32)%N then Some n else None
end.

(** [strconv.Itoa] on a slice position. *)
Definition Itoa (j : nat) : string := pretty j.

(** ** The [sdp] descriptors read by the streams *)

Module sdp.

(** [SourceGroupInfo]: [GetSemantics] and [GetSSRCs]; a [None] member list
    is Go's nil slice. *)
Record SourceGroupInfo := {
  semantics : string;
  ssrcs : option (list N);
}.

(** The elements of the slice [GetSSRCs] returns: a nil slice has none. *)
Definition GetSSRCs (g : SourceGroupInfo) : list N := default [] (ssrcs g).

(** [TrackEncodingInfo]: [GetID] (the rid) and [GetParams]. *)
Record TrackEncodingInfo := {
  rid : string;
  params : gmap string string;
}.

(** [TrackInfo]: [GetID], [GetMediaID], [GetMedia], [GetSSRCS],
    [GetSourceGroupS] and [GetEncodings] (a list of alternatives, each a
    list of encodings). *)
Record TrackInfo := {
  id : string;
  mediaID : string;
  media : string;
  ssrcsOf : list N;
  groups : list SourceGroupInfo;
  encodings : list (list TrackEncodingInfo);
}.

(** [StreamInfo]: [GetID] and [GetTracks], the track descriptors in the
    order a range goes through them. *)
Record StreamInfo := {
  streamID : string;
  tracks : list TrackInfo;
}.

End sdp.

(** ** The native objects *)

Module native.

(** Handles on native transports and receivers. *)
Definition DTLSICETransport := N.
Definition RTPReceiverFacade := N.

(** [MediaFrameType]: 0 is audio, 1 is video. *)
Definition MediaFrameType := N.

(** Modelled from the spec: an [RTPSource] as far as the streams touch it,
    its ssrc; the counters of the native struct are left alone by the
    stream code. *)
Record RTPSource := { ssrc : N }.

Definition SetSsrc (v : N) (s : RTPSource) : RTPSource := {| ssrc := DWORD v |}.

Record RTPIncomingSourceGroup := {
  in_type : MediaFrameType;
  in_rid : string;
  in_mid : string;
  in_media : RTPSource;
  in_rtx : RTPSource;
  in_fec : RTPSource;
}.

Record RTPOutgoingSourceGroup := {
  out_type : MediaFrameType;
  out_media : RTPSource;
  out_rtx : RTPSource;
  out_fec : RTPSource;
}.

(** Modelled from the spec: the native constructors are not part of the
    sources; a fresh group has no rid, no mid, and the sentinel ssrc 0 in
    its three roles. *)
Definition NewRTPIncomingSourceGroup (type : MediaFrameType) : RTPIncomingSourceGroup :=
  {| in_type := type; in_rid := ""; in_mid := "";
     in_media := {| ssrc := 0 |}; in_rtx := {| ssrc := 0 |}; in_fec := {| ssrc := 0 |} |}.

Definition NewRTPOutgoingSourceGroup (type : MediaFrameType) : RTPOutgoingSourceGroup :=
  {| out_type := type;
     out_media := {| ssrc := 0 |}; out_rtx := {| ssrc := 0 |}; out_fec := {| ssrc := 0 |} |}.

Definition SetRid (r : string) (g : RTPIncomingSourceGroup) : RTPIncomingSourceGroup :=
  {| in_type := in_type g; in_rid := r; in_mid := in_mid g;
     in_media := in_media g; in_rtx := in_rtx g; in_fec := in_fec g |}.

Definition SetMid (m : string) (g : RTPIncomingSourceGroup) : RTPIncomingSourceGroup :=
  {| in_type := in_type g; in_rid := in_rid g; in_mid := m;
     in_media := in_media g; in_rtx := in_rtx g; in_fec := in_fec g |}.

(** [g.GetMedia().SetSsrc(v)], [g.GetRtx().SetSsrc(v)], [g.GetFec().SetSsrc(v)]. *)
Definition in_SetMedia (v : N) (g : RTPIncomingSourceGroup) : RTPIncomingSourceGroup :=
  {| in_type := in_type g; in_rid := in_rid g; in_mid := in_mid g;
     in_media := SetSsrc v (in_media g); in_rtx := in_rtx g; in_fec := in_fec g |}.

Definition in_SetRtx (v : N) (g : RTPIncomingSourceGroup) : RTPIncomingSourceGroup :=
  {| in_type := in_type g; in_rid := in_rid g; in_mid := in_mid g;
     in_media := in_media g; in_rtx := SetSsrc v (in_rtx g); in_fec := in_fec g |}.

Definition in_SetFec (v : N) (g : RTPIncomingSourceGroup) : RTPIncomingSourceGroup :=
  {| in_type := in_type g; in_rid := in_rid g; in_mid := in_mid g;
     in_media := in_media g; in_rtx := in_rtx g; in_fec := SetSsrc v (in_fec g) |}.

Definition out_SetMedia (v : N) (g : RTPOutgoingSourceGroup) : RTPOutgoingSourceGroup :=
  {| out_type := out_type g;
     out_media := SetSsrc v (out_media g); out_rtx := out_rtx g; out_fec := out_fec g |}.

Definition out_SetRtx (v : N) (g : RTPOutgoingSourceGroup) : RTPOutgoingSourceGroup :=
  {| out_type := out_type g;
     out_media := out_media g; out_rtx := SetSsrc v (out_rtx g); out_fec := out_fec g |}.

Definition out_SetFec (v : N) (g : RTPOutgoingSourceGroup) : RTPOutgoingSourceGroup :=
  {| out_type := out_type g;
     out_media := out_media g; out_rtx := out_rtx g; out_fec := SetSsrc v (out_fec g) |}.

End native.

(** [var mediaType native.MediaFrameType = 0; if track.GetMedia() == "video"
    { mediaType = 1 }], the opening of both [CreateTrack] methods. *)
Definition mediaTypeOf (track : sdp.TrackInfo) : native.MediaFrameType :=
  if decide (sdp.media track = "video") then 1%N else 0%N.

(** ** Tracks and the heap they live in *)

(** Streams hold their tracks by pointer; a pointer is a position in the heap
    of track objects, and Go pointers never dangle. *)
Abbreviation ptr := nat (only parsing).

(** A Go [error] value, by its message. *)
Definition error := string.

Module IncomingStreamTrack.

(** Modelled from the spec: [incomingstreamtrack.go] is not among the
    sources. A track keeps what its constructor is given (media kind, id,
    receive endpoint, mapping from encoding key to source group) and whether
    it has been stopped. *)
Record t := {
  id : string;
  media : string;
  receiver : option native.RTPReceiverFacade;
  sources : gmap string native.RTPIncomingSourceGroup;
  stopped : bool;
}.

Definition New (media id : string) (receiver : option native.RTPReceiverFacade)
    (sources : gmap string native.RTPIncomingSourceGroup) : t :=
  {| id := id; media := media; receiver := receiver; sources := sources; stopped := false |}.

Definition Stop (track : t) : t :=
  {| id := id track; media := media track; receiver := receiver track;
     sources := sources track; stopped := true |}.

End IncomingStreamTrack.

Module Transponder.

(** Modelled from the spec: [transponder.go] is not among the sources. Of a
    Transponder the streams see the incoming track it forwards from, if any;
    its outgoing group is the one of the track that owns it. *)
Record t := { incoming : option ptr }.

Definition SetIncoming (incomingTrack : option ptr) (tr : t) : t :=
  {| incoming := incomingTrack |}.

End Transponder.

Module OutgoingStreamTrack.

(** Modelled from the spec: [outgoingstreamtrack.go] is not among the
    sources. A track keeps what its constructor is given (media kind, id,
    sender, source group), the Transponder it owns once it has been attached,
    and whether it has been stopped. *)
Record t := {
  id : string;
  media : string;
  sender : native.DTLSICETransport;
  source : native.RTPOutgoingSourceGroup;
  transponder : option Transponder.t;
  stopped : bool;
}.

Definition new (media id : string) (sender : native.DTLSICETransport)
    (source : native.RTPOutgoingSourceGroup) : t :=
  {| id := id; media := media; sender := sender; source := source;
     transponder := None; stopped := false |}.

(** Modelled from the spec: attaching creates the track's Transponder or
    reuses it, and sets its incoming side. *)
Definition AttachTo (incomingTrack : ptr) (track : t) : t :=
  {| id := id track; media := media track; sender := sender track; source := source track;
     transponder :=
       Some (Transponder.SetIncoming (Some incomingTrack)
               (default {| Transponder.incoming := None |} (transponder track)));
     stopped := stopped track |}.

(** Modelled from the spec: detaching clears the incoming side of the
    Transponder and keeps the track. *)
Definition Detach (track : t) : t :=
  {| id := id track; media := media track; sender := sender track; source := source track;
     transponder := Transponder.SetIncoming None <$> transponder track;
     stopped := stopped track |}.

(** Modelled from the spec: stopping a track stops its Transponder first. *)
Definition Stop (track : t) : t :=
  {| id := id track; media := media track; sender := sender track; source := source track;
     transponder := None; stopped := true |}.

End OutgoingStreamTrack.

(** Calls the streams make on the native layer and on their listeners, in
    the order they are made. *)
Inductive Call :=
| AddIncomingSourceGroup (transport : native.DTLSICETransport) (group : native.RTPIncomingSourceGroup)
| AddOutgoingSourceGroup (transport : native.DTLSICETransport) (group : native.RTPOutgoingSourceGroup)
| RemoveOutgoingSourceGroup (transport : native.DTLSICETransport) (group : native.RTPOutgoingSourceGroup)
| DeleteRTPReceiverFacade (receiver : option native.RTPReceiverFacade)
| OnTrack (listener : nat) (track : ptr).

(** What lies outside a stream value: the track objects, shared by pointer,
    and the calls made so far. *)
Record World := {
  incomingTracks : list IncomingStreamTrack.t;
  outgoingTracks : list OutgoingStreamTrack.t;
  calls : list Call;
}.

Definition call (c : Call) (w : World) : World :=
  {| incomingTracks := incomingTracks w; outgoingTracks := outgoingTracks w;
     calls := calls w ++ [c] |}.

Definition callAll (cs : list Call) (w : World) : World :=
  {| incomingTracks := incomingTracks w; outgoingTracks := outgoingTracks w;
     calls := calls w ++ cs |}.

Definition setIncomingTracks (h : list IncomingStreamTrack.t) (w : World) : World :=
  {| incomingTracks := h; outgoingTracks := outgoingTracks w; calls := calls w |}.

Definition setOutgoingTracks (h : list OutgoingStreamTrack.t) (w : World) : World :=
  {| incomingTracks := incomingTracks w; outgoingTracks := h; calls := calls w |}.

(** ** Incoming streams *)

Module IncomingStream.

(** The stream object: id, transport and receiver handles (nil once the
    stream is stopped) and the tracks by id. The [Info] field and the
    listener list are written by no method below. *)
Record t := {
  Id : string;
  Transport : option native.DTLSICETransport;
  Receiver : option native.RTPReceiverFacade;
  Tracks : gmap string ptr;
}.

Definition setTracks (m : gmap string ptr) (i : t) : t :=
  {| Id := Id i; Transport := Transport i; Receiver := Receiver i; Tracks := m |}.

(** The error [AddTrack] returns on an id collision. *)
Definition DuplicateId : error := "Track Id already present in stream".

Section Methods.

(** [strings.ToLower] and the [sdp] lookup [TrackInfo.GetSourceGroup] belong
    to libraries outside the repository, and a range over a Go map visits
    its entries in an order the language leaves open: the methods are
    written for any of them. *)
Variable ToLower : string → string.
Variable GetSourceGroup : sdp.TrackInfo → string → option sdp.SourceGroupInfo.
Variable range : gmap string ptr → list (string * ptr).

Definition GetID (i : t) : string := Id i.

Definition GetTrack (i : t) (trackID : string) : option ptr := Tracks i !! trackID.

Definition GetTracks (i : t) : list ptr := (range (Tracks i)).*2.

(** [strings.ToLower(track.GetMedia()) == kind]. *)
Definition hasKind (kind : string) (w : World) (p : ptr) : bool :=
  match incomingTracks w !! p with
  | Some track => bool_decide (ToLower (IncomingStreamTrack.media track) = kind)
  | None => false
  end.

(** The tracks among [tracks] whose lowered media kind is [kind], in the
    order of [tracks]. *)
Definition ofKind (kind : string) (w : World) (tracks : list ptr) : list ptr :=
  filter (λ p, hasKind kind w p) tracks.

Definition GetAudioTracks (i : t) (w : World) : list ptr :=
  ofKind "audio" w (range (Tracks i)).*2.

Definition GetVideoTracks (i : t) (w : World) : list ptr :=
  ofKind "video" w (range (Tracks i)).*2.

(** [AddTrack]: the error result is [None] for Go's nil. *)
Definition AddTrack (i : t) (track : ptr) (w : World) : result (option error * t) :=
  obj ← deref (incomingTracks w !! track);
  match Tracks i !! IncomingStreamTrack.id obj with
  | Some _ => Ok (Some DuplicateId, i)
  | None => Ok (None, setTracks (<[IncomingStreamTrack.id obj := track]> (Tracks i)) i)
  end.

Definition RemoveTrack (i : t) (track : ptr) (w : World) : result (option error * t) :=
  obj ← deref (incomingTracks w !! track);
  Ok (None, setTracks (delete (IncomingStreamTrack.id obj) (Tracks i)) i).

(** The two tests on a group's semantics, shared by the explicit and the
    simulcast branch of [CreateTrack]. *)
Definition bindCompanions (group : sdp.SourceGroupInfo)
    (source : native.RTPIncomingSourceGroup) : result native.RTPIncomingSourceGroup :=
  source ← (if decide (sdp.semantics group = "FID")
            then second ← index (sdp.GetSSRCs group) 1; Ok (native.in_SetRtx second source)
            else Ok source);
  if decide (sdp.semantics group = "FEC-FR")
  then second ← index (sdp.GetSSRCs group) 1; Ok (native.in_SetFec second source)
  else Ok source.

(** Body of the loop over the groups in the explicit branch: the member
    list is tested against nil, then its first member is read. *)
Definition scanGroup (source : native.RTPIncomingSourceGroup)
    (group : sdp.SourceGroupInfo) : result native.RTPIncomingSourceGroup :=
  match sdp.ssrcs group with
  | None => Ok source
  | Some members =>
      first ← index members 0;
      if decide (first = native.ssrc (native.in_media source))
      then bindCompanions group source
      else Ok source
  end.

(** Body of the loop over the groups in the simulcast branch: the first
    member is read with no test. *)
Definition scanGroupSIM (ssrc : N) (source : native.RTPIncomingSourceGroup)
    (group : sdp.SourceGroupInfo) : result native.RTPIncomingSourceGroup :=
  first ← index (sdp.GetSSRCs group) 0;
  if decide (first = ssrc) then bindCompanions group source else Ok source.

(** [i.Transport.AddIncomingSourceGroup(source)] followed by
    [sources[key] = source]. *)
Definition register (transport : native.DTLSICETransport) (key : string)
    (source : native.RTPIncomingSourceGroup)
    (st : gmap string native.RTPIncomingSourceGroup * World)
    : gmap string native.RTPIncomingSourceGroup * World :=
  (<[key := source]> st.1, call (AddIncomingSourceGroup transport source) st.2).

(** The source group built for one encoding, before it is registered:
    [None] when the ssrc parameter does not parse and the iteration is left
    by [continue]. *)
Definition encodingSource (track : sdp.TrackInfo) (mediaType : native.MediaFrameType)
    (encoding : sdp.TrackEncodingInfo) : result (option native.RTPIncomingSourceGroup) :=
  let source := native.NewRTPIncomingSourceGroup mediaType in
  let mid := sdp.mediaID track in
  let rid := sdp.rid encoding in
  let source := native.SetRid rid source in
  let source := if decide (mid ≠ "") then native.SetMid mid source else source in
  match sdp.params encoding !! "ssrc" with
  | Some ssrc =>
      match ParseUint ssrc with
      | None => Ok None
      | Some ssrcUint =>
          let source := native.in_SetMedia ssrcUint source in
          source ← foldM scanGroup source (sdp.groups track);
          Ok (Some source)
      end
  | None => Ok (Some source)
  end.

(** Body of the loop over the encodings: the group is created through the
    transport's time service, filled in, then registered and entered under
    its rid. *)
Definition resolveEncoding (i : t) (track : sdp.TrackInfo) (mediaType : native.MediaFrameType)
    (st : gmap string native.RTPIncomingSourceGroup * World)
    (encoding : sdp.TrackEncodingInfo)
    : result (gmap string native.RTPIncomingSourceGroup * World) :=
  transport ← deref (Transport i);
  source ← encodingSource track mediaType encoding;
  match source with
  | None => Ok st
  | Some source => Ok (register transport (sdp.rid encoding) source st)
  end.

(** The source group built for one member of the SIM group, before it is
    registered. *)
Definition simulcastSource (track : sdp.TrackInfo) (mediaType : native.MediaFrameType)
    (ssrc : N) : result native.RTPIncomingSourceGroup :=
  let source := native.NewRTPIncomingSourceGroup mediaType in
  let source := native.in_SetMedia ssrc source in
  foldM (scanGroupSIM ssrc) source (sdp.groups track).

(** Body of the loop over the members of the SIM group; [member] is the
    slice position and the ssrc found there. *)
Definition resolveSimulcast (i : t) (track : sdp.TrackInfo) (mediaType : native.MediaFrameType)
    (st : gmap string native.RTPIncomingSourceGroup * World) (member : nat * N)
    : result (gmap string native.RTPIncomingSourceGroup * World) :=
  transport ← deref (Transport i);
  source ← simulcastSource track mediaType member.2;
  Ok (register transport (Itoa member.1) source st).

(** The single-flow branch. *)
Definition resolveSingle (i : t) (track : sdp.TrackInfo) (mediaType : native.MediaFrameType)
    (st : gmap string native.RTPIncomingSourceGroup * World)
    : result (gmap string native.RTPIncomingSourceGroup * World) :=
  transport ← deref (Transport i);
  let source := native.NewRTPIncomingSourceGroup mediaType in
  first ← index (sdp.ssrcsOf track) 0;
  let source := native.in_SetMedia first source in
  let fid := GetSourceGroup track "FID" in
  let fec_fr := GetSourceGroup track "FEC-FR" in
  source ← match fid with
           | Some fid => second ← index (sdp.GetSSRCs fid) 1; Ok (native.in_SetRtx second source)
           | None => Ok (native.in_SetRtx 0 source)
           end;
  source ← match fec_fr with
           | Some fec_fr => second ← index (sdp.GetSSRCs fec_fr) 1; Ok (native.in_SetFec second source)
           | None => Ok (native.in_SetFec 0 source)
           end;
  Ok (register transport "" source st).

(** The slice positions of a range over a slice. *)
Definition enumerate {A} (l : list A) : list (nat * A) := zip (seq 0 (length l)) l.

(** The source groups [CreateTrack] builds for a descriptor, with the
    registrations done on the way. *)
Definition resolve (i : t) (track : sdp.TrackInfo) (mediaType : native.MediaFrameType)
    (w : World) : result (gmap string native.RTPIncomingSourceGroup * World) :=
  let encodings := sdp.encodings track in
  if decide (0 < length encodings) then
    foldM (λ st items, foldM (resolveEncoding i track mediaType) st items) (∅, w) encodings
  else
    match GetSourceGroup track "SIM" with
    | Some SIM =>
        foldM (resolveSimulcast i track mediaType) (∅, w) (enumerate (sdp.GetSSRCs SIM))
    | None => resolveSingle i track mediaType (∅, w)
    end.

(** [CreateTrack]: [None] is the nil result; the new track is allocated at
    the end of the heap. *)
Definition CreateTrack (i : t) (track : sdp.TrackInfo) (w : World)
    : result (option ptr * t * World) :=
  match Tracks i !! sdp.id track with
  | Some _ => Ok (None, i, w)
  | None =>
      let mediaType := mediaTypeOf track in
      '(sources, w) ← resolve i track mediaType w;
      let incomingTrack :=
        IncomingStreamTrack.New (sdp.media track) (sdp.id track) (Receiver i) sources in
      let p := length (incomingTracks w) in
      let w := setIncomingTracks (incomingTracks w ++ [incomingTrack]) w in
      Ok (Some p, setTracks (<[sdp.id track := p]> (Tracks i)) i, w)
  end.

(** Body of the loop of [Stop]: the track is stopped and its entry deleted. *)
Definition stopTrack (st : gmap string ptr * World) (entry : string * ptr)
    : gmap string ptr * World :=
  (delete entry.1 st.1,
   setIncomingTracks (alter IncomingStreamTrack.Stop entry.2 (incomingTracks st.2)) st.2).

Definition Stop (i : t) (w : World) : t * World :=
  match Transport i with
  | None => (i, w)
  | Some _ =>
      let '(tracks, w) := foldl stopTrack (Tracks i, w) (range (Tracks i)) in
      let w := call (DeleteRTPReceiverFacade (Receiver i)) w in
      ({| Id := Id i; Transport := None; Receiver := None; Tracks := tracks |}, w)
  end.

(** [newIncomingStream]: the stream starts with an empty track map and has
    [CreateTrack] called for each track of the descriptor; what the calls
    hand back is dropped. The [Info] field is left unset. *)
Definition newIncomingStream (transport : option native.DTLSICETransport)
    (receiver : option native.RTPReceiverFacade) (info : sdp.StreamInfo) (w : World)
    : result (t * World) :=
  let stream :=
    {| Id := sdp.streamID info; Transport := transport; Receiver := receiver; Tracks := ∅ |} in
  foldM (λ '(stream, w) track,
           '(_, stream, w) ← CreateTrack stream track w; Ok (stream, w))
        (stream, w) (sdp.tracks info).

End Methods.

End IncomingStream.

(** ** Outgoing streams *)

(** Modelled from the spec: [track.DeleteOutgoingSourceGroup(transport)], a
    method of [outgoingstreamtrack.go], unregisters the track's source group
    from the transport. *)
Definition DeleteOutgoingSourceGroup (transport : native.DTLSICETransport) (track : ptr)
    (w : World) : World :=
  match outgoingTracks w !! track with
  | Some obj => call (RemoveOutgoingSourceGroup transport (OutgoingStreamTrack.source obj)) w
  | None => w
  end.

Module OutgoingStream.

(** The stream object: id, transport handle (nil once the stream is
    stopped), mute flag, the tracks by id and the track listeners. The
    [info] field and the stop listeners are used by no method below. *)
Record t := {
  id : string;
  transport : option native.DTLSICETransport;
  muted : bool;
  tracks : gmap string ptr;
  onAddTrackListeners : list nat;
}.

Definition setTracks (m : gmap string ptr) (o : t) : t :=
  {| id := id o; transport := transport o; muted := muted o; tracks := m;
     onAddTrackListeners := onAddTrackListeners o |}.

(** [stream.onAddTrackListeners = make(..., 0)]: an empty listener slice. *)
Definition makeListeners (o : t) : t :=
  {| id := id o; transport := transport o; muted := muted o; tracks := tracks o;
     onAddTrackListeners := [] |}.

(** The range statements one call of [AttachTo] goes through: the one of
    [Detach] and those of the four snapshots. A range over a Go map picks
    the order it visits the entries in on its own, each time it is
    reached. *)
Inductive RangeSite :=
| InDetach
| InOutgoingAudio
| InIncomingAudio
| InOutgoingVideo
| InIncomingVideo.

Section Methods.

Variable ToLower : string → string.

(** The order the range statement of a method takes over the track map; two
    calls need not take the same. *)
Variable range : gmap string ptr → list (string * ptr).

Definition GetID (o : t) : string := id o.

Definition IsMuted (o : t) : bool := muted o.

Definition GetTrack (o : t) (trackID : string) : option ptr := tracks o !! trackID.

Definition GetTracks (o : t) : list ptr := (range (tracks o)).*2.

(** [strings.ToLower(track.GetMedia()) == kind]. *)
Definition hasKind (kind : string) (w : World) (p : ptr) : bool :=
  match outgoingTracks w !! p with
  | Some track => bool_decide (ToLower (OutgoingStreamTrack.media track) = kind)
  | None => false
  end.

(** The tracks among [tracks] whose lowered media kind is [kind], in the
    order of [tracks]. *)
Definition ofKind (kind : string) (w : World) (tracks : list ptr) : list ptr :=
  filter (λ p, hasKind kind w p) tracks.

Definition GetAudioTracks (o : t) (w : World) : list ptr :=
  ofKind "audio" w (range (tracks o)).*2.

Definition GetVideoTracks (o : t) (w : World) : list ptr :=
  ofKind "video" w (range (tracks o)).*2.

(** Body of the loop of [Detach]. *)
Definition detachTrack (w : World) (entry : string * ptr) : World :=
  setOutgoingTracks (alter OutgoingStreamTrack.Detach entry.2 (outgoingTracks w)) w.

Definition Detach (o : t) (w : World) : World :=
  foldl detachTrack w (range (tracks o)).

(** [transponders = append(transponders, outgoing[i].AttachTo(track))]: the
    Transponder handed back is the one owned by [outgoing[i]] and is named
    by that track. *)
Definition attachAt (outgoing : list ptr) (st : list ptr * World) (i : nat) (track : ptr)
    : result (list ptr * World) :=
  out ← index outgoing i;
  Ok (st.1 ++ [out],
      setOutgoingTracks
        (alter (OutgoingStreamTrack.AttachTo track) out (outgoingTracks st.2)) st.2).

(** One of the two blocks of [AttachTo], for the outgoing and the incoming
    tracks of one kind. *)
Definition attachKind (outgoing incoming : list ptr) (st : list ptr * World)
    : result (list ptr * World) :=
  if decide (0 < length outgoing) then
    let index := length outgoing in
    let tracks := incoming in
    let index := if decide (index < length tracks) then length tracks else index in
    foldM (λ st '(i, track), if decide (i < index) then attachAt outgoing st i track else Ok st)
          st (IncomingStream.enumerate tracks)
  else Ok st.

End Methods.

(** [AttachTo] goes through five range statements; [range] gives the order
    each of them takes in this call. *)
Definition AttachTo (ToLower : string → string)
    (range : RangeSite → gmap string ptr → list (string * ptr))
    (o : t) (incomingStream : IncomingStream.t) (w : World)
    : result (list ptr * World) :=
  let w := Detach (range InDetach) o w in
  let transponders : list ptr := [] in
  let audios := GetAudioTracks ToLower (range InOutgoingAudio) o w in
  '(transponders, w) ←
    attachKind audios
               (IncomingStream.GetAudioTracks ToLower (range InIncomingAudio) incomingStream w)
               (transponders, w);
  let videos := GetVideoTracks ToLower (range InOutgoingVideo) o w in
  attachKind videos
             (IncomingStream.GetVideoTracks ToLower (range InIncomingVideo) incomingStream w)
             (transponders, w).

Section Membership.

Variable GetSourceGroup : sdp.TrackInfo → string → option sdp.SourceGroupInfo.
Variable range : gmap string ptr → list (string * ptr).

(** [AddTrack] has no result: the caller receives [tt]. *)
Definition AddTrack (o : t) (track : ptr) (w : World) : result (unit * t) :=
  obj ← deref (outgoingTracks w !! track);
  match tracks o !! OutgoingStreamTrack.id obj with
  | Some _ => Ok (tt, o)
  | None => Ok (tt, setTracks (<[OutgoingStreamTrack.id obj := track]> (tracks o)) o)
  end.

Definition RemoveTrack (o : t) (track : ptr) (w : World) : result (unit * t) :=
  obj ← deref (outgoingTracks w !! track);
  Ok (tt, setTracks (delete (OutgoingStreamTrack.id obj) (tracks o)) o).

(** The source group [CreateTrack] builds before it looks at the track map. *)
Definition resolve (track : sdp.TrackInfo) (mediaType : native.MediaFrameType)
    : result native.RTPOutgoingSourceGroup :=
  let source := native.NewRTPOutgoingSourceGroup mediaType in
  first ← index (sdp.ssrcsOf track) 0;
  let source := native.out_SetMedia first source in
  let fid := GetSourceGroup track "FID" in
  let fec_fr := GetSourceGroup track "FEC-FR" in
  source ← match fid with
           | Some fid => second ← index (sdp.GetSSRCs fid) 1; Ok (native.out_SetRtx second source)
           | None => Ok (native.out_SetRtx 0 source)
           end;
  match fec_fr with
  | Some fec_fr => second ← index (sdp.GetSSRCs fec_fr) 1; Ok (native.out_SetFec second source)
  | None => Ok (native.out_SetFec 0 source)
  end.

(** [CreateTrack]: [None] is the nil result; the new track is allocated at
    the end of the heap, and the track listeners are called last. *)
Definition CreateTrack (o : t) (track : sdp.TrackInfo) (w : World)
    : result (option ptr * t * World) :=
  let mediaType := mediaTypeOf track in
  source ← resolve track mediaType;
  match tracks o !! sdp.id track with
  | Some _ => Ok (None, o, w)
  | None =>
      transport ← deref (transport o);
      let w := call (AddOutgoingSourceGroup transport source) w in
      let outgoingTrack :=
        OutgoingStreamTrack.new (sdp.media track) (sdp.id track) transport source in
      let p := length (outgoingTracks w) in
      let w := setOutgoingTracks (outgoingTracks w ++ [outgoingTrack]) w in
      let o := setTracks (<[sdp.id track := p]> (tracks o)) o in
      let w := foldl (λ w addTrackFunc, call (OnTrack addTrackFunc p) w) w
                     (onAddTrackListeners o) in
      Ok (Some p, o, w)
  end.

Definition OnTrack (o : t) (listener : nat) : t :=
  {| id := id o; transport := transport o; muted := muted o; tracks := tracks o;
     onAddTrackListeners := onAddTrackListeners o ++ [listener] |}.

(** Body of the loop of [Stop]. *)
Definition stopTrack (transport : native.DTLSICETransport) (w : World) (entry : string * ptr)
    : World :=
  let w := setOutgoingTracks (alter OutgoingStreamTrack.Stop entry.2 (outgoingTracks w)) w in
  DeleteOutgoingSourceGroup transport entry.2 w.

Definition Stop (o : t) (w : World) : t * World :=
  match transport o with
  | None => (o, w)
  | Some transport =>
      let w := foldl (stopTrack transport) w (range (tracks o)) in
      ({| id := id o; transport := None; muted := muted o; tracks := ∅;
          onAddTrackListeners := onAddTrackListeners o |}, w)
  end.

(** [NewOutgoingStream]: the stream starts unmuted, with an empty track map
    and a nil listener slice, and has [CreateTrack] called for each track of
    the descriptor; the listener slice is made after the loop. *)
Definition NewOutgoingStream (transport : option native.DTLSICETransport)
    (info : sdp.StreamInfo) (w : World) : result (t * World) :=
  let stream :=
    {| id := sdp.streamID info; transport := transport; muted := false; tracks := ∅;
       onAddTrackListeners := [] |} in
  '(stream, w) ←
    foldM (λ '(stream, w) track,
             '(_, stream, w) ← CreateTrack stream track w; Ok (stream, w))
          (stream, w) (sdp.tracks info);
  Ok (makeListeners stream, w).

End Membership.

End OutgoingStream.

(** ** What a caller receives *)

(** The error a caller finds among the results of a call: a method declared
    with an [error] result hands one over or nil, a method declared with no
    result hands over nothing. *)
Class Reported (R : Type) := reported : R → option error.
#[global] Instance reported_error : Reported (option error) := λ e, e.
#[global] Instance reported_nothing : Reported unit := λ _, None.

(** ** The libraries, for running the methods *)

(** The methods above are written for any [strings.ToLower], any
    [TrackInfo.GetSourceGroup] and any visiting order; the samples are run
    with the ones below. *)
Module lib.

(** [strings.ToLower] on the ASCII letters. *)
Definition lowerAscii (c : Ascii.ascii) : Ascii.ascii :=
  let n := Ascii.N_of_ascii c in
  if ((65 <=? n) && (n <=? 90))%N then Ascii.ascii_of_N (n + 32) else c.

Fixpoint ToLower (s : string) : string :=
  match s with
  | EmptyString => EmptyString
  | String c s' => String (lowerAscii c) (ToLower s')
  end.

(** [TrackInfo.GetSourceGroup] of the [sdp] library: the first group of the
    descriptor whose semantics is the tag, letter case apart. *)
Definition GetSourceGroup (track : sdp.TrackInfo) (schematics : string)
    : option sdp.SourceGroupInfo :=
  head (filter (λ group, ToLower (sdp.semantics group) = ToLower schematics) (sdp.groups track)).

(** One visiting order of a map. *)
Definition range (m : gmap string ptr) : list (string * ptr) := map_to_list m.

(** The same order at each range statement of [AttachTo]. *)
Definition rangeAt (site : OutgoingStream.RangeSite) : gmap string ptr → list (string * ptr) :=
  range.

(** Another visiting order of a map: the entries of [range], last first. *)
Definition rangeBack (m : gmap string ptr) : list (string * ptr) := reverse (range m).

(** An order of its own at each range statement of [AttachTo]: the
    outgoing tracks as [range] has them, the incoming ones last first. *)
Definition rangeMixed (site : OutgoingStream.RangeSite)
    : gmap string ptr → list (string * ptr) :=
  match site with
  | OutgoingStream.InIncomingAudio | OutgoingStream.InIncomingVideo => rangeBack
  | _ => range
  end.

End lib.

(** ** Sample streams and descriptors *)

Definition emptyWorld : World := {| incomingTracks := []; outgoingTracks := []; calls := [] |}.

(** A live incoming stream with no track. *)
Definition liveIncoming : IncomingStream.t :=
  {| IncomingStream.Id := "in"; IncomingStream.Transport := Some 7%N;
     IncomingStream.Receiver := Some 9%N; IncomingStream.Tracks := ∅ |}.

(** A live outgoing stream with no track and one listener. *)
Definition liveOutgoing : OutgoingStream.t :=
  {| OutgoingStream.id := "out"; OutgoingStream.transport := Some 7%N;
     OutgoingStream.muted := false; OutgoingStream.tracks := ∅;
     OutgoingStream.onAddTrackListeners := [0] |}.

Definition FID_1111_2222 : sdp.SourceGroupInfo :=
  {| sdp.semantics := "FID"; sdp.ssrcs := Some [1111; 2222]%N |}.

(** One video track with one encoding, ssrc 1111, and the group
    FID=[1111,2222]. *)
Definition videoOneEncoding : sdp.TrackInfo :=
  {| sdp.id := "video0"; sdp.mediaID := "1"; sdp.media := "video";
     sdp.ssrcsOf := [1111; 2222]%N;
     sdp.groups := [FID_1111_2222];
     sdp.encodings := [[ {| sdp.rid := "hi"; sdp.params := {[ "ssrc" := "1111" ]} |} ]] |}.

Definition SIM_1111_3333 : sdp.SourceGroupInfo :=
  {| sdp.semantics := "SIM"; sdp.ssrcs := Some [1111; 3333]%N |}.

Definition FEC_3333_4444 : sdp.SourceGroupInfo :=
  {| sdp.semantics := "FEC-FR"; sdp.ssrcs := Some [3333; 4444]%N |}.

(** One video track without encodings, with the simulcast group
    SIM=[1111,3333], FID=[1111,2222] and FEC-FR=[3333,4444]. *)
Definition videoSimulcast : sdp.TrackInfo :=
  {| sdp.id := "video0"; sdp.mediaID := "1"; sdp.media := "video";
     sdp.ssrcsOf := [1111; 2222; 3333; 4444]%N;
     sdp.groups := [SIM_1111_3333; FID_1111_2222; FEC_3333_4444];
     sdp.encodings := [] |}.

(** One audio track with a single ssrc and no group. *)
Definition audioSingle : sdp.TrackInfo :=
  {| sdp.id := "audio0"; sdp.mediaID := "0"; sdp.media := "audio";
     sdp.ssrcsOf := [5555]%N; sdp.groups := []; sdp.encodings := [] |}.

(** One video track without encodings, with the groups FID=[1111,2222] and
    FEC-FR=[3333,4444]. *)
Definition videoSingle : sdp.TrackInfo :=
  {| sdp.id := "video0"; sdp.mediaID := "1"; sdp.media := "video";
     sdp.ssrcsOf := [1111; 2222]%N;
     sdp.groups := [FID_1111_2222; FEC_3333_4444];
     sdp.encodings := [] |}.

(** A world with one incoming and one outgoing audio track, and the
    streams that hold them under their id. *)
Definition audioWorld : World :=
  {| incomingTracks := [IncomingStreamTrack.New "audio" "audio0" (Some 9%N) ∅];
     outgoingTracks :=
       [OutgoingStreamTrack.new "audio" "audio0" 7%N (native.NewRTPOutgoingSourceGroup 0%N)];
     calls := [] |}.

Definition incomingWithAudio : IncomingStream.t :=
  {| IncomingStream.Id := "in"; IncomingStream.Transport := Some 7%N;
     IncomingStream.Receiver := Some 9%N; IncomingStream.Tracks := {[ "audio0" := 0 ]} |}.

Definition outgoingWithAudio : OutgoingStream.t :=
  {| OutgoingStream.id := "out"; OutgoingStream.transport := Some 7%N;
     OutgoingStream.muted := false; OutgoingStream.tracks := {[ "audio0" := 0 ]};
     OutgoingStream.onAddTrackListeners := [] |}.

(** A world with two incoming audio tracks and an incoming video track,
    one outgoing audio track and one outgoing video track, and the streams
    that hold them. *)
Definition surplusWorld : World :=
  {| incomingTracks :=
       [IncomingStreamTrack.New "audio" "audio0" (Some 9%N) ∅;
        IncomingStreamTrack.New "audio" "audio1" (Some 9%N) ∅;
        IncomingStreamTrack.New "video" "video0" (Some 9%N) ∅];
     outgoingTracks :=
       [OutgoingStreamTrack.new "audio" "audio0" 7%N (native.NewRTPOutgoingSourceGroup 0%N);
        OutgoingStreamTrack.new "video" "video0" 7%N (native.NewRTPOutgoingSourceGroup 1%N)];
     calls := [] |}.

Definition incomingTwoAudioOneVideo : IncomingStream.t :=
  {| IncomingStream.Id := "in"; IncomingStream.Transport := Some 7%N;
     IncomingStream.Receiver := Some 9%N;
     IncomingStream.Tracks := {[ "audio0" := 0; "audio1" := 1; "video0" := 2 ]} |}.

Definition outgoingOneAudioOneVideo : OutgoingStream.t :=
  {| OutgoingStream.id := "out"; OutgoingStream.transport := Some 7%N;
     OutgoingStream.muted := false;
     OutgoingStream.tracks := {[ "audio0" := 0; "video0" := 1 ]};
     OutgoingStream.onAddTrackListeners := [] |}.

(** The same incoming stream without its second audio track. *)
Definition incomingOneAudioOneVideo : IncomingStream.t :=
  {| IncomingStream.Id := "in"; IncomingStream.Transport := Some 7%N;
     IncomingStream.Receiver := Some 9%N;
     IncomingStream.Tracks := {[ "audio0" := 0; "video0" := 2 ]} |}.

(** An audio track whose descriptor lists no ssrc. *)
Definition audioNoSsrc : sdp.TrackInfo :=
  {| sdp.id := "audio0"; sdp.mediaID := "0"; sdp.media := "audio";
     sdp.ssrcsOf := []; sdp.groups := []; sdp.encodings := [] |}.

(** A video track whose FID group has a single member. *)
Definition videoShortFID : sdp.TrackInfo :=
  {| sdp.id := "video0"; sdp.mediaID := "1"; sdp.media := "video";
     sdp.ssrcsOf := [1111]%N;
     sdp.groups := [ {| sdp.semantics := "FID"; sdp.ssrcs := Some [1111]%N |} ];
     sdp.encodings := [] |}.

(** A simulcast track with a group that lists no member. *)
Definition videoSimulcastEmptyGroup : sdp.TrackInfo :=
  {| sdp.id := "video0"; sdp.mediaID := "1"; sdp.media := "video";
     sdp.ssrcsOf := [1111; 3333]%N;
     sdp.groups := [SIM_1111_3333; {| sdp.semantics := "FID"; sdp.ssrcs := None |}];
     sdp.encodings := [] |}.

(** The same track with a second encoding whose ssrc is not a number. *)
Definition videoBadEncoding : sdp.TrackInfo :=
  {| sdp.id := "video0"; sdp.mediaID := "1"; sdp.media := "video";
     sdp.ssrcsOf := [1111; 2222]%N;
     sdp.groups := [FID_1111_2222];
     sdp.encodings := [[ {| sdp.rid := "lo"; sdp.params := {[ "ssrc" := "abc" ]} |};
                         {| sdp.rid := "hi"; sdp.params := {[ "ssrc" := "1111" ]} |} ]] |}.


(** ** Notions the statements use *)

(** Every ssrc of the list is a 32-bit value. *)
Definition fits32 (l : list N) : Prop := Forall (λ s, (s < 2 ^ 32)%N) l.

(** [v] is the companion of [ssrc] under the semantics [tag], as [store]
    keeps it: the second member of a group with that semantics whose first
    member is [ssrc], and [unbound] when there is no such group. *)
Definition companionWith (store : N → N) (tag : string) (ssrc : N)
    (groups : list sdp.SourceGroupInfo) (unbound v : N) : Prop :=
  (∃ group second, group ∈ groups ∧ sdp.semantics group = tag
      ∧ sdp.GetSSRCs group !! 0 = Some ssrc ∧ sdp.GetSSRCs group !! 1 = Some second
      ∧ v = store second)
  ∨ ((∀ group, group ∈ groups → sdp.semantics group = tag →
        sdp.GetSSRCs group !! 0 ≠ Some ssrc) ∧ v = unbound).

(** The companion itself, with 0 for none. *)
Definition companion (tag : string) (ssrc : N) (groups : list sdp.SourceGroupInfo) (v : N)
    : Prop :=
  companionWith id tag ssrc groups 0%N v.

(** The reads of the simulcast branch succeed on group [group] while the
    member [ssrc] is resolved. *)
Definition scanReadable (ssrc : N) (group : sdp.SourceGroupInfo) : Prop :=
  0 < length (sdp.GetSSRCs group)
  ∧ (sdp.GetSSRCs group !! 0 = Some ssrc →
     sdp.semantics group = "FID" ∨ sdp.semantics group = "FEC-FR" →
     1 < length (sdp.GetSSRCs group)).

(** Every member of every group of the descriptor is a 32-bit value. *)
Definition groups32 (track : sdp.TrackInfo) : Prop :=
  ∀ group, group ∈ sdp.groups track → fits32 (sdp.GetSSRCs group).

(** What the explicit branch builds for an encoding it does not skip: the
    group carries the rid and the media id; with an ssrc parameter its media
    ssrc is the parsed value and its rtx and fec ssrc are the companions of
    that value, without one all three are 0. *)
Definition encodingGroup (track : sdp.TrackInfo) (encoding : sdp.TrackEncodingInfo)
    (source : native.RTPIncomingSourceGroup) : Prop :=
  native.in_type source = mediaTypeOf track
  ∧ native.in_rid source = sdp.rid encoding
  ∧ native.in_mid source = sdp.mediaID track
  ∧ match sdp.params encoding !! "ssrc" with
    | Some ssrc =>
        ∃ ssrcUint, ParseUint ssrc = Some ssrcUint
          ∧ native.ssrc (native.in_media source) = ssrcUint
          ∧ companion "FID" ssrcUint (sdp.groups track) (native.ssrc (native.in_rtx source))
          ∧ companion "FEC-FR" ssrcUint (sdp.groups track)
              (native.ssrc (native.in_fec source))
    | None =>
        native.ssrc (native.in_media source) = 0%N
        ∧ native.ssrc (native.in_rtx source) = 0%N
        ∧ native.ssrc (native.in_fec source) = 0%N
    end.


(** The encoding declares no ssrc parameter, or one that parses. *)
Definition parses (encoding : sdp.TrackEncodingInfo) : bool :=
  match sdp.params encoding !! "ssrc" with
  | Some ssrc => bool_decide (is_Some (ParseUint ssrc))
  | None => true
  end.

(** The reads of the explicit branch succeed for the encoding: when its
    ssrc parameter parses, every group of the descriptor that lists members
    can be scanned for the parsed value. *)
Definition encodingReadable (track : sdp.TrackInfo) (encoding : sdp.TrackEncodingInfo)
    : Prop :=
  ∀ ssrc ssrcUint,
    sdp.params encoding !! "ssrc" = Some ssrc → ParseUint ssrc = Some ssrcUint →
    ∀ group, group ∈ sdp.groups track → is_Some (sdp.ssrcs group) →
      scanReadable ssrcUint group.

Definition explicitReadable (track : sdp.TrackInfo) : Prop :=
  ∀ encoding, encoding ∈ concat (sdp.encodings track) → encodingReadable track encoding.

(** The reads of the simulcast branch succeed: for each member of the SIM
    group, on each group of the descriptor. *)
Definition simulcastReadable (track : sdp.TrackInfo) (SIM : sdp.SourceGroupInfo) : Prop :=
  ∀ ssrc, ssrc ∈ sdp.GetSSRCs SIM → Forall (scanReadable ssrc) (sdp.groups track).

(** The reads of the single-flow code succeed: there is a first ssrc, and
    the FID and the FEC-FR group, if the descriptor has them, have a second
    member. *)
Definition singleFlowReadable
    (GetSourceGroup : sdp.TrackInfo → string → option sdp.SourceGroupInfo)
    (track : sdp.TrackInfo) : Prop :=
  0 < length (sdp.ssrcsOf track)
  ∧ (∀ fid, GetSourceGroup track "FID" = Some fid → 1 < length (sdp.GetSSRCs fid))
  ∧ (∀ fec_fr, GetSourceGroup track "FEC-FR" = Some fec_fr →
       1 < length (sdp.GetSSRCs fec_fr)).

(** The ssrcs the single-flow code reads are 32-bit values. *)
Definition singleFlow32
    (GetSourceGroup : sdp.TrackInfo → string → option sdp.SourceGroupInfo)
    (track : sdp.TrackInfo) : Prop :=
  fits32 (sdp.ssrcsOf track)
  ∧ (∀ fid, GetSourceGroup track "FID" = Some fid → fits32 (sdp.GetSSRCs fid))
  ∧ (∀ fec_fr, GetSourceGroup track "FEC-FR" = Some fec_fr → fits32 (sdp.GetSSRCs fec_fr)).

(** [v] is the second member of the group the single-flow code was handed,
    as [store] keeps it, and 0 for no group. *)
Definition secondOfWith (store : N → N) (group : option sdp.SourceGroupInfo) (v : N) : Prop :=
  match group with
  | Some group => ∃ second, sdp.GetSSRCs group !! 1 = Some second ∧ v = store second
  | None => v = 0%N
  end.

Definition secondOf (group : option sdp.SourceGroupInfo) (v : N) : Prop :=
  secondOfWith id group v.

(** The entries the explicit branch makes, in the order of the encodings:
    the rid and the source group of each encoding that is not skipped. *)
Definition explicitEntries (track : sdp.TrackInfo)
    : list (string * native.RTPIncomingSourceGroup) :=
  omap (λ encoding,
          match IncomingStream.encodingSource track (mediaTypeOf track) encoding with
          | Ok (Some source) => Some (sdp.rid encoding, source)
          | _ => None
          end)
       (concat (sdp.encodings track)).

(** The entries the simulcast branch makes: the position and the source
    group of each member. *)
Definition simulcastEntries (track : sdp.TrackInfo) (SIM : sdp.SourceGroupInfo)
    : list (string * native.RTPIncomingSourceGroup) :=
  omap (λ member : nat * N,
          match IncomingStream.simulcastSource track (mediaTypeOf track) member.2 with
          | Ok source => Some (Itoa member.1, source)
          | Panic => None
          end)
       (IncomingStream.enumerate (sdp.GetSSRCs SIM)).

(** Entering the entries into a map one after the other, and registering
    their groups with the transport. *)
Definition enter (entries : list (string * native.RTPIncomingSourceGroup))
    (sources : gmap string native.RTPIncomingSourceGroup)
    : gmap string native.RTPIncomingSourceGroup :=
  foldl (λ m entry, <[entry.1 := entry.2]> m) sources entries.

Definition registrations (transport : native.DTLSICETransport)
    (entries : list (string * native.RTPIncomingSourceGroup)) : list Call :=
  AddIncomingSourceGroup transport <$> entries.*2.

(** What [bindCompanions] leaves alone. *)
Definition sameFlow (source source' : native.RTPIncomingSourceGroup) : Prop :=
  native.in_type source' = native.in_type source
  ∧ native.in_rid source' = native.in_rid source
  ∧ native.in_mid source' = native.in_mid source
  ∧ native.in_media source' = native.in_media source.

(** The same method called on each of the objects [ps] points to. *)
Definition alterAll {A} (f : A → A) (ps : list ptr) (h : list A) : list A :=
  foldl (λ h p, alter f p h) h ps.

(** The world after the loop of the outgoing [Stop]: each object pointed to
    is stopped, and the source group it holds is unregistered. *)
Definition stopped (transport : native.DTLSICETransport) (ps : list ptr) (w : World) : World :=
  {| incomingTracks := incomingTracks w;
     outgoingTracks := alterAll OutgoingStreamTrack.Stop ps (outgoingTracks w);
     calls := calls w ++
       omap (λ p, (λ obj, RemoveOutgoingSourceGroup transport (OutgoingStreamTrack.source obj))
                    <$> outgoingTracks w !! p) ps |}.

(** The outgoing tracks paired with the incoming tracks at the same
    position have [AttachTo] called with them. *)
Definition paired (outgoing incoming : list ptr) (h : list OutgoingStreamTrack.t)
    : list OutgoingStreamTrack.t :=
  foldl (λ h pair, alter (OutgoingStreamTrack.AttachTo pair.2) pair.1 h) h
        (zip outgoing incoming).

(** Walking through the members of a literal list. *)
Ltac members :=
  repeat match goal with
         | H : _ ∈ [] |- _ => by apply elem_of_nil in H
         | H : _ ∈ _ :: _ |- _ => apply elem_of_cons in H as [->|H]
         end.

(** ** Notions for the calls made on the tracks *)





(** The world [AttachTo] leaves when it returns: the tracks of the stream
    detached, then the audio tracks paired, then the video tracks. *)
Definition attached (ToLower : string → string)
    (range : OutgoingStream.RangeSite → gmap string ptr → list (string * ptr))
    (o : OutgoingStream.t) (incomingStream : IncomingStream.t) (w : World) : World :=
  setOutgoingTracks
    (paired (OutgoingStream.GetVideoTracks ToLower (range OutgoingStream.InOutgoingVideo) o w)
            (IncomingStream.GetVideoTracks ToLower (range OutgoingStream.InIncomingVideo)
               incomingStream w)
       (paired (OutgoingStream.GetAudioTracks ToLower (range OutgoingStream.InOutgoingAudio) o w)
               (IncomingStream.GetAudioTracks ToLower (range OutgoingStream.InIncomingAudio)
                  incomingStream w)
          (alterAll OutgoingStreamTrack.Detach
             (OutgoingStream.GetTracks (range OutgoingStream.InDetach) o)
             (outgoingTracks w)))) w.

(** The track object [p] is held by the stream, under some id. *)
Definition heldBy (o : OutgoingStream.t) (p : ptr) : Prop :=
  ∃ trackID, OutgoingStream.GetTrack o trackID = Some p.

(** The track at [q] is attached to the incoming track [p]: its Transponder
    forwards from [p]. *)
Definition attachedTo (w : World) (q p : ptr) : Prop :=
  OutgoingStreamTrack.transponder <$> outgoingTracks w !! q
  = Some (Some {| Transponder.incoming := Some p |}).

(** There are more incoming than outgoing tracks, and an outgoing one. *)
Definition surplus (outgoing incoming : list ptr) : Prop :=
  0 < length outgoing ∧ length outgoing < length incoming.


(** ** Notions for the reads and the calls of [CreateTrack] *)

(** [CreateTrack] on an incoming stream reaches a call on the transport for
    the descriptor: it has an encoding, or a SIM group with a member, or
    takes the single-flow branch. *)
Definition touchesTransport
    (GetSourceGroup : sdp.TrackInfo → string → option sdp.SourceGroupInfo)
    (track : sdp.TrackInfo) : Prop :=
  if decide (0 < length (sdp.encodings track)) then concat (sdp.encodings track) ≠ []
  else match GetSourceGroup track "SIM" with
       | Some SIM => sdp.GetSSRCs SIM ≠ []
       | None => True
       end.

#[global] Instance touchesTransport_dec GetSourceGroup track :
  Decision (touchesTransport GetSourceGroup track).
Proof.
  unfold touchesTransport. destruct (decide (0 < length (sdp.encodings track))); [apply _|].
  destruct (GetSourceGroup track "SIM"); apply _.
Defined.

(** The reads [CreateTrack] makes on an incoming stream succeed, in the
    branch the descriptor selects. *)
Definition incomingReadable
    (GetSourceGroup : sdp.TrackInfo → string → option sdp.SourceGroupInfo)
    (track : sdp.TrackInfo) : Prop :=
  if decide (0 < length (sdp.encodings track)) then explicitReadable track
  else match GetSourceGroup track "SIM" with
       | Some SIM => simulcastReadable track SIM
       | None => singleFlowReadable GetSourceGroup track
       end.

(** ** Further samples *)

(** A descriptor whose media kind is "video" in other letters than lower
    case. *)
Definition videoUpperCase : sdp.TrackInfo :=
  {| sdp.id := "video0"; sdp.mediaID := "1"; sdp.media := "VIDEO";
     sdp.ssrcsOf := [1111]%N; sdp.groups := []; sdp.encodings := [] |}.

(** The source group, the stream and the world after [CreateTrack] of
    [audioSingle] on [liveIncoming] in [emptyWorld]. *)
Definition audioSource : native.RTPIncomingSourceGroup :=
  native.in_SetFec 0 (native.in_SetRtx 0
    (native.in_SetMedia 5555 (native.NewRTPIncomingSourceGroup 0%N))).

Definition audioCreatedStream : IncomingStream.t :=
  IncomingStream.setTracks {[ "audio0" := 0 ]} liveIncoming.

Definition audioCreatedWorld : World :=
  {| incomingTracks :=
       [IncomingStreamTrack.New "audio" "audio0" (Some 9%N) {[ "" := audioSource ]}];
     outgoingTracks := [];
     calls := [AddIncomingSourceGroup 7%N audioSource] |}.

(** A video track with two encodings under the same rid. *)
Definition videoSameRid : sdp.TrackInfo :=
  {| sdp.id := "video0"; sdp.mediaID := "1"; sdp.media := "video";
     sdp.ssrcsOf := [1111; 3333]%N;
     sdp.groups := [];
     sdp.encodings := [[ {| sdp.rid := "hi"; sdp.params := {[ "ssrc" := "1111" ]} |};
                         {| sdp.rid := "hi"; sdp.params := {[ "ssrc" := "3333" ]} |} ]] |}.

(** A video track whose one alternative lists no encoding. *)
Definition videoNoEncoding : sdp.TrackInfo :=
  {| sdp.id := "video0"; sdp.mediaID := "1"; sdp.media := "video";
     sdp.ssrcsOf := [1111]%N; sdp.groups := []; sdp.encodings := [[]] |}.

(** A video track with two encodings, the first with an ssrc that is not a
    number, and an FID group that has the ssrc of the second for its one
    member. *)
Definition videoBadEncodingShortFID : sdp.TrackInfo :=
  {| sdp.id := "video0"; sdp.mediaID := "1"; sdp.media := "video";
     sdp.ssrcsOf := [1111]%N;
     sdp.groups := [ {| sdp.semantics := "FID"; sdp.ssrcs := Some [1111]%N |} ];
     sdp.encodings := [[ {| sdp.rid := "lo"; sdp.params := {[ "ssrc" := "abc" ]} |};
                         {| sdp.rid := "hi"; sdp.params := {[ "ssrc" := "1111" ]} |} ]] |}.

(** A stream descriptor with an audio and a video track. *)
Definition audioAndVideo : sdp.StreamInfo :=
  {| sdp.streamID := "stream0"; sdp.tracks := [audioSingle; videoSingle] |}.

(** ** Go run-time behaviour: lemmas *)

Lemma index_Ok {A} (l : list A) (i : nat) (a : A) : index l i = Ok a ↔ l !! i = Some a.
Proof. unfold index. destruct (l !! i); split; congruence. Qed.

Lemma index_Panic {A} (l : list A) (i : nat) : index l i = Panic ↔ length l ≤ i.
Proof.
  unfold index. rewrite <- lookup_ge_None.
  destruct (l !! i); split; congruence.
Qed.

Lemma index_lt {A} (l : list A) (i : nat) : i < length l → ∃ a, index l i = Ok a ∧ l !! i = Some a.
Proof.
  intros Hlt. destruct (lookup_lt_is_Some_2 l i Hlt) as [a Ha].
  exists a. split; [by apply index_Ok | done].
Qed.

Lemma bind_Ok {A B} (f : A → result B) (r : result A) (b : B) :
  r ≫= f = Ok b ↔ ∃ a, r = Ok a ∧ f a = Ok b.
Proof.
  destruct r as [a|]; simpl; split.
  - intros H. by exists a.
  - by intros (a' & [= ->] & H).
  - discriminate.
  - by intros (a' & [=] & _).
Qed.

Lemma foldM_cons {A B} (f : A → B → result A) (a : A) (b : B) (l : list B) :
  foldM f a (b :: l) = f a b ≫= λ a', foldM f a' l.
Proof. done. Qed.

Lemma foldM_app {A B} (f : A → B → result A) (a : A) (l1 l2 : list B) :
  foldM f a (l1 ++ l2) = foldM f a l1 ≫= λ a', foldM f a' l2.
Proof.
  revert a. induction l1 as [|b l1 IH]; intros a; simpl; [done|].
  destruct (f a b) as [a'|]; simpl; [apply IH | done].
Qed.

Lemma filter_all {A} (P : A → Prop) `{!∀ x, Decision (P x)} (l : list A) :
  Forall P l → filter P l = l.
Proof.
  induction 1 as [|x l Hx _ IH]; [done|].
  by rewrite filter_cons_True, IH.
Qed.

Lemma DWORD_fits (n : N) : (n < 2 ^ 32)%N → DWORD n = n.
Proof. intros H. unfold DWORD. by apply N.mod_small. Qed.

(** ** Resolution of the companions *)

Section Companions.

Implicit Types (source : native.RTPIncomingSourceGroup) (group : sdp.SourceGroupInfo).

Lemma sameFlow_refl source : sameFlow source source.
Proof. by repeat split. Qed.

Lemma sameFlow_trans s1 s2 s3 : sameFlow s1 s2 → sameFlow s2 s3 → sameFlow s1 s3.
Proof. unfold sameFlow. intros (?&?&?&?) (?&?&?&?). repeat split; congruence. Qed.

(** [bindCompanions] returns exactly when the group has a second member or
    none of the two semantics. *)
Lemma bindCompanions_Ok group source :
  (sdp.semantics group = "FID" ∨ sdp.semantics group = "FEC-FR" →
   1 < length (sdp.GetSSRCs group)) →
  ∃ source', IncomingStream.bindCompanions group source = Ok source'
    ∧ sameFlow source source'
    ∧ native.ssrc (native.in_rtx source') =
        (if decide (sdp.semantics group = "FID")
         then DWORD (default 0%N (sdp.GetSSRCs group !! 1))
         else native.ssrc (native.in_rtx source))
    ∧ native.ssrc (native.in_fec source') =
        (if decide (sdp.semantics group = "FEC-FR")
         then DWORD (default 0%N (sdp.GetSSRCs group !! 1))
         else native.ssrc (native.in_fec source)).
Proof.
  intros Hlen. unfold IncomingStream.bindCompanions.
  destruct (decide (sdp.semantics group = "FID")) as [Hfid|Hfid];
    destruct (decide (sdp.semantics group = "FEC-FR")) as [Hfec|Hfec];
    try (rewrite Hfid in Hfec; discriminate).
  - destruct (index_lt (sdp.GetSSRCs group) 1) as (second & -> & ->); [by auto|].
    simpl. eexists. split; [done|]. by repeat split.
  - destruct (index_lt (sdp.GetSSRCs group) 1) as (second & -> & ->); [by auto|].
    simpl. eexists. split; [done|]. by repeat split.
  - simpl. eexists. split; [done|]. by repeat split.
Qed.

Lemma bindCompanions_Panic group source :
  (sdp.semantics group = "FID" ∨ sdp.semantics group = "FEC-FR") →
  length (sdp.GetSSRCs group) ≤ 1 →
  IncomingStream.bindCompanions group source = Panic.
Proof.
  intros Hsem Hlen. unfold IncomingStream.bindCompanions.
  apply index_Panic in Hlen.
  destruct (decide (sdp.semantics group = "FID")) as [Hfid|Hfid].
  - by rewrite Hlen.
  - simpl. destruct Hsem as [?|Hfec]; [done|].
    rewrite decide_True by done. by rewrite Hlen.
Qed.

Lemma scanGroupSIM_Ok ssrc source group :
  scanReadable ssrc group →
  ∃ source', IncomingStream.scanGroupSIM ssrc source group = Ok source'
    ∧ sameFlow source source'
    ∧ native.ssrc (native.in_rtx source') =
        (if decide (sdp.GetSSRCs group !! 0 = Some ssrc ∧ sdp.semantics group = "FID")
         then DWORD (default 0%N (sdp.GetSSRCs group !! 1))
         else native.ssrc (native.in_rtx source))
    ∧ native.ssrc (native.in_fec source') =
        (if decide (sdp.GetSSRCs group !! 0 = Some ssrc ∧ sdp.semantics group = "FEC-FR")
         then DWORD (default 0%N (sdp.GetSSRCs group !! 1))
         else native.ssrc (native.in_fec source)).
Proof.
  intros [Hfirst Hsecond]. unfold IncomingStream.scanGroupSIM.
  destruct (index_lt (sdp.GetSSRCs group) 0 Hfirst) as (first & -> & Hlookup).
  simpl. rewrite Hlookup in *.
  destruct (decide (first = ssrc)) as [->|Hne].
  - destruct (bindCompanions_Ok group source (Hsecond eq_refl)) as (source' & -> & Hflow & Hrtx & Hfec).
    exists source'. split; [done|]. split; [done|].
    rewrite Hrtx, Hfec. split; repeat case_decide; intuition congruence.
  - exists source. split; [done|]. split; [apply sameFlow_refl|].
    rewrite !decide_False; [done|intros [[=] _]; congruence..].
Qed.

Lemma scanGroupSIM_Ok_inv ssrc source group source' :
  IncomingStream.scanGroupSIM ssrc source group = Ok source' → scanReadable ssrc group.
Proof.
  unfold IncomingStream.scanGroupSIM, scanReadable. intros H.
  apply bind_Ok in H as (first & Hfirst & H).
  apply index_Ok in Hfirst. split.
  - by eapply lookup_lt_Some.
  - intros H0 Hsem. rewrite Hfirst in H0. injection H0 as ->.
    rewrite decide_True in H by done.
    destruct (decide (1 < length (sdp.GetSSRCs group))); [done|].
    rewrite bindCompanions_Panic in H; [done|done|lia].
Qed.

(** The loop over the groups in the simulcast branch returns exactly when
    every group can be read, and then binds the companions of [ssrc]. *)
Lemma foldM_scanGroupSIM ssrc groups source :
  Forall (scanReadable ssrc) groups →
  ∃ source', foldM (IncomingStream.scanGroupSIM ssrc) source groups = Ok source'
    ∧ sameFlow source source'
    ∧ companionWith DWORD "FID" ssrc groups
        (native.ssrc (native.in_rtx source)) (native.ssrc (native.in_rtx source'))
    ∧ companionWith DWORD "FEC-FR" ssrc groups
        (native.ssrc (native.in_fec source)) (native.ssrc (native.in_fec source')).
Proof.
  intros Hall. revert source.
  induction Hall as [|group groups Hgroup _ IH]; intros source.
  - exists source. split; [done|]. split; [apply sameFlow_refl|].
    split; right; (split; [by intros ? ?%elem_of_nil|done]).
  - destruct (scanGroupSIM_Ok ssrc source group Hgroup) as (s1 & Hs1 & Hflow1 & Hrtx1 & Hfec1).
    destruct (IH s1) as (s2 & Hs2 & Hflow2 & Hrtx2 & Hfec2).
    exists s2. simpl. rewrite Hs1. simpl. split; [done|].
    split; [by eapply sameFlow_trans|].
    destruct Hgroup as [_ Hsecond].
    assert (∀ tag unbound v1 v2,
      (tag = "FID" ∨ tag = "FEC-FR") →
      v1 = (if decide (sdp.GetSSRCs group !! 0 = Some ssrc ∧ sdp.semantics group = tag)
            then DWORD (default 0%N (sdp.GetSSRCs group !! 1)) else unbound) →
      companionWith DWORD tag ssrc groups v1 v2 →
      companionWith DWORD tag ssrc (group :: groups) unbound v2) as Hstep.
    { intros tag unbound v1 v2 Htag Hv1 [(g & second & Hin & Hsem & H0 & H1 & Hv)|[Hnone Hv]].
      - left. exists g, second. split_and!; try done. apply elem_of_cons. by right.
      - case_decide as Hmatch; subst v1.
        + destruct Hmatch as [H0 Hsem].
          destruct (lookup_lt_is_Some_2 (sdp.GetSSRCs group) 1) as [second Hsec].
          { apply Hsecond; [done|]. rewrite Hsem. done. }
          left. exists group, second. rewrite Hsec in Hv. simpl in Hv.
          split_and!; try done. apply elem_of_cons. by left.
        + right. split; [|done].
          intros g [->|Hin]%elem_of_cons Hsem; [|by apply Hnone].
          intros H0. by apply Hmatch. }
    split; eapply Hstep; eauto.
Qed.

Lemma foldM_scanGroupSIM_inv ssrc groups source source' :
  foldM (IncomingStream.scanGroupSIM ssrc) source groups = Ok source' →
  Forall (scanReadable ssrc) groups.
Proof.
  revert source. induction groups as [|group groups IH]; intros source H; [constructor|].
  simpl in H. apply bind_Ok in H as (s1 & Hs1 & H).
  constructor; [by eapply scanGroupSIM_Ok_inv | by eapply IH].
Qed.

End Companions.

(** ** The explicit branch *)

Section Explicit.

Implicit Types (source : native.RTPIncomingSourceGroup) (group : sdp.SourceGroupInfo).

Lemma ParseUint_fits (s : string) (u : N) : ParseUint s = Some u → (u < 2 ^ 32)%N.
Proof.
  unfold ParseUint. destruct s as [|c s]; [done|].
  destruct (digits (String c s) 0) as [n|]; simpl; [|done].
  destruct (n <? 2 ^ 32)%N eqn:Hlt; [|done].
  intros [= <-]. by apply N.ltb_lt.
Qed.

Lemma scanGroupSIM_sameFlow ssrc source group source' :
  IncomingStream.scanGroupSIM ssrc source group = Ok source' → sameFlow source source'.
Proof.
  intros H. pose proof (scanGroupSIM_Ok_inv _ _ _ _ H) as Hread.
  destruct (scanGroupSIM_Ok ssrc source group Hread) as (s & Hs & Hflow & _).
  congruence.
Qed.

(** On a group that lists members the explicit scan is the simulcast scan
    for the media ssrc of the source; a group with a nil list is passed. *)
Lemma scanGroup_unfold source group :
  IncomingStream.scanGroup source group =
  match sdp.ssrcs group with
  | None => Ok source
  | Some _ =>
      IncomingStream.scanGroupSIM (native.ssrc (native.in_media source)) source group
  end.
Proof.
  unfold IncomingStream.scanGroup, IncomingStream.scanGroupSIM, sdp.GetSSRCs.
  by destruct (sdp.ssrcs group).
Qed.

Lemma foldM_scanGroup_filter groups source :
  foldM IncomingStream.scanGroup source groups =
  foldM (IncomingStream.scanGroupSIM (native.ssrc (native.in_media source))) source
        (filter (λ group, is_Some (sdp.ssrcs group)) groups).
Proof.
  revert source. induction groups as [|group groups IH]; intros source; [done|].
  simpl. rewrite scanGroup_unfold.
  destruct (sdp.ssrcs group) as [members|] eqn:Hmembers.
  - rewrite filter_cons_True by (by rewrite Hmembers). simpl.
    destruct (IncomingStream.scanGroupSIM _ source group) as [s1|] eqn:Hs1; [|done].
    simpl. apply scanGroupSIM_sameFlow in Hs1 as (_ & _ & _ & Hmedia).
    rewrite IH. by rewrite Hmedia.
  - rewrite filter_cons_False by (rewrite Hmembers; by intros [? ?]). simpl. apply IH.
Qed.

Lemma companionWith_filter store tag ssrc groups unbound v :
  companionWith store tag ssrc (filter (λ group, is_Some (sdp.ssrcs group)) groups) unbound v →
  companionWith store tag ssrc groups unbound v.
Proof.
  intros [(g & second & Hin & Hrest)|[Hnone Hv]].
  - left. exists g, second. split; [|done]. by apply list_elem_of_filter in Hin as [_ ?].
  - right. split; [|done]. intros g Hin Hsem H0. apply (Hnone g); [|done..].
    apply list_elem_of_filter. split; [|done].
    unfold sdp.GetSSRCs in H0. by destruct (sdp.ssrcs g).
Qed.

(** The loop over the groups in the explicit branch. *)
Lemma foldM_scanGroup track source :
  (∀ group, group ∈ sdp.groups track → is_Some (sdp.ssrcs group) →
     scanReadable (native.ssrc (native.in_media source)) group) →
  ∃ source', foldM IncomingStream.scanGroup source (sdp.groups track) = Ok source'
    ∧ sameFlow source source'
    ∧ companionWith DWORD "FID" (native.ssrc (native.in_media source)) (sdp.groups track)
        (native.ssrc (native.in_rtx source)) (native.ssrc (native.in_rtx source'))
    ∧ companionWith DWORD "FEC-FR" (native.ssrc (native.in_media source)) (sdp.groups track)
        (native.ssrc (native.in_fec source)) (native.ssrc (native.in_fec source')).
Proof.
  intros Hread. rewrite foldM_scanGroup_filter.
  destruct (foldM_scanGroupSIM (native.ssrc (native.in_media source))
              (filter (λ group, is_Some (sdp.ssrcs group)) (sdp.groups track)) source)
    as (source' & Hs & Hflow & Hrtx & Hfec).
  { apply Forall_forall. intros g [Hsome Hin]%list_elem_of_filter. by apply Hread. }
  exists source'. split; [done|]. split; [done|].
  split; by apply companionWith_filter.
Qed.

(** The scan of the explicit branch returns only when the groups that list
    members can be read. *)
Lemma foldM_scanGroup_inv track source source' :
  foldM IncomingStream.scanGroup source (sdp.groups track) = Ok source' →
  ∀ group, group ∈ sdp.groups track → is_Some (sdp.ssrcs group) →
    scanReadable (native.ssrc (native.in_media source)) group.
Proof.
  rewrite foldM_scanGroup_filter. intros H%foldM_scanGroupSIM_inv group Hin Hsome.
  rewrite Forall_forall in H. apply H. by apply list_elem_of_filter.
Qed.

Lemma companionWith_DWORD tag ssrc groups unbound v :
  (∀ group, group ∈ groups → fits32 (sdp.GetSSRCs group)) →
  companionWith DWORD tag ssrc groups unbound v →
  companionWith id tag ssrc groups unbound v.
Proof.
  intros H32 [(g & second & Hin & Hsem & H0 & H1 & Hv)|Hnone]; [|by right].
  left. exists g, second. split_and!; try done.
  rewrite Hv. apply DWORD_fits.
  pose proof (H32 g Hin) as Hfits. unfold fits32 in Hfits.
  rewrite Forall_forall in Hfits. apply Hfits. by eapply list_elem_of_lookup_2.
Qed.

Lemma encodingSource_skipped track mediaType encoding :
  parses encoding = false →
  IncomingStream.encodingSource track mediaType encoding = Ok None.
Proof.
  unfold parses, IncomingStream.encodingSource.
  destruct (sdp.params encoding !! "ssrc") as [s|]; [|done].
  destruct (ParseUint s); [|done].
  intros H. apply bool_decide_eq_false in H. by destruct H.
Qed.

Lemma in_SetMedia_parsed (u : N) (base : native.RTPIncomingSourceGroup) :
  (u < 2 ^ 32)%N → native.ssrc (native.in_media (native.in_SetMedia u base)) = u.
Proof. intros Hu. unfold native.in_SetMedia, native.SetSsrc. simpl. by apply DWORD_fits. Qed.

Lemma encodingSource_parses track encoding :
  encodingReadable track encoding → groups32 track → parses encoding = true →
  ∃ source,
    IncomingStream.encodingSource track (mediaTypeOf track) encoding = Ok (Some source)
    ∧ encodingGroup track encoding source.
Proof.
  intros Hread H32 Hparses.
  unfold parses, IncomingStream.encodingSource, encodingGroup, encodingReadable in *.
  set (base := if decide (sdp.mediaID track ≠ "") then _ else _).
  assert (native.in_type base = mediaTypeOf track ∧ native.in_rid base = sdp.rid encoding
          ∧ native.in_mid base = sdp.mediaID track
          ∧ native.ssrc (native.in_media base) = 0%N
          ∧ native.ssrc (native.in_rtx base) = 0%N
          ∧ native.ssrc (native.in_fec base) = 0%N) as (Htype & Hrid & Hmid & Hm & Hr & Hf).
  { subst base. case_decide as Hne; simpl; split_and!; try done;
      by destruct (decide (sdp.mediaID track = "")). }
  destruct (sdp.params encoding !! "ssrc") as [s|].
  - destruct (ParseUint s) as [u|] eqn:Hu.
    + pose proof (in_SetMedia_parsed u base (ParseUint_fits _ _ Hu)) as HD.
      destruct (foldM_scanGroup track (native.in_SetMedia u base))
        as (source & -> & (Ht & Hri & Hmi & Hme) & Hrtx & Hfec).
      { rewrite HD. by apply (Hread s u). }
      rewrite HD in Hrtx, Hfec.
      assert (native.ssrc (native.in_media source) = u) as Hmedia by (by rewrite Hme).
      unfold native.in_SetMedia in Ht, Hri, Hmi, Hrtx, Hfec.
      simpl in Ht, Hri, Hmi, Hrtx, Hfec. simpl.
      exists source. split; [done|]. rewrite Ht, Hri, Hmi. split_and!; try done.
      exists u. split_and!; try done.
      * apply companionWith_DWORD; [done|]. by rewrite Hr in Hrtx.
      * apply companionWith_DWORD; [done|]. by rewrite Hf in Hfec.
    + apply bool_decide_eq_true in Hparses. by destruct Hparses.
  - exists base. by split_and!.
Qed.

Lemma encodingSource_Ok track mediaType encoding :
  encodingReadable track encoding →
  ∃ r, IncomingStream.encodingSource track mediaType encoding = Ok r
    ∧ (is_Some r ↔ parses encoding = true).
Proof.
  intros Hread. unfold parses, IncomingStream.encodingSource, encodingReadable in *.
  destruct (sdp.params encoding !! "ssrc") as [s|].
  - destruct (ParseUint s) as [u|] eqn:Hu.
    + match goal with |- context [foldM _ ?b _] =>
        destruct (foldM_scanGroup track b) as (source & -> & _) end.
      { rewrite in_SetMedia_parsed by (by eapply ParseUint_fits). by apply (Hread s u). }
      simpl. eexists. split; [done|]. split; [|by eauto].
      intros _. try apply bool_decide_eq_true. by eauto.
    + eexists. split; [done|]. split; [by intros [? ?]|].
      intros H%bool_decide_eq_true. by destruct H.
  - eexists. split; [done|]. split; by eauto.
Qed.

(** An encoding is resolved without panic only when it can be read. *)
Lemma encodingSource_Ok_inv track mediaType encoding r :
  IncomingStream.encodingSource track mediaType encoding = Ok r →
  encodingReadable track encoding.
Proof.
  unfold IncomingStream.encodingSource, encodingReadable.
  intros H ssrc u Hssrc Hu. rewrite Hssrc, Hu in H.
  apply bind_Ok in H as (source & H & _).
  pose proof (foldM_scanGroup_inv _ _ _ H) as Hread.
  by rewrite in_SetMedia_parsed in Hread by (by eapply ParseUint_fits).
Qed.

End Explicit.

(** ** Entries and registrations *)

Section Registration.

Implicit Types (entries : list (string * native.RTPIncomingSourceGroup)).
Implicit Types (sources : gmap string native.RTPIncomingSourceGroup).

Lemma callAll_nil w : callAll [] w = w.
Proof. destruct w. unfold callAll. simpl. by rewrite app_nil_r. Qed.

Lemma callAll_app cs1 cs2 w : callAll cs2 (callAll cs1 w) = callAll (cs1 ++ cs2) w.
Proof. unfold callAll. simpl. by rewrite app_assoc. Qed.

Lemma registerAll transport entries st :
  foldl (λ st entry, IncomingStream.register transport entry.1 entry.2 st) st entries =
  (enter entries st.1, callAll (registrations transport entries) st.2).
Proof.
  revert st. induction entries as [|[k g] entries IH]; intros [sources w].
  - simpl. by rewrite callAll_nil.
  - simpl. rewrite IH. simpl. f_equal.
    change (call ?c w) with (callAll [c] w). by rewrite callAll_app.
Qed.

Lemma enter_snoc entries k g sources :
  enter (entries ++ [(k, g)]) sources = <[k := g]> (enter entries sources).
Proof. unfold enter. by rewrite foldl_app. Qed.

(** Entering the entries one after the other keeps, for each key, the last
    entry made under it. *)
Lemma enter_list_to_map entries sources :
  enter entries sources = list_to_map (reverse entries) ∪ sources.
Proof.
  induction entries as [|[k g] entries IH] using rev_ind.
  - simpl. by rewrite (left_id_L ∅ (∪)).
  - rewrite enter_snoc, IH, reverse_snoc. simpl. by rewrite insert_union_l.
Qed.

Lemma enter_lookup entries k g :
  NoDup entries.*1 → (enter entries ∅ !! k = Some g ↔ (k, g) ∈ entries).
Proof.
  intros Hnodup. rewrite enter_list_to_map, (right_id_L ∅ (∪)).
  rewrite <- elem_of_list_to_map.
  - by rewrite elem_of_reverse.
  - by rewrite fmap_reverse, reverse_Permutation.
Qed.

Lemma enter_size entries : NoDup entries.*1 → size (enter entries ∅) = length entries.
Proof.
  intros Hnodup. rewrite enter_list_to_map, (right_id_L ∅ (∪)).
  rewrite map_size_list_to_map, length_reverse; [done|].
  by rewrite fmap_reverse, reverse_Permutation.
Qed.

Lemma enter_dom entries k : is_Some (enter entries ∅ !! k) ↔ k ∈ entries.*1.
Proof.
  rewrite enter_list_to_map, (right_id_L ∅ (∪)).
  rewrite <- elem_of_dom, dom_list_to_map_L, elem_of_list_to_set.
  by rewrite fmap_reverse, elem_of_reverse.
Qed.

Lemma foldM_concat {A B} (f : A → B → result A) (a : A) (ls : list (list B)) :
  foldM (λ a l, foldM f a l) a ls = foldM f a (concat ls).
Proof.
  revert a. induction ls as [|l ls IH]; intros a; simpl; [done|].
  rewrite foldM_app. destruct (foldM f a l); simpl; [apply IH|done].
Qed.

End Registration.

(** ** The branches of the incoming [CreateTrack] *)

Section Resolve.

Variable GetSourceGroup : sdp.TrackInfo → string → option sdp.SourceGroupInfo.

Implicit Types (i : IncomingStream.t) (track : sdp.TrackInfo) (w : World).

Lemma resolveEncoding_Ok i track transport st encoding :
  IncomingStream.Transport i = Some transport → encodingReadable track encoding →
  IncomingStream.resolveEncoding i track (mediaTypeOf track) st encoding =
  Ok (match IncomingStream.encodingSource track (mediaTypeOf track) encoding with
      | Ok (Some source) => IncomingStream.register transport (sdp.rid encoding) source st
      | _ => st
      end).
Proof.
  intros Htransport Hread. unfold IncomingStream.resolveEncoding.
  rewrite Htransport. simpl.
  destruct (encodingSource_Ok track (mediaTypeOf track) encoding Hread) as (r & -> & _).
  by destruct r.
Qed.

Lemma foldM_resolveEncoding i track transport st encodings :
  IncomingStream.Transport i = Some transport →
  Forall (encodingReadable track) encodings →
  foldM (IncomingStream.resolveEncoding i track (mediaTypeOf track)) st encodings =
  Ok (foldl (λ st entry, IncomingStream.register transport entry.1 entry.2 st) st
        (omap (λ encoding,
                 match IncomingStream.encodingSource track (mediaTypeOf track) encoding with
                 | Ok (Some source) => Some (sdp.rid encoding, source)
                 | _ => None
                 end) encodings)).
Proof.
  intros Htransport Hread. revert st.
  induction Hread as [|encoding encodings Hencoding _ IH]; intros st; [done|].
  rewrite foldM_cons, (resolveEncoding_Ok _ _ transport) by done.
  cbn [mbind result_bind]. rewrite IH. cbn [omap list_omap].
  by destruct (IncomingStream.encodingSource track (mediaTypeOf track) encoding) as [[?|]|].
Qed.

(** With encodings the descriptor is resolved by the explicit branch, which
    returns once the groups can be read. *)
Lemma resolve_explicit i track transport w :
  IncomingStream.Transport i = Some transport → explicitReadable track →
  0 < length (sdp.encodings track) →
  IncomingStream.resolve GetSourceGroup i track (mediaTypeOf track) w =
  Ok (enter (explicitEntries track) ∅, callAll (registrations transport (explicitEntries track)) w).
Proof.
  intros Htransport Hread Hlen. unfold IncomingStream.resolve.
  rewrite decide_True by done.
  rewrite foldM_concat, (foldM_resolveEncoding _ _ transport);
    [by rewrite registerAll|done|by apply Forall_forall].
Qed.

Lemma foldM_resolveEncoding_inv i track mediaType st st' encodings :
  foldM (IncomingStream.resolveEncoding i track mediaType) st encodings = Ok st' →
  Forall (encodingReadable track) encodings.
Proof.
  revert st. induction encodings as [|encoding encodings IH]; intros st H; [constructor|].
  rewrite foldM_cons in H. apply bind_Ok in H as (st1 & Hstep & H).
  constructor; [|by eapply IH].
  unfold IncomingStream.resolveEncoding in Hstep.
  apply bind_Ok in Hstep as (transport & _ & Hstep).
  apply bind_Ok in Hstep as (r & Hsource & _).
  by eapply encodingSource_Ok_inv.
Qed.

(** On a live stream the explicit branch panics exactly when some group
    cannot be read for some parsed ssrc: an ssrc that does not parse never
    makes it panic. *)
Lemma resolve_explicit_Panic i track transport w :
  IncomingStream.Transport i = Some transport →
  0 < length (sdp.encodings track) →
  IncomingStream.resolve GetSourceGroup i track (mediaTypeOf track) w = Panic
  ↔ ¬ explicitReadable track.
Proof.
  intros Htransport Hlen. split.
  - intros Hpanic Hread. by rewrite (resolve_explicit _ _ transport) in Hpanic.
  - intros Hunreadable.
    destruct (IncomingStream.resolve _ _ _ _ _) as [st'|] eqn:Hresolve; [|done].
    destruct Hunreadable. unfold IncomingStream.resolve in Hresolve.
    rewrite decide_True, foldM_concat in Hresolve by done.
    apply foldM_resolveEncoding_inv in Hresolve.
    unfold explicitReadable. by rewrite <- Forall_forall.
Qed.

Lemma explicitEntries_parses track :
  explicitReadable track →
  Forall2 (λ encoding entry,
             entry.1 = sdp.rid encoding
             ∧ IncomingStream.encodingSource track (mediaTypeOf track) encoding
               = Ok (Some entry.2))
          (filter (λ encoding, parses encoding) (concat (sdp.encodings track)))
          (explicitEntries track).
Proof.
  intros Hread%Forall_forall. unfold explicitEntries.
  induction Hread as [|encoding encodings Hencoding _ IH]; [constructor|].
  cbn [omap list_omap].
  destruct (encodingSource_Ok track (mediaTypeOf track) encoding Hencoding) as (r & Hr & Hiff).
  rewrite Hr. destruct r as [source|].
  - rewrite filter_cons_True by (apply Is_true_true, Hiff; eauto).
    constructor; [by split|done].
  - rewrite filter_cons_False; [done|].
    intros H%Is_true_true. apply Hiff in H. by destruct H.
Qed.

Lemma explicitEntries_groups track :
  explicitReadable track → groups32 track →
  Forall2 (λ encoding entry,
             entry.1 = sdp.rid encoding ∧ encodingGroup track encoding entry.2)
          (filter (λ encoding, parses encoding) (concat (sdp.encodings track)))
          (explicitEntries track).
Proof.
  intros Hread%Forall_forall H32. unfold explicitEntries.
  induction Hread as [|encoding encodings Hencoding _ IH]; [constructor|].
  cbn [omap list_omap]. destruct (parses encoding) eqn:Hparses.
  - destruct (encodingSource_parses track encoding Hencoding H32 Hparses) as (g & -> & Hspec).
    rewrite filter_cons_True by (by apply Is_true_true).
    constructor; [by split|done].
  - rewrite encodingSource_skipped by done.
    rewrite filter_cons_False; [done|]. rewrite Hparses. by intros [].
Qed.

(** On a fresh id [CreateTrack] stores the track built from what the
    resolution returns, and panics when the resolution does. *)
Lemma CreateTrack_fresh i track w sources w1 :
  IncomingStream.Tracks i !! sdp.id track = None →
  IncomingStream.resolve GetSourceGroup i track (mediaTypeOf track) w = Ok (sources, w1) →
  IncomingStream.CreateTrack GetSourceGroup i track w =
  Ok (Some (length (incomingTracks w1)),
      IncomingStream.setTracks
        (<[sdp.id track := length (incomingTracks w1)]> (IncomingStream.Tracks i)) i,
      setIncomingTracks
        (incomingTracks w1 ++
           [IncomingStreamTrack.New (sdp.media track) (sdp.id track)
              (IncomingStream.Receiver i) sources]) w1).
Proof. intros Hfresh Hresolve. unfold IncomingStream.CreateTrack. by rewrite Hfresh, Hresolve. Qed.

Lemma CreateTrack_fresh_Panic i track w :
  IncomingStream.Tracks i !! sdp.id track = None →
  (IncomingStream.CreateTrack GetSourceGroup i track w = Panic
   ↔ IncomingStream.resolve GetSourceGroup i track (mediaTypeOf track) w = Panic).
Proof.
  intros Hfresh. unfold IncomingStream.CreateTrack. rewrite Hfresh.
  destruct (IncomingStream.resolve _ _ _ _ _) as [[sources w1]|]; simpl; split; done.
Qed.

End Resolve.

(** ** The explicit branch: statements *)

Lemma entries_keys (P : sdp.TrackEncodingInfo → native.RTPIncomingSourceGroup → Prop)
    (encodings : list sdp.TrackEncodingInfo)
    (entries : list (string * native.RTPIncomingSourceGroup)) :
  Forall2 (λ encoding entry, entry.1 = sdp.rid encoding ∧ P encoding entry.2) encodings entries →
  entries.*1 = sdp.rid <$> encodings.
Proof.
  induction 1 as [|encoding entry encodings entries [Hrid _] _ IH]; [done|].
  rewrite !fmap_cons. by rewrite Hrid, IH.
Qed.

(** C7, as stated, fails: [CreateTrack] can abort on a descriptor with an
    encoding whose ssrc does not parse. On a live stream that does not hold
    the id, the encoding with rid ["lo"] is skipped, and the scan for the
    ssrc of the encoding with rid ["hi"] reads the second member of an FID
    group that has one: the call panics. *)
Lemma CreateTrack_skips_unparseable_ssrc_counterexample :
  IncomingStream.Tracks liveIncoming !! sdp.id videoBadEncodingShortFID = None
  ∧ IncomingStream.Transport liveIncoming = Some 7%N
  ∧ concat (sdp.encodings videoBadEncodingShortFID)
    = [ {| sdp.rid := "lo"; sdp.params := {[ "ssrc" := "abc" ]} |};
        {| sdp.rid := "hi"; sdp.params := {[ "ssrc" := "1111" ]} |} ]
  ∧ ParseUint "abc" = None
  ∧ IncomingStream.CreateTrack lib.GetSourceGroup liveIncoming videoBadEncodingShortFID
      emptyWorld = Panic.
Proof. split_and!; by vm_compute. Qed.

(** C7, amended: in the explicit branch an encoding whose ssrc parameter
    does not parse as a 32-bit unsigned number is skipped. On a live stream,
    for a descriptor with encodings whose id is not yet in the stream and
    whose groups can be read, [CreateTrack] returns the new track;
    the groups registered with the transport and the entries of the track's
    mapping are, in order, those of the encodings whose ssrc parameter is
    absent or parses, one for each of them and none for the others. *)
Theorem CreateTrack_skips_unparseable_ssrc
    (GetSourceGroup : sdp.TrackInfo → string → option sdp.SourceGroupInfo)
    (i : IncomingStream.t) (track : sdp.TrackInfo)
    (transport : native.DTLSICETransport) (w : World) :
  IncomingStream.Tracks i !! sdp.id track = None →
  IncomingStream.Transport i = Some transport →
  0 < length (sdp.encodings track) →
  explicitReadable track →
  ∃ p obj w',
    IncomingStream.CreateTrack GetSourceGroup i track w =
      Ok (Some p,
          IncomingStream.setTracks (<[sdp.id track := p]> (IncomingStream.Tracks i)) i, w')
    ∧ incomingTracks w' !! p = Some obj
    ∧ IncomingStreamTrack.sources obj = enter (explicitEntries track) ∅
    ∧ calls w' = calls w ++ registrations transport (explicitEntries track)
    ∧ Forall2 (λ encoding entry,
                 entry.1 = sdp.rid encoding
                 ∧ IncomingStream.encodingSource track (mediaTypeOf track) encoding
                   = Ok (Some entry.2))
              (filter (λ encoding, parses encoding) (concat (sdp.encodings track)))
              (explicitEntries track)
    ∧ (∀ key, is_Some (IncomingStreamTrack.sources obj !! key) ↔
         ∃ encoding, encoding ∈ concat (sdp.encodings track)
           ∧ parses encoding = true ∧ sdp.rid encoding = key).
Proof.
  intros Hfresh Htransport Hlen Hread.
  pose proof (resolve_explicit GetSourceGroup i track transport w Htransport Hread Hlen)
    as Hresolve.
  pose proof (explicitEntries_parses track Hread) as Hentries.
  eexists _, _, _. split; [by apply CreateTrack_fresh|].
  split; [by apply list_lookup_middle|].
  split; [done|]. split; [done|]. split; [done|].
  intros key. cbn [IncomingStreamTrack.sources IncomingStreamTrack.New].
  rewrite enter_dom,
    (entries_keys (λ encoding source,
                     IncomingStream.encodingSource track (mediaTypeOf track) encoding
                     = Ok (Some source)) _ _ Hentries).
  rewrite list_elem_of_fmap. split.
  - intros (encoding & -> & [Hp Hin]%list_elem_of_filter).
    exists encoding. split_and!; [done|by apply Is_true_true|done].
  - intros (encoding & Hin & Hp & <-). exists encoding. split; [done|].
    apply list_elem_of_filter. split; [by apply Is_true_true|done].
Qed.

Lemma CreateTrack_skips_unparseable_ssrc_witness :
  (IncomingStream.Tracks liveIncoming !! sdp.id videoBadEncoding = None
   ∧ IncomingStream.Transport liveIncoming = Some 7%N
   ∧ 0 < length (sdp.encodings videoBadEncoding)
   ∧ explicitReadable videoBadEncoding)
  ∧ ∃ p obj w',
    IncomingStream.CreateTrack lib.GetSourceGroup liveIncoming videoBadEncoding emptyWorld =
      Ok (Some p,
          IncomingStream.setTracks
            (<[sdp.id videoBadEncoding := p]> (IncomingStream.Tracks liveIncoming))
            liveIncoming, w')
    ∧ incomingTracks w' !! p = Some obj
    ∧ IncomingStreamTrack.sources obj = enter (explicitEntries videoBadEncoding) ∅
    ∧ calls w' = calls emptyWorld ++ registrations 7%N (explicitEntries videoBadEncoding)
    ∧ Forall2 (λ encoding entry,
                 entry.1 = sdp.rid encoding
                 ∧ IncomingStream.encodingSource videoBadEncoding
                     (mediaTypeOf videoBadEncoding) encoding
                   = Ok (Some entry.2))
              (filter (λ encoding, parses encoding) (concat (sdp.encodings videoBadEncoding)))
              (explicitEntries videoBadEncoding)
    ∧ (∀ key, is_Some (IncomingStreamTrack.sources obj !! key) ↔
         ∃ encoding, encoding ∈ concat (sdp.encodings videoBadEncoding)
           ∧ parses encoding = true ∧ sdp.rid encoding = key).
Proof.
  assert (explicitReadable videoBadEncoding) as Hread.
  { intros encoding Hin ssrc ssrcUint Hssrc Hparsed group Hgroup _.
    simpl in Hin, Hgroup. members; vm_compute in Hssrc; injection Hssrc as <-;
      vm_compute in Hparsed; [done|].
    injection Hparsed as <-. split; simpl; lia. }
  split; [split_and!; [reflexivity|reflexivity|simpl; lia|exact Hread]|].
  apply (CreateTrack_skips_unparseable_ssrc lib.GetSourceGroup liveIncoming videoBadEncoding 7%N
           emptyWorld); [reflexivity|reflexivity|simpl; lia|exact Hread].
Defined.

(** The scenario of one encoding with ssrc 1111 and the group
    FID=[1111,2222]: the group registered, and entered under the rid, has
    media ssrc 1111, rtx ssrc 2222 and fec ssrc 0. *)
Example CreateTrack_FID_scenario :
  ∃ i' w' source,
    IncomingStream.CreateTrack lib.GetSourceGroup liveIncoming videoOneEncoding emptyWorld
      = Ok (Some 0, i', w')
    ∧ IncomingStreamTrack.sources <$> incomingTracks w' !! 0 = Some {[ "hi" := source ]}
    ∧ calls w' = [AddIncomingSourceGroup 7%N source]
    ∧ native.ssrc (native.in_media source) = 1111%N
    ∧ native.ssrc (native.in_rtx source) = 2222%N
    ∧ native.ssrc (native.in_fec source) = 0%N.
Proof. eexists _, _, _. split; [by vm_compute|]. by vm_compute. Qed.

(** C4, as stated, fails: a descriptor with two encodings, of which the one
    with rid ["lo"] declares an ssrc that is not a number, resolves to one
    source group, and nothing is entered under ["lo"]. *)
Lemma CreateTrack_explicit_encodings_counterexample :
  length (concat (sdp.encodings videoBadEncoding)) = 2
  ∧ ∃ i' w' obj,
      IncomingStream.CreateTrack lib.GetSourceGroup liveIncoming videoBadEncoding emptyWorld
        = Ok (Some 0, i', w')
      ∧ incomingTracks w' !! 0 = Some obj
      ∧ size (IncomingStreamTrack.sources obj) = 1
      ∧ IncomingStreamTrack.sources obj !! "lo" = None
      ∧ length (calls w') = 1.
Proof.
  split; [done|]. eexists _, _, _. split; [by vm_compute|].
  split; [done|]. by vm_compute.
Qed.

(** C4, amended: on a live stream, for a descriptor with encodings whose id
    is not yet in the stream, whose groups can be read and have their
    members in 32 bits, and whose encodings that are not skipped have
    distinct rids,
    [CreateTrack] returns the new track, and the track's mapping has exactly
    one source group for each encoding whose ssrc parameter is absent or
    parses (one for each encoding when all are so), each entered under its
    encoding's rid and registered with the transport; where the ssrc
    parameter parses, the group's media ssrc is that value, its rtx ssrc is
    the second member of a group with semantics FID whose first member is
    that ssrc, 0 when there is none, and its fec ssrc likewise for FEC-FR. *)
Theorem CreateTrack_explicit_encodings
    (GetSourceGroup : sdp.TrackInfo → string → option sdp.SourceGroupInfo)
    (i : IncomingStream.t) (track : sdp.TrackInfo)
    (transport : native.DTLSICETransport) (w : World) :
  IncomingStream.Tracks i !! sdp.id track = None →
  IncomingStream.Transport i = Some transport →
  0 < length (sdp.encodings track) →
  explicitReadable track →
  groups32 track →
  NoDup (sdp.rid <$> filter (λ encoding, parses encoding) (concat (sdp.encodings track))) →
  ∃ p obj w' registered,
    IncomingStream.CreateTrack GetSourceGroup i track w =
      Ok (Some p,
          IncomingStream.setTracks (<[sdp.id track := p]> (IncomingStream.Tracks i)) i, w')
    ∧ incomingTracks w' !! p = Some obj
    ∧ size (IncomingStreamTrack.sources obj)
      = length (filter (λ encoding, parses encoding) (concat (sdp.encodings track)))
    ∧ ((∀ encoding, encoding ∈ concat (sdp.encodings track) → parses encoding = true) →
       size (IncomingStreamTrack.sources obj) = length (concat (sdp.encodings track)))
    ∧ calls w' = calls w ++ (AddIncomingSourceGroup transport <$> registered)
    ∧ length registered
      = length (filter (λ encoding, parses encoding) (concat (sdp.encodings track)))
    ∧ (∀ encoding, encoding ∈ concat (sdp.encodings track) → parses encoding = true →
         ∃ source,
           IncomingStreamTrack.sources obj !! sdp.rid encoding = Some source
           ∧ source ∈ registered
           ∧ encodingGroup track encoding source).
Proof.
  intros Hfresh Htransport Hlen Hread H32 Hnodup.
  pose proof (resolve_explicit GetSourceGroup i track transport w Htransport Hread Hlen)
    as Hresolve.
  pose proof (explicitEntries_groups track Hread H32) as Hentries.
  pose proof (entries_keys _ _ _ Hentries) as Hkeys.
  assert (NoDup (explicitEntries track).*1) as Hnodup' by (by rewrite Hkeys).
  assert (size (enter (explicitEntries track) ∅)
          = length (filter (λ encoding, parses encoding) (concat (sdp.encodings track))))
    as Hsize.
  { rewrite enter_size by done. symmetry. by eapply Forall2_length. }
  exists (length (incomingTracks w)), 
    (IncomingStreamTrack.New (sdp.media track) (sdp.id track) (IncomingStream.Receiver i)
       (enter (explicitEntries track) ∅)),
    (setIncomingTracks
       (incomingTracks w ++
          [IncomingStreamTrack.New (sdp.media track) (sdp.id track) (IncomingStream.Receiver i)
             (enter (explicitEntries track) ∅)])
       (callAll (registrations transport (explicitEntries track)) w)),
    (explicitEntries track).*2.
  split; [by rewrite (CreateTrack_fresh _ _ _ _ _ _ Hfresh Hresolve)|].
  split; [by apply list_lookup_middle|].
  cbn [IncomingStreamTrack.sources IncomingStreamTrack.New].
  split; [done|]. split.
  { intros Hall. rewrite Hsize. f_equal. apply filter_all.
    apply Forall_forall. intros encoding Hin. apply Is_true_true. by apply Hall. }
  split; [done|]. split.
  { rewrite length_fmap. symmetry. by eapply Forall2_length. }
  intros encoding Hin Hparses.
  assert (encoding ∈ filter (λ encoding, parses encoding) (concat (sdp.encodings track)))
    as [n Hn]%list_elem_of_lookup.
  { apply list_elem_of_filter. split; [by apply Is_true_true|done]. }
  destruct (Forall2_lookup_l _ _ _ _ _ Hentries Hn) as ([key source] & Hentry & Hrid & Hgroup).
  simpl in Hrid, Hgroup. subst key.
  apply list_elem_of_lookup_2 in Hentry.
  exists source. split_and!; [by apply enter_lookup| |done].
  by apply (list_elem_of_fmap_2 snd _ (sdp.rid encoding, source)).
Qed.

Lemma explicitReadable_videoOneEncoding : explicitReadable videoOneEncoding.
Proof.
  intros encoding Hin ssrc ssrcUint Hssrc Hparsed group Hgroup _.
  simpl in Hin, Hgroup. members. vm_compute in Hssrc. injection Hssrc as <-.
  vm_compute in Hparsed. injection Hparsed as <-. split; simpl; lia.
Qed.

Lemma groups32_videoOneEncoding : groups32 videoOneEncoding.
Proof.
  intros group Hin. simpl in Hin. members. by repeat constructor.
Qed.

Lemma CreateTrack_explicit_encodings_witness :
  (IncomingStream.Tracks liveIncoming !! sdp.id videoOneEncoding = None
   ∧ IncomingStream.Transport liveIncoming = Some 7%N
   ∧ 0 < length (sdp.encodings videoOneEncoding)
   ∧ explicitReadable videoOneEncoding
   ∧ groups32 videoOneEncoding
   ∧ NoDup (sdp.rid <$> filter (λ encoding, parses encoding)
                          (concat (sdp.encodings videoOneEncoding))))
  ∧ ∃ p obj w' registered,
    IncomingStream.CreateTrack lib.GetSourceGroup liveIncoming videoOneEncoding emptyWorld =
      Ok (Some p,
          IncomingStream.setTracks
            (<[sdp.id videoOneEncoding := p]> (IncomingStream.Tracks liveIncoming))
            liveIncoming, w')
    ∧ incomingTracks w' !! p = Some obj
    ∧ size (IncomingStreamTrack.sources obj)
      = length (filter (λ encoding, parses encoding) (concat (sdp.encodings videoOneEncoding)))
    ∧ ((∀ encoding, encoding ∈ concat (sdp.encodings videoOneEncoding) →
          parses encoding = true) →
       size (IncomingStreamTrack.sources obj)
       = length (concat (sdp.encodings videoOneEncoding)))
    ∧ calls w' = calls emptyWorld ++ (AddIncomingSourceGroup 7%N <$> registered)
    ∧ length registered
      = length (filter (λ encoding, parses encoding) (concat (sdp.encodings videoOneEncoding)))
    ∧ (∀ encoding, encoding ∈ concat (sdp.encodings videoOneEncoding) →
         parses encoding = true →
         ∃ source,
           IncomingStreamTrack.sources obj !! sdp.rid encoding = Some source
           ∧ source ∈ registered
           ∧ encodingGroup videoOneEncoding encoding source).
Proof.
  assert (NoDup (sdp.rid <$> filter (λ encoding, parses encoding)
                               (concat (sdp.encodings videoOneEncoding)))) as Hnodup.
  { apply (bool_decide_unpack _). by vm_compute. }
  split.
  - split_and!; [reflexivity|reflexivity|simpl; lia|
                 exact explicitReadable_videoOneEncoding|exact groups32_videoOneEncoding|
                 exact Hnodup].
  - apply (CreateTrack_explicit_encodings lib.GetSourceGroup liveIncoming videoOneEncoding 7%N
             emptyWorld);
      [reflexivity|reflexivity|simpl; lia|
       exact explicitReadable_videoOneEncoding|exact groups32_videoOneEncoding|exact Hnodup].
Defined.

(** ** The simulcast branch *)

Section Simulcast.

Variable GetSourceGroup : sdp.TrackInfo → string → option sdp.SourceGroupInfo.

Implicit Types (i : IncomingStream.t) (track : sdp.TrackInfo) (w : World).

Example Itoa_decimal : Itoa 0 = "0" ∧ Itoa 7 = "7" ∧ Itoa 12 = "12".
Proof. by vm_compute. Qed.

Lemma simulcastSource_Ok track ssrc :
  Forall (scanReadable ssrc) (sdp.groups track) →
  ∃ source, IncomingStream.simulcastSource track (mediaTypeOf track) ssrc = Ok source
    ∧ native.in_type source = mediaTypeOf track
    ∧ native.ssrc (native.in_media source) = DWORD ssrc
    ∧ companionWith DWORD "FID" ssrc (sdp.groups track) 0%N
        (native.ssrc (native.in_rtx source))
    ∧ companionWith DWORD "FEC-FR" ssrc (sdp.groups track) 0%N
        (native.ssrc (native.in_fec source)).
Proof.
  intros Hread. unfold IncomingStream.simulcastSource.
  match goal with |- context [foldM _ ?b _] =>
    destruct (foldM_scanGroupSIM ssrc (sdp.groups track) b Hread)
      as (source & -> & (Ht & _ & _ & Hme) & Hrtx & Hfec) end.
  exists source. split; [done|]. rewrite Ht, Hme. by split_and!.
Qed.

Lemma simulcastSource_Ok_inv track mediaType ssrc source :
  IncomingStream.simulcastSource track mediaType ssrc = Ok source →
  Forall (scanReadable ssrc) (sdp.groups track).
Proof. apply foldM_scanGroupSIM_inv. Qed.


Lemma resolveSimulcast_Ok i track transport st member :
  IncomingStream.Transport i = Some transport →
  Forall (scanReadable member.2) (sdp.groups track) →
  IncomingStream.resolveSimulcast i track (mediaTypeOf track) st member =
  Ok (match IncomingStream.simulcastSource track (mediaTypeOf track) member.2 with
      | Ok source => IncomingStream.register transport (Itoa member.1) source st
      | Panic => st
      end).
Proof.
  intros Htransport Hread. unfold IncomingStream.resolveSimulcast.
  rewrite Htransport. simpl.
  by destruct (simulcastSource_Ok track member.2 Hread) as (source & -> & _).
Qed.

Lemma foldM_resolveSimulcast i track transport st members :
  IncomingStream.Transport i = Some transport →
  Forall (λ member : nat * N, Forall (scanReadable member.2) (sdp.groups track)) members →
  foldM (IncomingStream.resolveSimulcast i track (mediaTypeOf track)) st members =
  Ok (foldl (λ st entry, IncomingStream.register transport entry.1 entry.2 st) st
        (omap (λ member : nat * N,
                 match IncomingStream.simulcastSource track (mediaTypeOf track) member.2 with
                 | Ok source => Some (Itoa member.1, source)
                 | Panic => None
                 end) members)).
Proof.
  intros Htransport Hread. revert st.
  induction Hread as [|member members Hmember _ IH]; intros st; [done|].
  rewrite foldM_cons, (resolveSimulcast_Ok _ _ transport) by done.
  cbn [mbind result_bind]. rewrite IH. cbn [omap list_omap].
  by destruct (simulcastSource_Ok track member.2 Hmember) as (source & -> & _).
Qed.

Lemma foldM_resolveSimulcast_inv i track mediaType st st' members :
  foldM (IncomingStream.resolveSimulcast i track mediaType) st members = Ok st' →
  Forall (λ member : nat * N, Forall (scanReadable member.2) (sdp.groups track)) members.
Proof.
  revert st. induction members as [|member members IH]; intros st H; [constructor|].
  rewrite foldM_cons in H. apply bind_Ok in H as (st1 & Hstep & H).
  constructor; [|by eapply IH].
  unfold IncomingStream.resolveSimulcast in Hstep.
  apply bind_Ok in Hstep as (transport & _ & Hstep).
  apply bind_Ok in Hstep as (source & Hsource & _).
  by eapply simulcastSource_Ok_inv.
Qed.

Lemma enumerate_lookup {A} (l : list A) (j : nat) (x : A) :
  l !! j = Some x ↔ IncomingStream.enumerate l !! j = Some (j, x).
Proof.
  unfold IncomingStream.enumerate. rewrite lookup_zip_Some, lookup_seq. split.
  - intros H. split_and!; [done| by eapply lookup_lt_Some |done].
  - by intros [_ ?].
Qed.

Lemma enumerate_members {A} (l : list A) (P : A → Prop) :
  (∀ x, x ∈ l → P x) ↔ Forall (λ member : nat * A, P member.2) (IncomingStream.enumerate l).
Proof.
  rewrite Forall_forall. split.
  - intros H [j x] [n Hn]%list_elem_of_lookup. apply H.
    unfold IncomingStream.enumerate in Hn. apply lookup_zip_Some in Hn as [_ Hn].
    by eapply list_elem_of_lookup_2.
  - intros H x [j Hj]%list_elem_of_lookup. apply enumerate_lookup in Hj.
    apply list_elem_of_lookup_2 in Hj. by apply (H (j, x)) in Hj.
Qed.

(** Without encodings and with a SIM group the descriptor is resolved by
    the simulcast branch, which returns exactly when the groups can be read. *)
Lemma resolve_simulcast i track transport SIM w :
  IncomingStream.Transport i = Some transport →
  sdp.encodings track = [] → GetSourceGroup track "SIM" = Some SIM →
  simulcastReadable track SIM →
  IncomingStream.resolve GetSourceGroup i track (mediaTypeOf track) w =
  Ok (enter (simulcastEntries track SIM) ∅,
      callAll (registrations transport (simulcastEntries track SIM)) w).
Proof.
  intros Htransport Hencodings HSIM Hread. unfold IncomingStream.resolve.
  rewrite Hencodings, HSIM. simpl.
  rewrite (foldM_resolveSimulcast _ _ transport); [by rewrite registerAll|done|].
  by apply (enumerate_members _ (λ ssrc, Forall (scanReadable ssrc) (sdp.groups track))).
Qed.

Lemma resolve_simulcast_inv i track SIM w st :
  sdp.encodings track = [] → GetSourceGroup track "SIM" = Some SIM →
  IncomingStream.resolve GetSourceGroup i track (mediaTypeOf track) w = Ok st →
  simulcastReadable track SIM.
Proof.
  intros Hencodings HSIM. unfold IncomingStream.resolve.
  rewrite Hencodings, HSIM. simpl. intros H%foldM_resolveSimulcast_inv.
  unfold simulcastReadable.
  by apply (enumerate_members (sdp.GetSSRCs SIM)
              (λ ssrc, Forall (scanReadable ssrc) (sdp.groups track))).
Qed.

End Simulcast.

(** ** The simulcast branch: statements *)









(** The simulcast sample, run: two source groups under ["0"] and ["1"]; the
    first has media ssrc 1111 and rtx ssrc 2222, the second media ssrc 3333
    and fec ssrc 4444. *)
Example CreateTrack_simulcast_scenario :
  ∃ i' w' s0 s1,
    IncomingStream.CreateTrack lib.GetSourceGroup liveIncoming videoSimulcast emptyWorld
      = Ok (Some 0, i', w')
    ∧ IncomingStreamTrack.sources <$> incomingTracks w' !! 0
      = Some {[ "0" := s0; "1" := s1 ]}
    ∧ calls w' = [AddIncomingSourceGroup 7%N s0; AddIncomingSourceGroup 7%N s1]
    ∧ (native.ssrc (native.in_media s0), native.ssrc (native.in_rtx s0),
       native.ssrc (native.in_fec s0)) = (1111, 2222, 0)%N
    ∧ (native.ssrc (native.in_media s1), native.ssrc (native.in_rtx s1),
       native.ssrc (native.in_fec s1)) = (3333, 0, 4444)%N.
Proof. eexists _, _, _, _. split; [by vm_compute|]. by vm_compute. Qed.

(** ** The single-flow code *)

Section SingleFlow.

Variable GetSourceGroup : sdp.TrackInfo → string → option sdp.SourceGroupInfo.

Implicit Types (i : IncomingStream.t) (o : OutgoingStream.t) (track : sdp.TrackInfo).

Lemma secondOfWith_DWORD group v :
  (∀ g, group = Some g → fits32 (sdp.GetSSRCs g)) →
  secondOfWith DWORD group v → secondOf group v.
Proof.
  unfold secondOf. destruct group as [g|]; simpl; [|done].
  intros H32 (second & Hsecond & ->). exists second. split; [done|].
  apply DWORD_fits. pose proof (H32 g eq_refl) as Hfits. unfold fits32 in Hfits.
  rewrite Forall_forall in Hfits. apply Hfits. by eapply list_elem_of_lookup_2.
Qed.

(** The incoming single-flow branch returns once the descriptor can be
    read and the stream is live. *)
Lemma resolveSingle_Ok i track transport mediaType st :
  IncomingStream.Transport i = Some transport →
  singleFlowReadable GetSourceGroup track →
  ∃ source first,
    IncomingStream.resolveSingle GetSourceGroup i track mediaType st
      = Ok (IncomingStream.register transport "" source st)
    ∧ native.in_type source = mediaType
    ∧ sdp.ssrcsOf track !! 0 = Some first
    ∧ native.ssrc (native.in_media source) = DWORD first
    ∧ secondOfWith DWORD (GetSourceGroup track "FID") (native.ssrc (native.in_rtx source))
    ∧ secondOfWith DWORD (GetSourceGroup track "FEC-FR") (native.ssrc (native.in_fec source)).
Proof.
  intros Htransport (Hfirst & Hfid & Hfec). unfold IncomingStream.resolveSingle.
  rewrite Htransport.
  destruct (index_lt (sdp.ssrcsOf track) 0 Hfirst) as (first & -> & Hlookup).
  destruct (GetSourceGroup track "FID") as [fid|];
    [destruct (index_lt (sdp.GetSSRCs fid) 1 (Hfid fid eq_refl)) as (rtx & -> & Hrtx)|];
    (destruct (GetSourceGroup track "FEC-FR") as [fec_fr|];
      [destruct (index_lt (sdp.GetSSRCs fec_fr) 1 (Hfec fec_fr eq_refl)) as (fec & -> & Hfec')|]);
    simpl; eexists _, first; (split; [reflexivity|]); simpl; split_and!; eauto.
Qed.

Lemma resolveSingle_Ok_inv i track mediaType st st' :
  IncomingStream.resolveSingle GetSourceGroup i track mediaType st = Ok st' →
  singleFlowReadable GetSourceGroup track.
Proof.
  unfold IncomingStream.resolveSingle, singleFlowReadable. intros H.
  apply bind_Ok in H as (transport & _ & H).
  apply bind_Ok in H as (first & Hfirst%index_Ok%lookup_lt_Some & H).
  apply bind_Ok in H as (s1 & Hfid & H).
  apply bind_Ok in H as (s2 & Hfec & _).
  split; [done|]. split.
  - intros fid Heq. rewrite Heq in Hfid.
    apply bind_Ok in Hfid as (second & Hsecond%index_Ok%lookup_lt_Some & _). done.
  - intros fec_fr Heq. rewrite Heq in Hfec.
    apply bind_Ok in Hfec as (second & Hsecond%index_Ok%lookup_lt_Some & _). done.
Qed.

(** The outgoing resolution returns exactly when the descriptor can be
    read. *)
Lemma outgoing_resolve_Ok track mediaType :
  singleFlowReadable GetSourceGroup track →
  ∃ source first,
    OutgoingStream.resolve GetSourceGroup track mediaType = Ok source
    ∧ native.out_type source = mediaType
    ∧ sdp.ssrcsOf track !! 0 = Some first
    ∧ native.ssrc (native.out_media source) = DWORD first
    ∧ secondOfWith DWORD (GetSourceGroup track "FID") (native.ssrc (native.out_rtx source))
    ∧ secondOfWith DWORD (GetSourceGroup track "FEC-FR") (native.ssrc (native.out_fec source)).
Proof.
  intros (Hfirst & Hfid & Hfec). unfold OutgoingStream.resolve.
  destruct (index_lt (sdp.ssrcsOf track) 0 Hfirst) as (first & -> & Hlookup).
  destruct (GetSourceGroup track "FID") as [fid|];
    [destruct (index_lt (sdp.GetSSRCs fid) 1 (Hfid fid eq_refl)) as (rtx & -> & Hrtx)|];
    (destruct (GetSourceGroup track "FEC-FR") as [fec_fr|];
      [destruct (index_lt (sdp.GetSSRCs fec_fr) 1 (Hfec fec_fr eq_refl)) as (fec & -> & Hfec')|]);
    simpl; eexists _, first; (split; [reflexivity|]); simpl; split_and!; eauto.
Qed.

Lemma outgoing_resolve_Ok_inv track mediaType source :
  OutgoingStream.resolve GetSourceGroup track mediaType = Ok source →
  singleFlowReadable GetSourceGroup track.
Proof.
  unfold OutgoingStream.resolve, singleFlowReadable. intros H.
  apply bind_Ok in H as (first & Hfirst%index_Ok%lookup_lt_Some & H).
  apply bind_Ok in H as (s1 & Hfid & Hfec).
  split; [done|]. split.
  - intros fid Heq. rewrite Heq in Hfid.
    apply bind_Ok in Hfid as (second & Hsecond%index_Ok%lookup_lt_Some & _). done.
  - intros fec_fr Heq. rewrite Heq in Hfec.
    apply bind_Ok in Hfec as (second & Hsecond%index_Ok%lookup_lt_Some & _). done.
Qed.

(** Without encodings and without a SIM group the incoming descriptor is
    resolved by the single-flow branch. *)
Lemma resolve_single i track mediaType w :
  sdp.encodings track = [] → GetSourceGroup track "SIM" = None →
  IncomingStream.resolve GetSourceGroup i track mediaType w =
  IncomingStream.resolveSingle GetSourceGroup i track mediaType (∅, w).
Proof.
  intros Hencodings HSIM. unfold IncomingStream.resolve. by rewrite Hencodings, HSIM.
Qed.

End SingleFlow.

(** ** The single-flow code: statements *)

Lemma foldl_call {A} (f : A → Call) (l : list A) (w : World) :
  foldl (λ w a, call (f a) w) w l = callAll (f <$> l) w.
Proof.
  revert w. induction l as [|a l IH]; intros w.
  - simpl. by rewrite callAll_nil.
  - simpl. rewrite IH. change (call ?c w) with (callAll [c] w). by rewrite callAll_app.
Qed.

(** On a fresh id and a live stream the outgoing [CreateTrack] registers
    the group it resolved, stores the new track and calls the listeners. *)
Lemma outgoing_CreateTrack_fresh
    (GetSourceGroup : sdp.TrackInfo → string → option sdp.SourceGroupInfo)
    (o : OutgoingStream.t) (track : sdp.TrackInfo) (transport : native.DTLSICETransport)
    (source : native.RTPOutgoingSourceGroup) (w : World) :
  OutgoingStream.tracks o !! sdp.id track = None →
  OutgoingStream.transport o = Some transport →
  OutgoingStream.resolve GetSourceGroup track (mediaTypeOf track) = Ok source →
  OutgoingStream.CreateTrack GetSourceGroup o track w =
  Ok (Some (length (outgoingTracks w)),
      OutgoingStream.setTracks
        (<[sdp.id track := length (outgoingTracks w)]> (OutgoingStream.tracks o)) o,
      callAll ((λ listener, OnTrack listener (length (outgoingTracks w)))
                 <$> OutgoingStream.onAddTrackListeners o)
        (setOutgoingTracks
           (outgoingTracks w ++
              [OutgoingStreamTrack.new (sdp.media track) (sdp.id track) transport source])
           (call (AddOutgoingSourceGroup transport source) w))).
Proof.
  intros Hfresh Htransport Hresolve. unfold OutgoingStream.CreateTrack.
  rewrite Hresolve. simpl. rewrite Hfresh, Htransport. simpl.
  by rewrite <- foldl_call.
Qed.

(** C5: the single-flow resolution. On live streams, for a descriptor
    whose id is in neither stream, that has a first ssrc, second members in
    its FID and FEC-FR groups if it has these groups, and ssrcs in 32 bits:
    the incoming [CreateTrack], when the descriptor has neither encodings
    nor a SIM group, returns a track whose mapping is one source group under
    the empty key, registered with the transport; the outgoing [CreateTrack]
    returns a track with one source group, registered with the transport.
    In both the media ssrc is the first ssrc of the descriptor, the rtx ssrc
    the second member of the FID group, 0 without that group, and the fec
    ssrc the second member of the FEC-FR group, 0 without that group. *)
Theorem CreateTrack_single_flow
    (GetSourceGroup : sdp.TrackInfo → string → option sdp.SourceGroupInfo)
    (i : IncomingStream.t) (o : OutgoingStream.t) (track : sdp.TrackInfo)
    (transportIn transportOut : native.DTLSICETransport) (w : World) :
  IncomingStream.Tracks i !! sdp.id track = None →
  IncomingStream.Transport i = Some transportIn →
  sdp.encodings track = [] →
  GetSourceGroup track "SIM" = None →
  OutgoingStream.tracks o !! sdp.id track = None →
  OutgoingStream.transport o = Some transportOut →
  singleFlowReadable GetSourceGroup track →
  singleFlow32 GetSourceGroup track →
  (∃ p obj w' source,
     IncomingStream.CreateTrack GetSourceGroup i track w =
       Ok (Some p,
           IncomingStream.setTracks (<[sdp.id track := p]> (IncomingStream.Tracks i)) i, w')
     ∧ incomingTracks w' !! p = Some obj
     ∧ IncomingStreamTrack.sources obj = {[ "" := source ]}
     ∧ calls w' = calls w ++ [AddIncomingSourceGroup transportIn source]
     ∧ sdp.ssrcsOf track !! 0 = Some (native.ssrc (native.in_media source))
     ∧ secondOf (GetSourceGroup track "FID") (native.ssrc (native.in_rtx source))
     ∧ secondOf (GetSourceGroup track "FEC-FR") (native.ssrc (native.in_fec source)))
  ∧ (∃ p obj w' source,
       OutgoingStream.CreateTrack GetSourceGroup o track w =
         Ok (Some p,
             OutgoingStream.setTracks (<[sdp.id track := p]> (OutgoingStream.tracks o)) o, w')
       ∧ outgoingTracks w' !! p = Some obj
       ∧ OutgoingStreamTrack.source obj = source
       ∧ calls w' = calls w ++ [AddOutgoingSourceGroup transportOut source]
                      ++ ((λ listener, OnTrack listener p)
                            <$> OutgoingStream.onAddTrackListeners o)
       ∧ sdp.ssrcsOf track !! 0 = Some (native.ssrc (native.out_media source))
       ∧ secondOf (GetSourceGroup track "FID") (native.ssrc (native.out_rtx source))
       ∧ secondOf (GetSourceGroup track "FEC-FR") (native.ssrc (native.out_fec source))).
Proof.
  intros HfreshIn HliveIn Hencodings HSIM HfreshOut HliveOut Hread (H32 & H32fid & H32fec).
  assert (∀ first, sdp.ssrcsOf track !! 0 = Some first → DWORD first = first) as Hfirst32.
  { intros first Hfirst. apply DWORD_fits. unfold fits32 in H32.
    rewrite Forall_forall in H32. apply H32. by eapply list_elem_of_lookup_2. }
  split.
  - destruct (resolveSingle_Ok GetSourceGroup i track transportIn (mediaTypeOf track) (∅, w)
                HliveIn Hread) as (source & first & Hresolve & _ & Hfirst & Hmedia & Hrtx & Hfec).
    rewrite <- (resolve_single GetSourceGroup) in Hresolve by done.
    eexists _, _, _, source. split; [by apply CreateTrack_fresh|].
    split; [by apply list_lookup_middle|].
    cbn [IncomingStreamTrack.sources IncomingStreamTrack.New].
    split; [reflexivity|]. split; [done|].
    rewrite Hmedia, (Hfirst32 first) by done.
    split_and!; [done|by apply secondOfWith_DWORD..].
  - destruct (outgoing_resolve_Ok GetSourceGroup track (mediaTypeOf track) Hread)
      as (source & first & Hresolve & _ & Hfirst & Hmedia & Hrtx & Hfec).
    eexists _, _, _, source. split; [by apply outgoing_CreateTrack_fresh|].
    split; [by apply list_lookup_middle|].
    split; [done|]. split; [simpl; by rewrite <- app_assoc|].
    rewrite Hmedia, (Hfirst32 first) by done.
    split_and!; [done|by apply secondOfWith_DWORD..].
Qed.

Lemma singleFlowReadable_videoSingle : singleFlowReadable lib.GetSourceGroup videoSingle.
Proof.
  split; [simpl; lia|].
  split; intros group Heq; vm_compute in Heq; injection Heq as <-; simpl; lia.
Qed.

Lemma singleFlow32_videoSingle : singleFlow32 lib.GetSourceGroup videoSingle.
Proof.
  split; [by repeat constructor|].
  split; intros group Heq; vm_compute in Heq; injection Heq as <-; by repeat constructor.
Qed.

Lemma CreateTrack_single_flow_witness :
  (IncomingStream.Tracks liveIncoming !! sdp.id videoSingle = None
   ∧ IncomingStream.Transport liveIncoming = Some 7%N
   ∧ sdp.encodings videoSingle = []
   ∧ lib.GetSourceGroup videoSingle "SIM" = None
   ∧ OutgoingStream.tracks liveOutgoing !! sdp.id videoSingle = None
   ∧ OutgoingStream.transport liveOutgoing = Some 7%N
   ∧ singleFlowReadable lib.GetSourceGroup videoSingle
   ∧ singleFlow32 lib.GetSourceGroup videoSingle)
  ∧ (∃ p obj w' source,
       IncomingStream.CreateTrack lib.GetSourceGroup liveIncoming videoSingle emptyWorld =
         Ok (Some p,
             IncomingStream.setTracks
               (<[sdp.id videoSingle := p]> (IncomingStream.Tracks liveIncoming))
               liveIncoming, w')
       ∧ incomingTracks w' !! p = Some obj
       ∧ IncomingStreamTrack.sources obj = {[ "" := source ]}
       ∧ calls w' = calls emptyWorld ++ [AddIncomingSourceGroup 7%N source]
       ∧ sdp.ssrcsOf videoSingle !! 0 = Some (native.ssrc (native.in_media source))
       ∧ secondOf (lib.GetSourceGroup videoSingle "FID") (native.ssrc (native.in_rtx source))
       ∧ secondOf (lib.GetSourceGroup videoSingle "FEC-FR") (native.ssrc (native.in_fec source)))
  ∧ (∃ p obj w' source,
       OutgoingStream.CreateTrack lib.GetSourceGroup liveOutgoing videoSingle emptyWorld =
         Ok (Some p,
             OutgoingStream.setTracks
               (<[sdp.id videoSingle := p]> (OutgoingStream.tracks liveOutgoing))
               liveOutgoing, w')
       ∧ outgoingTracks w' !! p = Some obj
       ∧ OutgoingStreamTrack.source obj = source
       ∧ calls w' = calls emptyWorld ++ [AddOutgoingSourceGroup 7%N source]
                      ++ ((λ listener, OnTrack listener p)
                            <$> OutgoingStream.onAddTrackListeners liveOutgoing)
       ∧ sdp.ssrcsOf videoSingle !! 0 = Some (native.ssrc (native.out_media source))
       ∧ secondOf (lib.GetSourceGroup videoSingle "FID") (native.ssrc (native.out_rtx source))
       ∧ secondOf (lib.GetSourceGroup videoSingle "FEC-FR")
           (native.ssrc (native.out_fec source))).
Proof.
  split.
  - split_and!; [reflexivity|reflexivity|reflexivity|by vm_compute|reflexivity|reflexivity|
                 exact singleFlowReadable_videoSingle|exact singleFlow32_videoSingle].
  - apply (CreateTrack_single_flow lib.GetSourceGroup liveIncoming liveOutgoing videoSingle
             7%N 7%N emptyWorld);
      [reflexivity|reflexivity|reflexivity|by vm_compute|reflexivity|reflexivity|
       exact singleFlowReadable_videoSingle|exact singleFlow32_videoSingle].
Defined.

(** The single-flow sample, run on both streams: media ssrc 1111, rtx ssrc
    2222, fec ssrc 4444; the audio sample without groups: 5555, 0, 0. *)
Example CreateTrack_single_flow_scenario :
  (∃ i' w' source,
     IncomingStream.CreateTrack lib.GetSourceGroup liveIncoming videoSingle emptyWorld
       = Ok (Some 0, i', w')
     ∧ IncomingStreamTrack.sources <$> incomingTracks w' !! 0 = Some {[ "" := source ]}
     ∧ (native.ssrc (native.in_media source), native.ssrc (native.in_rtx source),
        native.ssrc (native.in_fec source)) = (1111, 2222, 4444)%N)
  ∧ (∃ o' w' source,
       OutgoingStream.CreateTrack lib.GetSourceGroup liveOutgoing audioSingle emptyWorld
         = Ok (Some 0, o', w')
       ∧ OutgoingStreamTrack.source <$> outgoingTracks w' !! 0 = Some source
       ∧ calls w' = [AddOutgoingSourceGroup 7%N source; OnTrack 0 0]
       ∧ (native.ssrc (native.out_media source), native.ssrc (native.out_rtx source),
          native.ssrc (native.out_fec source)) = (5555, 0, 0)%N).
Proof.
  split; eexists _, _, _; (split; [by vm_compute|]); by vm_compute.
Qed.

(** ** Unguarded reads *)

(** C10: the reads of [CreateTrack] are not guarded. On live streams, for a
    descriptor without encodings whose id is not in the incoming stream:
    without a SIM group the incoming [CreateTrack] panics exactly when the
    descriptor has no first ssrc or its FID or FEC-FR group has no second
    member; the outgoing [CreateTrack] panics exactly then, too; with a SIM
    group the incoming [CreateTrack] panics exactly when, for some member of
    it, some group of the descriptor has no first member, or has that member
    first, FID or FEC-FR for semantics, and no second member. *)
Theorem CreateTrack_unguarded_reads
    (GetSourceGroup : sdp.TrackInfo → string → option sdp.SourceGroupInfo)
    (i : IncomingStream.t) (o : OutgoingStream.t) (track : sdp.TrackInfo)
    (transportIn transportOut : native.DTLSICETransport) (w : World) :
  IncomingStream.Tracks i !! sdp.id track = None →
  IncomingStream.Transport i = Some transportIn →
  sdp.encodings track = [] →
  OutgoingStream.transport o = Some transportOut →
  (GetSourceGroup track "SIM" = None →
   (IncomingStream.CreateTrack GetSourceGroup i track w = Panic
    ↔ ¬ singleFlowReadable GetSourceGroup track))
  ∧ (OutgoingStream.CreateTrack GetSourceGroup o track w = Panic
     ↔ ¬ singleFlowReadable GetSourceGroup track)
  ∧ (∀ SIM, GetSourceGroup track "SIM" = Some SIM →
       (IncomingStream.CreateTrack GetSourceGroup i track w = Panic
        ↔ ¬ simulcastReadable track SIM)).
Proof.
  intros Hfresh HliveIn Hencodings HliveOut. split_and!.
  - intros HSIM. rewrite CreateTrack_fresh_Panic, resolve_single by done. split.
    + intros Hpanic Hread.
      destruct (resolveSingle_Ok GetSourceGroup i track transportIn (mediaTypeOf track)
                  (∅, w) HliveIn Hread) as (source & first & Hok & _).
      congruence.
    + intros Hunreadable.
      destruct (IncomingStream.resolveSingle _ _ _ _ _) as [st'|] eqn:Hresolve; [|done].
      destruct Hunreadable. by eapply resolveSingle_Ok_inv.
  - unfold OutgoingStream.CreateTrack. split.
    + intros Hpanic Hread.
      destruct (outgoing_resolve_Ok GetSourceGroup track (mediaTypeOf track) Hread)
        as (source & first & Hok & _).
      rewrite Hok, HliveOut in Hpanic. simpl in Hpanic.
      by destruct (OutgoingStream.tracks o !! sdp.id track).
    + intros Hunreadable.
      destruct (OutgoingStream.resolve _ _ _) as [source|] eqn:Hresolve; [|done].
      destruct Hunreadable. by eapply outgoing_resolve_Ok_inv.
  - intros SIM HSIM. rewrite CreateTrack_fresh_Panic by done. split.
    + intros Hpanic Hread.
      rewrite (resolve_simulcast _ _ _ transportIn SIM) in Hpanic by done. done.
    + intros Hunreadable.
      destruct (IncomingStream.resolve _ _ _ _ _) as [st'|] eqn:Hresolve; [|done].
      destruct Hunreadable. by eapply resolve_simulcast_inv.
Qed.

Lemma CreateTrack_unguarded_reads_witness :
  (IncomingStream.Tracks liveIncoming !! sdp.id audioNoSsrc = None
   ∧ IncomingStream.Transport liveIncoming = Some 7%N
   ∧ sdp.encodings audioNoSsrc = []
   ∧ OutgoingStream.transport liveOutgoing = Some 7%N)
  ∧ (lib.GetSourceGroup audioNoSsrc "SIM" = None →
     (IncomingStream.CreateTrack lib.GetSourceGroup liveIncoming audioNoSsrc emptyWorld = Panic
      ↔ ¬ singleFlowReadable lib.GetSourceGroup audioNoSsrc))
  ∧ (OutgoingStream.CreateTrack lib.GetSourceGroup liveOutgoing audioNoSsrc emptyWorld = Panic
     ↔ ¬ singleFlowReadable lib.GetSourceGroup audioNoSsrc)
  ∧ (∀ SIM, lib.GetSourceGroup audioNoSsrc "SIM" = Some SIM →
       (IncomingStream.CreateTrack lib.GetSourceGroup liveIncoming audioNoSsrc emptyWorld = Panic
        ↔ ¬ simulcastReadable audioNoSsrc SIM)).
Proof.
  split.
  - split_and!; reflexivity.
  - apply (CreateTrack_unguarded_reads lib.GetSourceGroup liveIncoming liveOutgoing audioNoSsrc
             7%N 7%N emptyWorld); reflexivity.
Defined.

(** Descriptors that cannot be read, run: no ssrc at all, on both streams;
    an FID group with one member, on both streams; a simulcast descriptor
    with a group that lists no member. *)
Example CreateTrack_panics :
  IncomingStream.CreateTrack lib.GetSourceGroup liveIncoming audioNoSsrc emptyWorld = Panic
  ∧ OutgoingStream.CreateTrack lib.GetSourceGroup liveOutgoing audioNoSsrc emptyWorld = Panic
  ∧ IncomingStream.CreateTrack lib.GetSourceGroup liveIncoming videoShortFID emptyWorld = Panic
  ∧ OutgoingStream.CreateTrack lib.GetSourceGroup liveOutgoing videoShortFID emptyWorld = Panic
  ∧ IncomingStream.CreateTrack lib.GetSourceGroup liveIncoming videoSimulcastEmptyGroup emptyWorld
    = Panic.
Proof. by vm_compute. Qed.

(** ** The heap under a range *)

Section Heap.

Context {A : Type}.
Implicit Types (f : A → A) (h : list A) (ps : list ptr).

Lemma alterAll_length f ps h : length (alterAll f ps h) = length h.
Proof.
  revert h. induction ps as [|p ps IH]; intros h; [done|].
  simpl. by rewrite IH, length_alter.
Qed.

(** When calling the method twice is calling it once, the objects pointed
    to have had it called, whatever the order and the repetitions, and the
    others are as before. *)
Lemma alterAll_lookup f ps h p :
  (∀ x, f (f x) = f x) →
  alterAll f ps h !! p = if decide (p ∈ ps) then f <$> h !! p else h !! p.
Proof.
  intros Hidem. revert h. induction ps as [|q ps IH]; intros h; [done|].
  simpl. rewrite IH. destruct (decide (p ∈ ps)) as [Hin|Hnin].
  - rewrite (decide_True (P := p ∈ q :: ps)) by (by right).
    destruct (decide (q = p)) as [->|Hne].
    + rewrite list_lookup_alter_eq. destruct (h !! p); simpl; by rewrite ?Hidem.
    + by rewrite list_lookup_alter_ne.
  - destruct (decide (q = p)) as [->|Hne].
    + rewrite (decide_True (P := p ∈ p :: ps)) by (by left).
      by rewrite list_lookup_alter_eq.
    + rewrite list_lookup_alter_ne by done.
      rewrite decide_False; [done|]. by intros [->|?]%elem_of_cons.
Qed.

Lemma alterAll_idemp f ps h :
  (∀ x, f (f x) = f x) → alterAll f ps (alterAll f ps h) = alterAll f ps h.
Proof.
  intros Hidem. apply list_eq. intros p. rewrite !alterAll_lookup by done.
  case_decide; [|done]. destruct (h !! p); simpl; by rewrite ?Hidem.
Qed.

End Heap.

Section Ranges.

(** A range visits each entry of the map once. *)
Variable range : gmap string ptr → list (string * ptr).
Hypothesis range_visits : ∀ m, range m ≡ₚ map_to_list m.

Lemma range_lookup (m : gmap string ptr) (key : string) (p : ptr) :
  (key, p) ∈ range m ↔ m !! key = Some p.
Proof. by rewrite range_visits, elem_of_map_to_list. Qed.

Lemma range_pointer (m : gmap string ptr) (key : string) (p : ptr) :
  m !! key = Some p → p ∈ (range m).*2.
Proof.
  intros H%range_lookup. by apply (list_elem_of_fmap_2 snd _ (key, p)).
Qed.

(** Deleting the keys a range visits empties the map. *)
Lemma foldl_delete_lookup (m : gmap string ptr) (l : list (string * ptr)) (key : string) :
  foldl (λ m entry, delete entry.1 m) m l !! key
  = if decide (key ∈ l.*1) then None else m !! key.
Proof.
  revert m. induction l as [|[k p] l IH]; intros m; [done|].
  cbn [foldl]. rewrite IH, fmap_cons. cbn [fst].
  destruct (decide (key ∈ l.*1)) as [Hin|Hnin].
  - by rewrite (decide_True (P := key ∈ k :: l.*1)) by (by right).
  - destruct (decide (k = key)) as [->|Hne].
    + rewrite (decide_True (P := key ∈ key :: l.*1)) by (by left).
      by rewrite lookup_delete_eq.
    + rewrite lookup_delete_ne by done.
      rewrite decide_False; [done|]. by intros [->|?]%elem_of_cons.
Qed.

Lemma foldl_delete_range (m : gmap string ptr) :
  foldl (λ m entry, delete entry.1 m) m (range m) = ∅.
Proof.
  apply map_empty. intros key. rewrite foldl_delete_lookup.
  case_decide as Hin; [done|]. destruct (m !! key) as [p|] eqn:Hkey; [|done].
  destruct Hin. apply range_lookup in Hkey.
  by apply (list_elem_of_fmap_2 fst _ (key, p)).
Qed.

End Ranges.

(** ** Membership edits *)

(** C2, as stated, fails on outgoing streams: adding a track whose id is
    already in the stream returns, and the caller is handed no error. *)
Lemma AddTrack_duplicate_counterexample :
  outgoingTracks audioWorld !! 0
    = Some (OutgoingStreamTrack.new "audio" "audio0" 7%N (native.NewRTPOutgoingSourceGroup 0%N))
  ∧ OutgoingStream.tracks outgoingWithAudio !! "audio0" = Some 0
  ∧ ∃ r, OutgoingStream.AddTrack outgoingWithAudio 0 audioWorld = Ok (r, outgoingWithAudio)
       ∧ reported r = None.
Proof. split; [done|]. split; [done|]. by exists tt. Qed.

(** C2, amended: for a track [T] of the heap, [AddTrack(T)] on an incoming
    stream returns the error "Track Id already present in stream" and leaves
    the stream as it is when a track with [T]'s id is present, and otherwise
    enters [T] under its id and returns no error; on an outgoing stream it
    has no result: it leaves the stream as it is when a track with [T]'s id
    is present, and otherwise enters [T] under its id. *)
Theorem AddTrack_duplicate
    (i : IncomingStream.t) (o : OutgoingStream.t) (w : World) (p q : ptr)
    (incomingTrack : IncomingStreamTrack.t) (outgoingTrack : OutgoingStreamTrack.t) :
  incomingTracks w !! p = Some incomingTrack →
  outgoingTracks w !! q = Some outgoingTrack →
  (is_Some (IncomingStream.Tracks i !! IncomingStreamTrack.id incomingTrack) →
     ∃ r, IncomingStream.AddTrack i p w = Ok (r, i)
        ∧ reported r = Some IncomingStream.DuplicateId)
  ∧ (IncomingStream.Tracks i !! IncomingStreamTrack.id incomingTrack = None →
     ∃ r, IncomingStream.AddTrack i p w =
            Ok (r, IncomingStream.setTracks
                     (<[IncomingStreamTrack.id incomingTrack := p]> (IncomingStream.Tracks i)) i)
        ∧ reported r = None)
  ∧ (is_Some (OutgoingStream.tracks o !! OutgoingStreamTrack.id outgoingTrack) →
     ∃ r, OutgoingStream.AddTrack o q w = Ok (r, o) ∧ reported r = None)
  ∧ (OutgoingStream.tracks o !! OutgoingStreamTrack.id outgoingTrack = None →
     ∃ r, OutgoingStream.AddTrack o q w =
            Ok (r, OutgoingStream.setTracks
                     (<[OutgoingStreamTrack.id outgoingTrack := q]> (OutgoingStream.tracks o)) o)
        ∧ reported r = None).
Proof.
  intros Hp Hq. unfold IncomingStream.AddTrack, OutgoingStream.AddTrack.
  rewrite Hp, Hq. simpl. split_and!.
  - intros [p' ->]. by eexists.
  - intros ->. by eexists.
  - intros [q' ->]. by eexists.
  - intros ->. by eexists.
Qed.

Lemma AddTrack_duplicate_witness :
  (incomingTracks audioWorld !! 0 = Some (IncomingStreamTrack.New "audio" "audio0" (Some 9%N) ∅)
   ∧ outgoingTracks audioWorld !! 0
     = Some (OutgoingStreamTrack.new "audio" "audio0" 7%N (native.NewRTPOutgoingSourceGroup 0%N)))
  ∧ (is_Some (IncomingStream.Tracks incomingWithAudio !! "audio0") →
       ∃ r, IncomingStream.AddTrack incomingWithAudio 0 audioWorld = Ok (r, incomingWithAudio)
          ∧ reported r = Some IncomingStream.DuplicateId)
  ∧ (IncomingStream.Tracks incomingWithAudio !! "audio0" = None →
       ∃ r, IncomingStream.AddTrack incomingWithAudio 0 audioWorld =
              Ok (r, IncomingStream.setTracks
                       (<["audio0" := 0]> (IncomingStream.Tracks incomingWithAudio))
                       incomingWithAudio)
          ∧ reported r = None)
  ∧ (is_Some (OutgoingStream.tracks liveOutgoing !! "audio0") →
       ∃ r, OutgoingStream.AddTrack liveOutgoing 0 audioWorld = Ok (r, liveOutgoing)
          ∧ reported r = None)
  ∧ (OutgoingStream.tracks liveOutgoing !! "audio0" = None →
       ∃ r, OutgoingStream.AddTrack liveOutgoing 0 audioWorld =
              Ok (r, OutgoingStream.setTracks
                       (<["audio0" := 0]> (OutgoingStream.tracks liveOutgoing)) liveOutgoing)
          ∧ reported r = None).
Proof.
  split; [split; reflexivity|].
  apply (AddTrack_duplicate incomingWithAudio liveOutgoing audioWorld 0 0
           (IncomingStreamTrack.New "audio" "audio0" (Some 9%N) ∅)
           (OutgoingStreamTrack.new "audio" "audio0" 7%N (native.NewRTPOutgoingSourceGroup 0%N)));
    reflexivity.
Defined.

(** ** [CreateTrack] on an id that is present *)

(** C3, as stated, fails on an outgoing stream: the reads of the descriptor
    come before the test of the id, and a descriptor that lists no ssrc
    makes the call panic although the stream holds its id. *)
Lemma CreateTrack_present_noop_counterexample :
  OutgoingStream.tracks outgoingWithAudio !! sdp.id audioNoSsrc = Some 0
  ∧ OutgoingStream.CreateTrack lib.GetSourceGroup outgoingWithAudio audioNoSsrc audioWorld
    = Panic.
Proof. split; by vm_compute. Qed.

(** C3, amended: on an incoming stream, [CreateTrack] with a descriptor
    whose id is already in the stream returns nil and changes neither the
    stream, which keeps the one track it has under that id, nor the world,
    so that no source group is registered, whatever else the descriptor
    holds. On an outgoing stream that holds the id it does so exactly when
    the descriptor can be read, the reads coming before the test there, and
    panics otherwise. On both streams a second call with the descriptor of a
    call that returned a track returns nil and changes nothing. *)
Theorem CreateTrack_present_noop
    (GetSourceGroup : sdp.TrackInfo → string → option sdp.SourceGroupInfo)
    (i : IncomingStream.t) (o : OutgoingStream.t) (track : sdp.TrackInfo) (w : World) :
  (is_Some (IncomingStream.Tracks i !! sdp.id track) →
   IncomingStream.CreateTrack GetSourceGroup i track w = Ok (None, i, w))
  ∧ (is_Some (OutgoingStream.tracks o !! sdp.id track) →
     (singleFlowReadable GetSourceGroup track →
      OutgoingStream.CreateTrack GetSourceGroup o track w = Ok (None, o, w))
     ∧ (OutgoingStream.CreateTrack GetSourceGroup o track w = Panic
        ↔ ¬ singleFlowReadable GetSourceGroup track))
  ∧ (∀ i0 w0 p i1 w1,
       IncomingStream.CreateTrack GetSourceGroup i0 track w0 = Ok (Some p, i1, w1) →
       IncomingStream.Tracks i1 !! sdp.id track = Some p
       ∧ IncomingStream.CreateTrack GetSourceGroup i1 track w1 = Ok (None, i1, w1))
  ∧ (∀ o0 w0 p o1 w1,
       OutgoingStream.CreateTrack GetSourceGroup o0 track w0 = Ok (Some p, o1, w1) →
       OutgoingStream.tracks o1 !! sdp.id track = Some p
       ∧ OutgoingStream.CreateTrack GetSourceGroup o1 track w1 = Ok (None, o1, w1)).
Proof.
  split_and!.
  - intros [p Hp]. unfold IncomingStream.CreateTrack. by rewrite Hp.
  - intros [q Hq]. unfold OutgoingStream.CreateTrack. split_and!.
    + intros Hread.
      destruct (outgoing_resolve_Ok GetSourceGroup track (mediaTypeOf track) Hread)
        as (source & first & Hresolve & _).
      rewrite Hresolve. simpl. by rewrite Hq.
    + split.
      * intros Hpanic Hread.
        destruct (outgoing_resolve_Ok GetSourceGroup track (mediaTypeOf track) Hread)
          as (source & first & Hresolve & _).
        rewrite Hresolve in Hpanic. simpl in Hpanic. by rewrite Hq in Hpanic.
      * intros Hunreadable.
        destruct (OutgoingStream.resolve _ _ _) as [source|] eqn:Hresolve; [|done].
        destruct Hunreadable. by eapply outgoing_resolve_Ok_inv.
  - intros i0 w0 p0 i1 w1. unfold IncomingStream.CreateTrack.
    destruct (IncomingStream.Tracks i0 !! sdp.id track) eqn:Hfresh; [done|].
    destruct (IncomingStream.resolve _ _ _ _ _) as [[sources w']|]; [|done].
    simpl. intros [= <- <- <-]. simpl. by rewrite lookup_insert_eq.
  - intros o0 w0 p0 o1 w1. unfold OutgoingStream.CreateTrack.
    destruct (OutgoingStream.resolve _ _ _) as [source|] eqn:Hresolve; [|done]. simpl.
    destruct (OutgoingStream.tracks o0 !! sdp.id track) eqn:Hfresh; [done|].
    destruct (OutgoingStream.transport o0) as [transport|]; [|done].
    simpl. intros [= <- <- <-]. simpl. by rewrite lookup_insert_eq.
Qed.

Lemma singleFlowReadable_audioSingle : singleFlowReadable lib.GetSourceGroup audioSingle.
Proof. split; [simpl; lia|]. split; intros group Heq; by vm_compute in Heq. Qed.

(** The incoming stream is handed a descriptor without any ssrc, under the
    id it holds; the outgoing stream one that can be read. *)
Lemma CreateTrack_present_noop_witness :
  (is_Some (IncomingStream.Tracks incomingWithAudio !! sdp.id audioNoSsrc)
   ∧ is_Some (OutgoingStream.tracks outgoingWithAudio !! sdp.id audioSingle)
   ∧ singleFlowReadable lib.GetSourceGroup audioSingle)
  ∧ IncomingStream.CreateTrack lib.GetSourceGroup incomingWithAudio audioNoSsrc audioWorld
    = Ok (None, incomingWithAudio, audioWorld)
  ∧ OutgoingStream.CreateTrack lib.GetSourceGroup outgoingWithAudio audioSingle audioWorld
    = Ok (None, outgoingWithAudio, audioWorld).
Proof.
  assert (is_Some (IncomingStream.Tracks incomingWithAudio !! sdp.id audioNoSsrc)) as Hin.
  { by eexists. }
  assert (is_Some (OutgoingStream.tracks outgoingWithAudio !! sdp.id audioSingle)) as Hout.
  { by eexists. }
  split; [exact (conj Hin (conj Hout singleFlowReadable_audioSingle))|]. split.
  - exact (proj1 (CreateTrack_present_noop lib.GetSourceGroup incomingWithAudio
                    outgoingWithAudio audioNoSsrc audioWorld) Hin).
  - exact (proj1 (proj1 (proj2 (CreateTrack_present_noop lib.GetSourceGroup incomingWithAudio
                                  outgoingWithAudio audioSingle audioWorld)) Hout)
             singleFlowReadable_audioSingle).
Defined.

(** [CreateTrack] twice, run on the empty streams: the first call returns
    the track and registers its group, the second returns nil and leaves
    the one track and the one registration. *)
Example CreateTrack_twice :
  (∃ i1 w1,
     IncomingStream.CreateTrack lib.GetSourceGroup liveIncoming audioSingle emptyWorld
       = Ok (Some 0, i1, w1)
     ∧ IncomingStream.CreateTrack lib.GetSourceGroup i1 audioSingle w1 = Ok (None, i1, w1)
     ∧ size (IncomingStream.Tracks i1) = 1 ∧ length (calls w1) = 1)
  ∧ (∃ o1 w1,
       OutgoingStream.CreateTrack lib.GetSourceGroup liveOutgoing audioSingle emptyWorld
         = Ok (Some 0, o1, w1)
       ∧ OutgoingStream.CreateTrack lib.GetSourceGroup o1 audioSingle w1 = Ok (None, o1, w1)
       ∧ size (OutgoingStream.tracks o1) = 1
       ∧ calls w1 = [AddOutgoingSourceGroup 7%N
                       (native.out_SetMedia 5555 (native.NewRTPOutgoingSourceGroup 0%N));
                     OnTrack 0 0]).
Proof.
  split; eexists _, _; (split; [by vm_compute|]); by vm_compute.
Qed.

(** ** Detach and Stop over the track map *)

Section Walks.

Context {A : Type}.

Lemma alterAll_lookup_fmap {B} (g : A → B) (f : A → A) (ps : list ptr) (h : list A) (p : ptr) :
  (∀ x, g (f x) = g x) → g <$> alterAll f ps h !! p = g <$> h !! p.
Proof.
  intros Hg. revert h. induction ps as [|q ps IH]; intros h; [done|].
  simpl. rewrite IH. destruct (decide (q = p)) as [->|Hne].
  - rewrite list_lookup_alter_eq, <- option_fmap_compose.
    apply option_fmap_ext. intros x. apply Hg.
  - by rewrite list_lookup_alter_ne.
Qed.

Lemma omap_ext_all {B} (f g : A → option B) (l : list A) :
  (∀ x, f x = g x) → omap f l = omap g l.
Proof.
  intros Hfg. induction l as [|x l IH]; [done|].
  cbn [omap list_omap]. by rewrite Hfg, IH.
Qed.

End Walks.

Lemma setIncomingTracks_same (w : World) : setIncomingTracks (incomingTracks w) w = w.
Proof. by destruct w. Qed.

Lemma setOutgoingTracks_same (w : World) : setOutgoingTracks (outgoingTracks w) w = w.
Proof. by destruct w. Qed.

Lemma IncomingStreamTrack_Stop_idemp (track : IncomingStreamTrack.t) :
  IncomingStreamTrack.Stop (IncomingStreamTrack.Stop track) = IncomingStreamTrack.Stop track.
Proof. done. Qed.

Lemma OutgoingStreamTrack_Stop_idemp (track : OutgoingStreamTrack.t) :
  OutgoingStreamTrack.Stop (OutgoingStreamTrack.Stop track) = OutgoingStreamTrack.Stop track.
Proof. done. Qed.

Lemma OutgoingStreamTrack_Detach_idemp (track : OutgoingStreamTrack.t) :
  OutgoingStreamTrack.Detach (OutgoingStreamTrack.Detach track)
  = OutgoingStreamTrack.Detach track.
Proof.
  unfold OutgoingStreamTrack.Detach. simpl. f_equal.
  by destruct (OutgoingStreamTrack.transponder track).
Qed.

(** The loop of the incoming [Stop], over any list of entries. *)
Lemma foldl_incoming_stopTrack (l : list (string * ptr)) (m : gmap string ptr) (w : World) :
  foldl IncomingStream.stopTrack (m, w) l =
  (foldl (λ m entry, delete entry.1 m) m l,
   setIncomingTracks (alterAll IncomingStreamTrack.Stop l.*2 (incomingTracks w)) w).
Proof.
  revert m w. induction l as [|[key p] l IH]; intros m w.
  - simpl. by rewrite setIncomingTracks_same.
  - cbn [foldl]. unfold IncomingStream.stopTrack at 2. by rewrite IH.
Qed.

Lemma outgoing_stopTrack_stopped (transport : native.DTLSICETransport)
    (entry : string * ptr) (w : World) :
  OutgoingStream.stopTrack transport w entry = stopped transport [entry.2] w.
Proof.
  unfold OutgoingStream.stopTrack, DeleteOutgoingSourceGroup, stopped.
  change (outgoingTracks (setOutgoingTracks ?h w)) with h.
  rewrite list_lookup_alter_eq. cbn [omap list_omap alterAll foldl].
  destruct (outgoingTracks w !! entry.2) as [obj|];
    simpl; unfold call, setOutgoingTracks; simpl; [done|by rewrite app_nil_r].
Qed.

Lemma stopped_cons (transport : native.DTLSICETransport) (p : ptr) (ps : list ptr)
    (w : World) :
  stopped transport ps (stopped transport [p] w) = stopped transport (p :: ps) w.
Proof.
  unfold stopped. cbn [incomingTracks outgoingTracks calls]. f_equal.
  rewrite <- app_assoc. f_equal. cbn [omap list_omap alterAll foldl].
  assert (omap (λ q, (λ obj, RemoveOutgoingSourceGroup transport
                               (OutgoingStreamTrack.source obj))
                       <$> alter OutgoingStreamTrack.Stop p (outgoingTracks w) !! q) ps
          = omap (λ q, (λ obj, RemoveOutgoingSourceGroup transport
                                 (OutgoingStreamTrack.source obj))
                         <$> outgoingTracks w !! q) ps) as ->.
  { apply omap_ext_all. intros q. destruct (decide (p = q)) as [->|Hne].
    - rewrite list_lookup_alter_eq, <- option_fmap_compose. by apply option_fmap_ext.
    - by rewrite list_lookup_alter_ne. }
  by destruct (outgoingTracks w !! p).
Qed.

Lemma foldl_outgoing_stopTrack (transport : native.DTLSICETransport)
    (l : list (string * ptr)) (w : World) :
  foldl (OutgoingStream.stopTrack transport) w l = stopped transport l.*2 w.
Proof.
  revert w. induction l as [|entry l IH]; intros w.
  - unfold stopped. simpl. destruct w. simpl. by rewrite app_nil_r.
  - cbn [foldl]. by rewrite IH, outgoing_stopTrack_stopped, stopped_cons.
Qed.

(** The loop of [Detach], over any list of entries. *)
Lemma foldl_detachTrack (l : list (string * ptr)) (w : World) :
  foldl OutgoingStream.detachTrack w l =
  setOutgoingTracks (alterAll OutgoingStreamTrack.Detach l.*2 (outgoingTracks w)) w.
Proof.
  revert w. induction l as [|[key p] l IH]; intros w.
  - simpl. by rewrite setOutgoingTracks_same.
  - cbn [foldl]. unfold OutgoingStream.detachTrack at 2. by rewrite IH.
Qed.

(** ** [Detach] *)

Section Detach.

Variable ToLower : string → string.
Variable range : gmap string ptr → list (string * ptr).

Implicit Types (o : OutgoingStream.t) (w : World).

Lemma Detach_alterAll o w :
  OutgoingStream.Detach range o w =
  setOutgoingTracks
    (alterAll OutgoingStreamTrack.Detach (range (OutgoingStream.tracks o)).*2
       (outgoingTracks w)) w.
Proof. apply foldl_detachTrack. Qed.

Lemma Detach_idemp o w :
  OutgoingStream.Detach range o (OutgoingStream.Detach range o w)
  = OutgoingStream.Detach range o w.
Proof.
  rewrite !Detach_alterAll. unfold setOutgoingTracks. simpl. f_equal.
  apply alterAll_idemp, OutgoingStreamTrack_Detach_idemp.
Qed.

Lemma hasKind_media kind w p :
  OutgoingStream.hasKind ToLower kind w p =
  from_option (λ media, bool_decide (ToLower media = kind)) false
              (OutgoingStreamTrack.media <$> outgoingTracks w !! p).
Proof. unfold OutgoingStream.hasKind. by destruct (outgoingTracks w !! p). Qed.

(** Detaching changes the media kind of no track. *)
Lemma Detach_ofKind kind o w ps :
  OutgoingStream.ofKind ToLower kind (OutgoingStream.Detach range o w) ps
  = OutgoingStream.ofKind ToLower kind w ps.
Proof.
  unfold OutgoingStream.ofKind. apply list_filter_iff. intros p.
  rewrite !hasKind_media, Detach_alterAll. simpl.
  by rewrite (alterAll_lookup_fmap OutgoingStreamTrack.media).
Qed.

(** Detaching twice, in whatever orders, is detaching. *)
Lemma Detach_Detach (visit : gmap string ptr → list (string * ptr)) o w :
  (∀ m, range m ≡ₚ map_to_list m) → (∀ m, visit m ≡ₚ map_to_list m) →
  OutgoingStream.Detach visit o (OutgoingStream.Detach range o w)
  = OutgoingStream.Detach visit o w.
Proof.
  intros Hrange Hvisit. unfold OutgoingStream.Detach at 1 3. rewrite !foldl_detachTrack.
  rewrite Detach_alterAll. unfold setOutgoingTracks. simpl. f_equal.
  apply list_eq. intros p.
  rewrite !alterAll_lookup by apply OutgoingStreamTrack_Detach_idemp.
  destruct (decide (p ∈ (visit (OutgoingStream.tracks o)).*2)) as [Hin|Hout].
  - rewrite decide_True by (by rewrite Hrange, <- Hvisit).
    destruct (outgoingTracks w !! p) as [obj|]; [|done]. simpl.
    by rewrite OutgoingStreamTrack_Detach_idemp.
  - by rewrite decide_False by (by rewrite Hrange, <- Hvisit).
Qed.

End Detach.

(** C9: [Detach] writes neither the stream object nor its track map; of the
    world it changes the outgoing tracks the stream points to, and of these
    the Transponder only. Every track of the stream is where it was, with
    its id, media kind, sender, source group and stop flag, and its
    Transponder, if it has one, has no incoming side; the tracks the stream
    does not point to, the incoming tracks and the calls made are as before;
    the audio and video tracks of the stream are the same lists, whatever
    order the snapshot takes; and attaching after the detach is attaching,
    whatever orders the ranges of [AttachTo] take. *)
Theorem Detach_keeps_tracks
    (ToLower : string → string) (range snapshot : gmap string ptr → list (string * ptr))
    (visit : OutgoingStream.RangeSite → gmap string ptr → list (string * ptr))
    (o : OutgoingStream.t) (incomingStream : IncomingStream.t) (w : World) :
  (∀ m, range m ≡ₚ map_to_list m) →
  (∀ site m, visit site m ≡ₚ map_to_list m) →
  incomingTracks (OutgoingStream.Detach range o w) = incomingTracks w
  ∧ calls (OutgoingStream.Detach range o w) = calls w
  ∧ length (outgoingTracks (OutgoingStream.Detach range o w)) = length (outgoingTracks w)
  ∧ (∀ key p obj,
       OutgoingStream.tracks o !! key = Some p → outgoingTracks w !! p = Some obj →
       ∃ obj',
         outgoingTracks (OutgoingStream.Detach range o w) !! p = Some obj'
         ∧ OutgoingStreamTrack.id obj' = OutgoingStreamTrack.id obj
         ∧ OutgoingStreamTrack.media obj' = OutgoingStreamTrack.media obj
         ∧ OutgoingStreamTrack.sender obj' = OutgoingStreamTrack.sender obj
         ∧ OutgoingStreamTrack.source obj' = OutgoingStreamTrack.source obj
         ∧ OutgoingStreamTrack.stopped obj' = OutgoingStreamTrack.stopped obj
         ∧ OutgoingStreamTrack.transponder obj'
           = Transponder.SetIncoming None <$> OutgoingStreamTrack.transponder obj)
  ∧ (∀ p, (∀ key, OutgoingStream.tracks o !! key ≠ Some p) →
       outgoingTracks (OutgoingStream.Detach range o w) !! p = outgoingTracks w !! p)
  ∧ OutgoingStream.GetAudioTracks ToLower snapshot o (OutgoingStream.Detach range o w)
    = OutgoingStream.GetAudioTracks ToLower snapshot o w
  ∧ OutgoingStream.GetVideoTracks ToLower snapshot o (OutgoingStream.Detach range o w)
    = OutgoingStream.GetVideoTracks ToLower snapshot o w
  ∧ OutgoingStream.AttachTo ToLower visit o incomingStream (OutgoingStream.Detach range o w)
    = OutgoingStream.AttachTo ToLower visit o incomingStream w.
Proof.
  intros Hrange Hvisit. split_and!.
  - by rewrite Detach_alterAll.
  - by rewrite Detach_alterAll.
  - rewrite Detach_alterAll. simpl. apply alterAll_length.
  - intros key p obj Hkey Hp. exists (OutgoingStreamTrack.Detach obj).
    split; [|done]. rewrite Detach_alterAll. simpl.
    rewrite alterAll_lookup by apply OutgoingStreamTrack_Detach_idemp.
    rewrite decide_True by (by eapply range_pointer). by rewrite Hp.
  - intros p Hnone. rewrite Detach_alterAll. simpl.
    rewrite alterAll_lookup by apply OutgoingStreamTrack_Detach_idemp.
    rewrite decide_False; [done|].
    intros ([key q] & -> & Hin%(range_lookup range Hrange))%list_elem_of_fmap.
    by apply (Hnone key).
  - apply Detach_ofKind.
  - apply Detach_ofKind.
  - unfold OutgoingStream.AttachTo. by rewrite Detach_Detach.
Qed.

Lemma Detach_keeps_tracks_witness :
  ((∀ m, lib.range m ≡ₚ map_to_list m)
   ∧ (∀ site m, lib.rangeMixed site m ≡ₚ map_to_list m))
  ∧ incomingTracks (OutgoingStream.Detach lib.range outgoingWithAudio audioWorld)
    = incomingTracks audioWorld
  ∧ calls (OutgoingStream.Detach lib.range outgoingWithAudio audioWorld) = calls audioWorld
  ∧ length (outgoingTracks (OutgoingStream.Detach lib.range outgoingWithAudio audioWorld))
    = length (outgoingTracks audioWorld)
  ∧ (∀ key p obj,
       OutgoingStream.tracks outgoingWithAudio !! key = Some p →
       outgoingTracks audioWorld !! p = Some obj →
       ∃ obj',
         outgoingTracks (OutgoingStream.Detach lib.range outgoingWithAudio audioWorld) !! p
           = Some obj'
         ∧ OutgoingStreamTrack.id obj' = OutgoingStreamTrack.id obj
         ∧ OutgoingStreamTrack.media obj' = OutgoingStreamTrack.media obj
         ∧ OutgoingStreamTrack.sender obj' = OutgoingStreamTrack.sender obj
         ∧ OutgoingStreamTrack.source obj' = OutgoingStreamTrack.source obj
         ∧ OutgoingStreamTrack.stopped obj' = OutgoingStreamTrack.stopped obj
         ∧ OutgoingStreamTrack.transponder obj'
           = Transponder.SetIncoming None <$> OutgoingStreamTrack.transponder obj)
  ∧ (∀ p, (∀ key, OutgoingStream.tracks outgoingWithAudio !! key ≠ Some p) →
       outgoingTracks (OutgoingStream.Detach lib.range outgoingWithAudio audioWorld) !! p
       = outgoingTracks audioWorld !! p)
  ∧ OutgoingStream.GetAudioTracks lib.ToLower lib.rangeBack outgoingWithAudio
      (OutgoingStream.Detach lib.range outgoingWithAudio audioWorld)
    = OutgoingStream.GetAudioTracks lib.ToLower lib.rangeBack outgoingWithAudio audioWorld
  ∧ OutgoingStream.GetVideoTracks lib.ToLower lib.rangeBack outgoingWithAudio
      (OutgoingStream.Detach lib.range outgoingWithAudio audioWorld)
    = OutgoingStream.GetVideoTracks lib.ToLower lib.rangeBack outgoingWithAudio audioWorld
  ∧ OutgoingStream.AttachTo lib.ToLower lib.rangeMixed outgoingWithAudio incomingWithAudio
      (OutgoingStream.Detach lib.range outgoingWithAudio audioWorld)
    = OutgoingStream.AttachTo lib.ToLower lib.rangeMixed outgoingWithAudio incomingWithAudio
        audioWorld.
Proof.
  assert (∀ m, lib.range m ≡ₚ map_to_list m) as Hrange.
  { intros m. reflexivity. }
  assert (∀ site m, lib.rangeMixed site m ≡ₚ map_to_list m) as Hvisits.
  { intros site m. destruct site; try reflexivity; apply reverse_Permutation. }
  split; [exact (conj Hrange Hvisits)|].
  exact (Detach_keeps_tracks lib.ToLower lib.range lib.rangeBack lib.rangeMixed
           outgoingWithAudio incomingWithAudio audioWorld Hrange Hvisits).
Defined.

(** Attach, then detach, run on the streams with one audio track each: the
    outgoing track is paired with the incoming one and one Transponder is
    handed back; after the detach the track is still the stream's audio
    track and its Transponder has no incoming side. *)
Example AttachTo_then_Detach :
  ∃ w1,
    OutgoingStream.AttachTo lib.ToLower lib.rangeAt outgoingWithAudio incomingWithAudio
      audioWorld = Ok ([0], w1)
    ∧ OutgoingStreamTrack.transponder <$> outgoingTracks w1 !! 0
      = Some (Some {| Transponder.incoming := Some 0 |})
    ∧ OutgoingStreamTrack.transponder
        <$> outgoingTracks (OutgoingStream.Detach lib.range outgoingWithAudio w1) !! 0
      = Some (Some {| Transponder.incoming := None |})
    ∧ OutgoingStream.GetAudioTracks lib.ToLower lib.range outgoingWithAudio
        (OutgoingStream.Detach lib.range outgoingWithAudio w1) = [0].
Proof. eexists. split; [by vm_compute|]. by vm_compute. Qed.

(** ** [Stop] *)

(** C8: on a live stream [Stop] stops every track of the stream and leaves
    the track map empty and the transport nil; the incoming [Stop] releases
    the receive endpoint and clears it, the outgoing [Stop] unregisters the
    source group of each track from the transport. On a stopped stream,
    and so on the stream [Stop] has just left, [Stop] changes nothing. *)
Theorem Stop_stops_every_track
    (range : gmap string ptr → list (string * ptr))
    (i : IncomingStream.t) (o : OutgoingStream.t)
    (transportIn transportOut : native.DTLSICETransport) (w : World) :
  (∀ m, range m ≡ₚ map_to_list m) →
  IncomingStream.Transport i = Some transportIn →
  OutgoingStream.transport o = Some transportOut →
  (∃ i' w',
     IncomingStream.Stop range i w = (i', w')
     ∧ IncomingStream.Tracks i' = ∅
     ∧ IncomingStream.Transport i' = None
     ∧ IncomingStream.Receiver i' = None
     ∧ calls w' = calls w ++ [DeleteRTPReceiverFacade (IncomingStream.Receiver i)]
     ∧ outgoingTracks w' = outgoingTracks w
     ∧ (∀ key p obj,
          IncomingStream.Tracks i !! key = Some p → incomingTracks w !! p = Some obj →
          incomingTracks w' !! p = Some (IncomingStreamTrack.Stop obj))
     ∧ IncomingStream.Stop range i' w' = (i', w'))
  ∧ (∃ o' w' unregistered,
       OutgoingStream.Stop range o w = (o', w')
       ∧ OutgoingStream.tracks o' = ∅
       ∧ OutgoingStream.transport o' = None
       ∧ calls w' = calls w ++ unregistered
       ∧ incomingTracks w' = incomingTracks w
       ∧ (∀ key p obj,
            OutgoingStream.tracks o !! key = Some p → outgoingTracks w !! p = Some obj →
            outgoingTracks w' !! p = Some (OutgoingStreamTrack.Stop obj)
            ∧ RemoveOutgoingSourceGroup transportOut (OutgoingStreamTrack.source obj)
              ∈ unregistered)
       ∧ OutgoingStream.Stop range o' w' = (o', w'))
  ∧ (∀ i0 w0, IncomingStream.Transport i0 = None → IncomingStream.Stop range i0 w0 = (i0, w0))
  ∧ (∀ o0 w0, OutgoingStream.transport o0 = None → OutgoingStream.Stop range o0 w0 = (o0, w0)).
Proof.
  intros Hrange HliveIn HliveOut. split_and!.
  - unfold IncomingStream.Stop at 1. rewrite HliveIn, foldl_incoming_stopTrack.
    eexists _, _. split; [reflexivity|]. simpl.
    split; [by apply foldl_delete_range|]. split; [done|]. split; [done|].
    split; [done|]. split; [done|]. split; [|done].
    intros key p obj Hkey Hp.
    rewrite alterAll_lookup by apply IncomingStreamTrack_Stop_idemp.
    rewrite decide_True by (by eapply range_pointer). by rewrite Hp.
  - unfold OutgoingStream.Stop at 1. rewrite HliveOut, foldl_outgoing_stopTrack.
    eexists _, _, _. split; [reflexivity|]. simpl.
    split; [done|]. split; [done|]. split; [done|]. split; [done|]. split; [|done].
    intros key p obj Hkey Hp. split.
    + rewrite alterAll_lookup by apply OutgoingStreamTrack_Stop_idemp.
      rewrite decide_True by (by eapply range_pointer). by rewrite Hp.
    + apply list_elem_of_omap. exists p. split; [by eapply range_pointer|].
      by rewrite Hp.
  - intros i0 w0 Hstopped. unfold IncomingStream.Stop. by rewrite Hstopped.
  - intros o0 w0 Hstopped. unfold OutgoingStream.Stop. by rewrite Hstopped.
Qed.

Lemma Stop_stops_every_track_witness :
  ((∀ m, lib.range m ≡ₚ map_to_list m)
   ∧ IncomingStream.Transport incomingWithAudio = Some 7%N
   ∧ OutgoingStream.transport outgoingWithAudio = Some 7%N)
  ∧ (∃ i' w',
       IncomingStream.Stop lib.range incomingWithAudio audioWorld = (i', w')
       ∧ IncomingStream.Tracks i' = ∅
       ∧ IncomingStream.Transport i' = None
       ∧ IncomingStream.Receiver i' = None
       ∧ calls w' = calls audioWorld
                      ++ [DeleteRTPReceiverFacade (IncomingStream.Receiver incomingWithAudio)]
       ∧ outgoingTracks w' = outgoingTracks audioWorld
       ∧ (∀ key p obj,
            IncomingStream.Tracks incomingWithAudio !! key = Some p →
            incomingTracks audioWorld !! p = Some obj →
            incomingTracks w' !! p = Some (IncomingStreamTrack.Stop obj))
       ∧ IncomingStream.Stop lib.range i' w' = (i', w'))
  ∧ (∃ o' w' unregistered,
       OutgoingStream.Stop lib.range outgoingWithAudio audioWorld = (o', w')
       ∧ OutgoingStream.tracks o' = ∅
       ∧ OutgoingStream.transport o' = None
       ∧ calls w' = calls audioWorld ++ unregistered
       ∧ incomingTracks w' = incomingTracks audioWorld
       ∧ (∀ key p obj,
            OutgoingStream.tracks outgoingWithAudio !! key = Some p →
            outgoingTracks audioWorld !! p = Some obj →
            outgoingTracks w' !! p = Some (OutgoingStreamTrack.Stop obj)
            ∧ RemoveOutgoingSourceGroup 7%N (OutgoingStreamTrack.source obj) ∈ unregistered)
       ∧ OutgoingStream.Stop lib.range o' w' = (o', w'))
  ∧ (∀ i0 w0, IncomingStream.Transport i0 = None → IncomingStream.Stop lib.range i0 w0 = (i0, w0))
  ∧ (∀ o0 w0, OutgoingStream.transport o0 = None → OutgoingStream.Stop lib.range o0 w0 = (o0, w0)).
Proof.
  split; [split_and!; [intros m; reflexivity|reflexivity|reflexivity]|].
  apply (Stop_stops_every_track lib.range incomingWithAudio outgoingWithAudio 7%N 7%N audioWorld);
    [intros m; reflexivity|reflexivity|reflexivity].
Defined.

(** [Stop], run on the streams with one audio track each. *)
Example Stop_scenario :
  IncomingStream.Stop lib.range incomingWithAudio audioWorld =
    ({| IncomingStream.Id := "in"; IncomingStream.Transport := None;
        IncomingStream.Receiver := None; IncomingStream.Tracks := ∅ |},
     {| incomingTracks :=
          [IncomingStreamTrack.Stop (IncomingStreamTrack.New "audio" "audio0" (Some 9%N) ∅)];
        outgoingTracks := outgoingTracks audioWorld;
        calls := [DeleteRTPReceiverFacade (Some 9%N)] |})
  ∧ OutgoingStream.Stop lib.range outgoingWithAudio audioWorld =
    ({| OutgoingStream.id := "out"; OutgoingStream.transport := None;
        OutgoingStream.muted := false; OutgoingStream.tracks := ∅;
        OutgoingStream.onAddTrackListeners := [] |},
     {| incomingTracks := incomingTracks audioWorld;
        outgoingTracks :=
          [OutgoingStreamTrack.Stop
             (OutgoingStreamTrack.new "audio" "audio0" 7%N
                (native.NewRTPOutgoingSourceGroup 0%N))];
        calls := [RemoveOutgoingSourceGroup 7%N (native.NewRTPOutgoingSourceGroup 0%N)] |}).
Proof. by vm_compute. Qed.

(** ** [AttachTo] *)

Section Attach.

Variable ToLower : string → string.
Variable range : OutgoingStream.RangeSite → gmap string ptr → list (string * ptr).

(** The loop of [attachKind] panics once it meets a position that passes
    the test against [index] and lies beyond the outgoing tracks. *)
Lemma foldM_attach_beyond (outgoing : list ptr) (index : nat)
    (members : list (nat * ptr)) (st : list ptr * World) :
  (∃ member, member ∈ members ∧ member.1 < index ∧ length outgoing ≤ member.1) →
  foldM (λ st '(i, track),
           if decide (i < index) then OutgoingStream.attachAt outgoing st i track else Ok st)
        st members = Panic.
Proof.
  intros (member & Hin & Hlt & Hbeyond). revert st.
  induction members as [|[i track] members IH]; intros st; [by apply elem_of_nil in Hin|].
  rewrite foldM_cons. apply elem_of_cons in Hin as [->|Hin].
  - simpl in Hlt, Hbeyond. rewrite decide_True by done.
    unfold OutgoingStream.attachAt. apply index_Panic in Hbeyond. by rewrite Hbeyond.
  - destruct (if decide (i < index) then _ else _) as [st'|]; [|done].
    simpl. by apply IH.
Qed.

(** With more incoming than outgoing tracks of a kind, and at least one
    outgoing track, the block of [AttachTo] for that kind panics: [index] is
    raised to the number of incoming tracks, every position passes the test
    against it, and the outgoing slice is read beyond its end. *)
Lemma attachKind_surplus (outgoing incoming : list ptr) (st : list ptr * World) :
  0 < length outgoing → length outgoing < length incoming →
  OutgoingStream.attachKind outgoing incoming st = Panic.
Proof.
  intros Hsome Hsurplus. unfold OutgoingStream.attachKind.
  rewrite !decide_True by done.
  destruct (lookup_lt_is_Some_2 incoming (length outgoing) Hsurplus) as [track Htrack].
  apply foldM_attach_beyond. exists (length outgoing, track).
  split; [|simpl; lia].
  apply (list_elem_of_lookup_2 _ (length outgoing)).
  exact (proj1 (enumerate_lookup incoming (length outgoing) track) Htrack).
Qed.

Lemma enumerate_snoc {A} (l : list A) (x : A) :
  IncomingStream.enumerate (l ++ [x]) = IncomingStream.enumerate l ++ [(length l, x)].
Proof.
  unfold IncomingStream.enumerate. rewrite length_app. simpl.
  rewrite Nat.add_1_r, seq_S. simpl.
  by rewrite zip_with_app by (by rewrite length_seq).
Qed.

(** With no more incoming than outgoing tracks of a kind the block pairs
    them by position: each incoming track with the outgoing track at its
    position, the outgoing tracks beyond the incoming ones with none. *)
Lemma attachKind_paired (outgoing incoming : list ptr) (st : list ptr * World) :
  length incoming ≤ length outgoing →
  OutgoingStream.attachKind outgoing incoming st =
  Ok (st.1 ++ take (length incoming) outgoing,
      setOutgoingTracks (paired outgoing incoming (outgoingTracks st.2)) st.2).
Proof.
  intros Hle. unfold OutgoingStream.attachKind.
  destruct (decide (0 < length outgoing)) as [Hsome|Hnone].
  - rewrite decide_False by lia. revert Hle.
    induction incoming as [|track incoming IH] using rev_ind; intros Hle.
    + unfold paired. rewrite zip_with_nil_r. destruct st as [transponders w]. simpl.
      by rewrite app_nil_r, setOutgoingTracks_same.
    + rewrite length_app in Hle. simpl in Hle.
      rewrite enumerate_snoc, foldM_app, IH by lia. simpl.
      rewrite decide_True by lia. unfold OutgoingStream.attachAt.
      destruct (index_lt outgoing (length incoming)) as (out & -> & Hout); [lia|].
      simpl. f_equal. f_equal.
      * rewrite length_app. simpl. rewrite Nat.add_1_r, (take_S_r _ _ out) by done.
        by rewrite app_assoc.
      * unfold setOutgoingTracks, paired. simpl. f_equal.
        rewrite zip_with_app_r, zip_with_take_l, foldl_app.
        rewrite (drop_S _ out) by done.
        simpl. by rewrite zip_with_nil_r.
  - destruct outgoing; [|simpl in Hnone; lia]. destruct incoming; [|simpl in Hle; lia].
    destruct st as [transponders w]. unfold paired. simpl.
    by rewrite app_nil_r, setOutgoingTracks_same.
Qed.

(** Without outgoing tracks of a kind the block is skipped. *)
Lemma attachKind_none (incoming : list ptr) (st : list ptr * World) :
  OutgoingStream.attachKind [] incoming st = Ok st.
Proof. done. Qed.

(** [AttachTo] panics when the incoming stream has more audio tracks than
    the outgoing stream, which has one at least. *)
Lemma AttachTo_surplus_audio (o : OutgoingStream.t) (incomingStream : IncomingStream.t)
    (w : World) :
  0 < length (OutgoingStream.GetAudioTracks ToLower (range OutgoingStream.InOutgoingAudio) o w) →
  length (OutgoingStream.GetAudioTracks ToLower (range OutgoingStream.InOutgoingAudio) o w)
    < length (IncomingStream.GetAudioTracks ToLower (range OutgoingStream.InIncomingAudio)
                incomingStream w) →
  OutgoingStream.AttachTo ToLower range o incomingStream w = Panic.
Proof.
  intros Hsome Hsurplus. unfold OutgoingStream.AttachTo.
  unfold OutgoingStream.GetAudioTracks in *. rewrite Detach_ofKind.
  assert (IncomingStream.GetAudioTracks ToLower (range OutgoingStream.InIncomingAudio)
            incomingStream (OutgoingStream.Detach (range OutgoingStream.InDetach) o w)
          = IncomingStream.GetAudioTracks ToLower (range OutgoingStream.InIncomingAudio)
              incomingStream w) as ->.
  { by rewrite Detach_alterAll. }
  by rewrite attachKind_surplus.
Qed.

End Attach.

(** C1, on the code: with one audio and one video track in the outgoing
    stream and two audio tracks and one video track in the incoming stream,
    [AttachTo] does not hand back two Transponders: it panics, on the read
    of the outgoing audio track at position 1. With one incoming audio track
    it hands back the two Transponders. *)
Theorem AttachTo_surplus_incoming_panics :
  length (OutgoingStream.GetAudioTracks lib.ToLower lib.range
            outgoingOneAudioOneVideo surplusWorld) = 1
  ∧ length (OutgoingStream.GetVideoTracks lib.ToLower lib.range
              outgoingOneAudioOneVideo surplusWorld) = 1
  ∧ length (IncomingStream.GetAudioTracks lib.ToLower lib.range
              incomingTwoAudioOneVideo surplusWorld) = 2
  ∧ length (IncomingStream.GetVideoTracks lib.ToLower lib.range
              incomingTwoAudioOneVideo surplusWorld) = 1
  ∧ OutgoingStream.AttachTo lib.ToLower lib.rangeAt outgoingOneAudioOneVideo
      incomingTwoAudioOneVideo surplusWorld = Panic
  ∧ ∃ w', OutgoingStream.AttachTo lib.ToLower lib.rangeAt outgoingOneAudioOneVideo
            incomingOneAudioOneVideo surplusWorld = Ok ([0; 1], w').
Proof. split_and!; try by vm_compute. eexists. by vm_compute. Qed.

(** The panic does not depend on the orders in which the five ranges of the
    call visit the track maps, each on its own. *)
Lemma AttachTo_surplus_any_order
    (visit : OutgoingStream.RangeSite → gmap string ptr → list (string * ptr)) :
  (∀ site m, visit site m ≡ₚ map_to_list m) →
  OutgoingStream.AttachTo lib.ToLower visit outgoingOneAudioOneVideo incomingTwoAudioOneVideo
    surplusWorld = Panic.
Proof.
  intros Hvisit.
  assert (length (OutgoingStream.GetAudioTracks lib.ToLower
                    (visit OutgoingStream.InOutgoingAudio) outgoingOneAudioOneVideo
                    surplusWorld) = 1) as Hout.
  { unfold OutgoingStream.GetAudioTracks, OutgoingStream.ofKind. by rewrite Hvisit. }
  assert (length (IncomingStream.GetAudioTracks lib.ToLower
                    (visit OutgoingStream.InIncomingAudio) incomingTwoAudioOneVideo
                    surplusWorld) = 2) as Hin.
  { unfold IncomingStream.GetAudioTracks, IncomingStream.ofKind. by rewrite Hvisit. }
  apply AttachTo_surplus_audio; rewrite ?Hout, ?Hin; lia.
Qed.

(** ** Membership edits compose *)

(** X1: a track added under an id the stream does not hold is the one
    [GetTrack] finds under that id, the other ids are where they were, and
    removing the track gives back the stream as it was before the addition;
    on both stream types. *)
Theorem AddTrack_GetTrack_RemoveTrack
    (i : IncomingStream.t) (o : OutgoingStream.t) (w : World) (p q : ptr)
    (incomingTrack : IncomingStreamTrack.t) (outgoingTrack : OutgoingStreamTrack.t) :
  incomingTracks w !! p = Some incomingTrack →
  outgoingTracks w !! q = Some outgoingTrack →
  IncomingStream.GetTrack i (IncomingStreamTrack.id incomingTrack) = None →
  OutgoingStream.GetTrack o (OutgoingStreamTrack.id outgoingTrack) = None →
  (∃ i1,
     IncomingStream.AddTrack i p w = Ok (None, i1)
     ∧ IncomingStream.GetTrack i1 (IncomingStreamTrack.id incomingTrack) = Some p
     ∧ (∀ key, key ≠ IncomingStreamTrack.id incomingTrack →
          IncomingStream.GetTrack i1 key = IncomingStream.GetTrack i key)
     ∧ IncomingStream.RemoveTrack i1 p w = Ok (None, i))
  ∧ (∃ o1,
       OutgoingStream.AddTrack o q w = Ok (tt, o1)
       ∧ OutgoingStream.GetTrack o1 (OutgoingStreamTrack.id outgoingTrack) = Some q
       ∧ (∀ key, key ≠ OutgoingStreamTrack.id outgoingTrack →
            OutgoingStream.GetTrack o1 key = OutgoingStream.GetTrack o key)
       ∧ OutgoingStream.RemoveTrack o1 q w = Ok (tt, o)).
Proof.
  unfold IncomingStream.GetTrack, OutgoingStream.GetTrack.
  intros Hp Hq Hi Ho. split.
  - eexists. unfold IncomingStream.AddTrack, IncomingStream.RemoveTrack.
    rewrite Hp. simpl. rewrite Hi. split_and!; [done|..].
    + simpl. apply lookup_insert_eq.
    + intros key Hkey. simpl. by apply lookup_insert_ne.
    + unfold IncomingStream.setTracks. simpl.
      rewrite delete_insert_id by done. by destruct i.
  - eexists. unfold OutgoingStream.AddTrack, OutgoingStream.RemoveTrack.
    rewrite Hq. simpl. rewrite Ho. split_and!; [done|..].
    + simpl. apply lookup_insert_eq.
    + intros key Hkey. simpl. by apply lookup_insert_ne.
    + unfold OutgoingStream.setTracks. simpl.
      rewrite delete_insert_id by done. by destruct o.
Qed.

Lemma AddTrack_GetTrack_RemoveTrack_witness :
  (incomingTracks audioWorld !! 0 = Some (IncomingStreamTrack.New "audio" "audio0" (Some 9%N) ∅)
   ∧ outgoingTracks audioWorld !! 0
     = Some (OutgoingStreamTrack.new "audio" "audio0" 7%N (native.NewRTPOutgoingSourceGroup 0%N))
   ∧ IncomingStream.GetTrack liveIncoming "audio0" = None
   ∧ OutgoingStream.GetTrack liveOutgoing "audio0" = None)
  ∧ (∃ i1,
       IncomingStream.AddTrack liveIncoming 0 audioWorld = Ok (None, i1)
       ∧ IncomingStream.GetTrack i1 "audio0" = Some 0
       ∧ (∀ key, key ≠ "audio0" →
            IncomingStream.GetTrack i1 key = IncomingStream.GetTrack liveIncoming key)
       ∧ IncomingStream.RemoveTrack i1 0 audioWorld = Ok (None, liveIncoming))
  ∧ (∃ o1,
       OutgoingStream.AddTrack liveOutgoing 0 audioWorld = Ok (tt, o1)
       ∧ OutgoingStream.GetTrack o1 "audio0" = Some 0
       ∧ (∀ key, key ≠ "audio0" →
            OutgoingStream.GetTrack o1 key = OutgoingStream.GetTrack liveOutgoing key)
       ∧ OutgoingStream.RemoveTrack o1 0 audioWorld = Ok (tt, liveOutgoing)).
Proof.
  split; [by vm_compute|].
  apply (AddTrack_GetTrack_RemoveTrack liveIncoming liveOutgoing audioWorld 0 0
           (IncomingStreamTrack.New "audio" "audio0" (Some 9%N) ∅)
           (OutgoingStreamTrack.new "audio" "audio0" 7%N (native.NewRTPOutgoingSourceGroup 0%N)));
    by vm_compute.
Defined.

(** X2: [RemoveTrack] removes by id. Whatever track object the stream holds
    under the id of the track it is handed, that entry is gone afterwards,
    the other entries stay, no error is handed back, and a stream that holds
    nothing under the id is returned as it was; on both stream types. *)
Theorem RemoveTrack_by_id
    (i : IncomingStream.t) (o : OutgoingStream.t) (w : World) (p q : ptr)
    (incomingTrack : IncomingStreamTrack.t) (outgoingTrack : OutgoingStreamTrack.t) :
  incomingTracks w !! p = Some incomingTrack →
  outgoingTracks w !! q = Some outgoingTrack →
  (∃ r i1,
     IncomingStream.RemoveTrack i p w = Ok (r, i1)
     ∧ reported r = None
     ∧ IncomingStream.GetTrack i1 (IncomingStreamTrack.id incomingTrack) = None
     ∧ (∀ key, key ≠ IncomingStreamTrack.id incomingTrack →
          IncomingStream.GetTrack i1 key = IncomingStream.GetTrack i key)
     ∧ (IncomingStream.GetTrack i (IncomingStreamTrack.id incomingTrack) = None → i1 = i))
  ∧ (∃ r o1,
       OutgoingStream.RemoveTrack o q w = Ok (r, o1)
       ∧ reported r = None
       ∧ OutgoingStream.GetTrack o1 (OutgoingStreamTrack.id outgoingTrack) = None
       ∧ (∀ key, key ≠ OutgoingStreamTrack.id outgoingTrack →
            OutgoingStream.GetTrack o1 key = OutgoingStream.GetTrack o key)
       ∧ (OutgoingStream.GetTrack o (OutgoingStreamTrack.id outgoingTrack) = None → o1 = o)).
Proof.
  unfold IncomingStream.GetTrack, OutgoingStream.GetTrack.
  intros Hp Hq. split.
  - eexists _, _. unfold IncomingStream.RemoveTrack. rewrite Hp. simpl.
    split_and!; [done|done|..].
    + apply lookup_delete_eq.
    + intros key Hkey. simpl. by apply lookup_delete_ne.
    + intros Habsent. unfold IncomingStream.setTracks.
      rewrite delete_id by done. by destruct i.
  - eexists _, _. unfold OutgoingStream.RemoveTrack. rewrite Hq. simpl.
    split_and!; [done|done|..].
    + apply lookup_delete_eq.
    + intros key Hkey. simpl. by apply lookup_delete_ne.
    + intros Habsent. unfold OutgoingStream.setTracks.
      rewrite delete_id by done. by destruct o.
Qed.

Lemma RemoveTrack_by_id_witness :
  (incomingTracks audioWorld !! 0 = Some (IncomingStreamTrack.New "audio" "audio0" (Some 9%N) ∅)
   ∧ outgoingTracks audioWorld !! 0
     = Some (OutgoingStreamTrack.new "audio" "audio0" 7%N (native.NewRTPOutgoingSourceGroup 0%N)))
  ∧ (∃ r i1,
       IncomingStream.RemoveTrack incomingWithAudio 0 audioWorld = Ok (r, i1)
       ∧ reported r = None
       ∧ IncomingStream.GetTrack i1 "audio0" = None
       ∧ (∀ key, key ≠ "audio0" →
            IncomingStream.GetTrack i1 key = IncomingStream.GetTrack incomingWithAudio key)
       ∧ (IncomingStream.GetTrack incomingWithAudio "audio0" = None → i1 = incomingWithAudio))
  ∧ (∃ r o1,
       OutgoingStream.RemoveTrack outgoingWithAudio 0 audioWorld = Ok (r, o1)
       ∧ reported r = None
       ∧ OutgoingStream.GetTrack o1 "audio0" = None
       ∧ (∀ key, key ≠ "audio0" →
            OutgoingStream.GetTrack o1 key = OutgoingStream.GetTrack outgoingWithAudio key)
       ∧ (OutgoingStream.GetTrack outgoingWithAudio "audio0" = None → o1 = outgoingWithAudio)).
Proof.
  split; [by vm_compute|].
  apply (RemoveTrack_by_id incomingWithAudio outgoingWithAudio audioWorld 0 0
           (IncomingStreamTrack.New "audio" "audio0" (Some 9%N) ∅)
           (OutgoingStreamTrack.new "audio" "audio0" 7%N (native.NewRTPOutgoingSourceGroup 0%N)));
    by vm_compute.
Defined.

(** ** Snapshots of the track map *)

Section Snapshots.

Variable ToLower : string → string.
Variable range : gmap string ptr → list (string * ptr).
Hypothesis range_visits : ∀ m, range m ≡ₚ map_to_list m.

Lemma range_values (m : gmap string ptr) (p : ptr) :
  p ∈ (range m).*2 ↔ ∃ key, m !! key = Some p.
Proof.
  rewrite range_visits. split.
  - intros ([key p'] & -> & Hin)%list_elem_of_fmap. exists key.
    by apply elem_of_map_to_list.
  - intros [key Hkey]. apply (list_elem_of_fmap_2 snd _ (key, p)).
    by apply elem_of_map_to_list.
Qed.

Lemma range_length (m : gmap string ptr) : length (range m).*2 = size m.
Proof. by rewrite length_fmap, range_visits, length_map_to_list. Qed.

(** Two tests no element passes together select no more elements than
    there are. *)
Lemma filter_disjoint_length {A} (P Q : A → Prop)
    `{!∀ x, Decision (P x)} `{!∀ x, Decision (Q x)} (l : list A) :
  (∀ x, P x → Q x → False) →
  length (filter P l) + length (filter Q l) ≤ length l.
Proof.
  intros Hdisjoint. induction l as [|x l IH]; [done|].
  rewrite !filter_cons. destruct (decide (P x)) as [HP|?]; destruct (decide (Q x)) as [HQ|?];
    simpl; try lia.
  destruct (Hdisjoint x HP HQ).
Qed.

Lemma incoming_ofKind_elem (kind : string) (w : World) (ps : list ptr) (p : ptr) :
  p ∈ IncomingStream.ofKind ToLower kind w ps
  ↔ p ∈ ps ∧ ∃ obj, incomingTracks w !! p = Some obj
                 ∧ ToLower (IncomingStreamTrack.media obj) = kind.
Proof.
  unfold IncomingStream.ofKind, IncomingStream.hasKind. rewrite list_elem_of_filter.
  destruct (incomingTracks w !! p) as [obj|].
  - rewrite Is_true_true, bool_decide_eq_true. split.
    + intros [Hkind Hin]. split; [done|]. by exists obj.
    + intros [Hin (obj' & [= <-] & Hkind)]. done.
  - split; [by intros [[] _]|]. by intros [_ (obj & [=] & _)].
Qed.

Lemma outgoing_ofKind_elem (kind : string) (w : World) (ps : list ptr) (p : ptr) :
  p ∈ OutgoingStream.ofKind ToLower kind w ps
  ↔ p ∈ ps ∧ ∃ obj, outgoingTracks w !! p = Some obj
                 ∧ ToLower (OutgoingStreamTrack.media obj) = kind.
Proof.
  unfold OutgoingStream.ofKind, OutgoingStream.hasKind. rewrite list_elem_of_filter.
  destruct (outgoingTracks w !! p) as [obj|].
  - rewrite Is_true_true, bool_decide_eq_true. split.
    + intros [Hkind Hin]. split; [done|]. by exists obj.
    + intros [Hin (obj' & [= <-] & Hkind)]. done.
  - split; [by intros [[] _]|]. by intros [_ (obj & [=] & _)].
Qed.

(** Two tests no element passes together select, between them, elements
    of the list, each as often as it is there at most. *)
Lemma filter_disjoint_submseteq {A} (P Q : A → Prop)
    `{!∀ x, Decision (P x)} `{!∀ x, Decision (Q x)} (l : list A) :
  (∀ x, P x → Q x → False) →
  filter P l ++ filter Q l ⊆+ l.
Proof.
  intros Hdisjoint. induction l as [|x l IH]; [done|].
  rewrite !filter_cons. destruct (decide (P x)) as [HP|?]; destruct (decide (Q x)) as [HQ|?].
  - destruct (Hdisjoint x HP HQ).
  - simpl. by apply submseteq_skip.
  - rewrite <- Permutation_middle. by apply submseteq_skip.
  - by apply submseteq_cons.
Qed.

End Snapshots.

(** X3: the snapshots of an incoming stream, each taken by a range of its
    own over the track map. [GetTracks] hands back the pointers of the track
    map, one for each entry; [GetAudioTracks] and [GetVideoTracks] hand
    back the ones whose media kind is "audio" and "video" once lowered, each
    as often as [GetTracks] has it at most, the two taken together; no track
    is in both, and a track of another kind is in neither. Two snapshots of
    the same kind hold the same tracks, in orders that need not agree. *)
Theorem incoming_snapshots
    (ToLower : string → string)
    (range rangeAudio rangeVideo : gmap string ptr → list (string * ptr))
    (i : IncomingStream.t) (w : World) :
  (∀ m, range m ≡ₚ map_to_list m) →
  (∀ m, rangeAudio m ≡ₚ map_to_list m) →
  (∀ m, rangeVideo m ≡ₚ map_to_list m) →
  length (IncomingStream.GetTracks range i) = size (IncomingStream.Tracks i)
  ∧ (∀ p, p ∈ IncomingStream.GetTracks range i
          ↔ ∃ trackID, IncomingStream.GetTrack i trackID = Some p)
  ∧ IncomingStream.GetAudioTracks ToLower rangeAudio i w
      ++ IncomingStream.GetVideoTracks ToLower rangeVideo i w
    ⊆+ IncomingStream.GetTracks range i
  ∧ (∀ p, p ∈ IncomingStream.GetAudioTracks ToLower rangeAudio i w
          ↔ p ∈ IncomingStream.GetTracks range i
            ∧ ∃ obj, incomingTracks w !! p = Some obj
                   ∧ ToLower (IncomingStreamTrack.media obj) = "audio")
  ∧ (∀ p, p ∈ IncomingStream.GetVideoTracks ToLower rangeVideo i w
          ↔ p ∈ IncomingStream.GetTracks range i
            ∧ ∃ obj, incomingTracks w !! p = Some obj
                   ∧ ToLower (IncomingStreamTrack.media obj) = "video")
  ∧ (∀ p, p ∈ IncomingStream.GetAudioTracks ToLower rangeAudio i w →
          p ∉ IncomingStream.GetVideoTracks ToLower rangeVideo i w)
  ∧ length (IncomingStream.GetAudioTracks ToLower rangeAudio i w)
    + length (IncomingStream.GetVideoTracks ToLower rangeVideo i w)
    ≤ size (IncomingStream.Tracks i)
  ∧ IncomingStream.GetTracks rangeAudio i ≡ₚ IncomingStream.GetTracks range i
  ∧ IncomingStream.GetAudioTracks ToLower rangeVideo i w
    ≡ₚ IncomingStream.GetAudioTracks ToLower rangeAudio i w
  ∧ IncomingStream.GetVideoTracks ToLower rangeAudio i w
    ≡ₚ IncomingStream.GetVideoTracks ToLower rangeVideo i w.
Proof.
  intros Hvisits Haudio Hvideo.
  assert (∀ kind,
            IncomingStream.ofKind ToLower kind w (rangeAudio (IncomingStream.Tracks i)).*2
            ≡ₚ IncomingStream.ofKind ToLower kind w (range (IncomingStream.Tracks i)).*2)
    as Hkind_audio.
  { intros kind. unfold IncomingStream.ofKind. by rewrite Haudio, Hvisits. }
  assert (∀ kind,
            IncomingStream.ofKind ToLower kind w (rangeVideo (IncomingStream.Tracks i)).*2
            ≡ₚ IncomingStream.ofKind ToLower kind w (range (IncomingStream.Tracks i)).*2)
    as Hkind_video.
  { intros kind. unfold IncomingStream.ofKind. by rewrite Hvideo, Hvisits. }
  assert (∀ p q, IncomingStream.hasKind ToLower "audio" w p →
                 IncomingStream.hasKind ToLower "video" w q → p ≠ q) as Hdisjoint.
  { intros p q Hp Hq <-. unfold IncomingStream.hasKind in *.
    destruct (incomingTracks w !! p); [|done].
    apply bool_decide_unpack in Hp, Hq. by rewrite Hp in Hq. }
  assert (IncomingStream.ofKind ToLower "audio" w (range (IncomingStream.Tracks i)).*2
          ++ IncomingStream.ofKind ToLower "video" w (range (IncomingStream.Tracks i)).*2
          ⊆+ (range (IncomingStream.Tracks i)).*2) as Hboth.
  { apply filter_disjoint_submseteq. intros p Hp Hq. by apply (Hdisjoint p p). }
  unfold IncomingStream.GetTracks, IncomingStream.GetAudioTracks,
    IncomingStream.GetVideoTracks, IncomingStream.GetTrack.
  split_and!.
  - by apply range_length.
  - intros p. by apply range_values.
  - by rewrite Hkind_audio, Hkind_video.
  - intros p. rewrite Hkind_audio. apply incoming_ofKind_elem.
  - intros p. rewrite Hkind_video. apply incoming_ofKind_elem.
  - intros p (Hp & _)%list_elem_of_filter (Hq & _)%list_elem_of_filter.
    by apply (Hdisjoint p p).
  - rewrite <- (range_length range Hvisits), <- length_app, Hkind_audio, Hkind_video.
    by apply submseteq_length.
  - by rewrite Haudio, Hvisits.
  - by rewrite Hkind_audio, Hkind_video.
  - by rewrite Hkind_audio, Hkind_video.
Qed.

(** One range visits the map as [lib.range] does, another last first. *)
Lemma incoming_snapshots_witness :
  ((∀ m, lib.range m ≡ₚ map_to_list m)
   ∧ (∀ m, lib.rangeBack m ≡ₚ map_to_list m))
  ∧ IncomingStream.GetAudioTracks lib.ToLower lib.rangeBack incomingTwoAudioOneVideo surplusWorld
      ++ IncomingStream.GetVideoTracks lib.ToLower lib.range incomingTwoAudioOneVideo surplusWorld
    ⊆+ IncomingStream.GetTracks lib.range incomingTwoAudioOneVideo
  ∧ IncomingStream.GetAudioTracks lib.ToLower lib.range incomingTwoAudioOneVideo surplusWorld
    ≡ₚ IncomingStream.GetAudioTracks lib.ToLower lib.rangeBack incomingTwoAudioOneVideo surplusWorld.
Proof.
  assert (∀ m, lib.range m ≡ₚ map_to_list m) as Hrange.
  { intros m. reflexivity. }
  assert (∀ m, lib.rangeBack m ≡ₚ map_to_list m) as Hback.
  { intros m. apply reverse_Permutation. }
  split; [exact (conj Hrange Hback)|].
  pose proof (incoming_snapshots lib.ToLower lib.range lib.rangeBack lib.range
                incomingTwoAudioOneVideo surplusWorld Hrange Hback Hrange)
    as (_ & _ & Hboth & _ & _ & _ & _ & _ & Haudio & _).
  exact (conj Hboth Haudio).
Defined.

(** X4: the snapshots of an outgoing stream, each taken by a range of its
    own over the track map. [GetTracks] hands back the pointers of the track
    map, one for each entry; [GetAudioTracks] and [GetVideoTracks] hand
    back the ones whose media kind is "audio" and "video" once lowered, each
    as often as [GetTracks] has it at most, the two taken together; no track
    is in both, and a track of another kind is in neither. Two snapshots of
    the same kind hold the same tracks, in orders that need not agree. *)
Theorem outgoing_snapshots
    (ToLower : string → string)
    (range rangeAudio rangeVideo : gmap string ptr → list (string * ptr))
    (o : OutgoingStream.t) (w : World) :
  (∀ m, range m ≡ₚ map_to_list m) →
  (∀ m, rangeAudio m ≡ₚ map_to_list m) →
  (∀ m, rangeVideo m ≡ₚ map_to_list m) →
  length (OutgoingStream.GetTracks range o) = size (OutgoingStream.tracks o)
  ∧ (∀ p, p ∈ OutgoingStream.GetTracks range o
          ↔ ∃ trackID, OutgoingStream.GetTrack o trackID = Some p)
  ∧ OutgoingStream.GetAudioTracks ToLower rangeAudio o w
      ++ OutgoingStream.GetVideoTracks ToLower rangeVideo o w
    ⊆+ OutgoingStream.GetTracks range o
  ∧ (∀ p, p ∈ OutgoingStream.GetAudioTracks ToLower rangeAudio o w
          ↔ p ∈ OutgoingStream.GetTracks range o
            ∧ ∃ obj, outgoingTracks w !! p = Some obj
                   ∧ ToLower (OutgoingStreamTrack.media obj) = "audio")
  ∧ (∀ p, p ∈ OutgoingStream.GetVideoTracks ToLower rangeVideo o w
          ↔ p ∈ OutgoingStream.GetTracks range o
            ∧ ∃ obj, outgoingTracks w !! p = Some obj
                   ∧ ToLower (OutgoingStreamTrack.media obj) = "video")
  ∧ (∀ p, p ∈ OutgoingStream.GetAudioTracks ToLower rangeAudio o w →
          p ∉ OutgoingStream.GetVideoTracks ToLower rangeVideo o w)
  ∧ length (OutgoingStream.GetAudioTracks ToLower rangeAudio o w)
    + length (OutgoingStream.GetVideoTracks ToLower rangeVideo o w)
    ≤ size (OutgoingStream.tracks o)
  ∧ OutgoingStream.GetTracks rangeAudio o ≡ₚ OutgoingStream.GetTracks range o
  ∧ OutgoingStream.GetAudioTracks ToLower rangeVideo o w
    ≡ₚ OutgoingStream.GetAudioTracks ToLower rangeAudio o w
  ∧ OutgoingStream.GetVideoTracks ToLower rangeAudio o w
    ≡ₚ OutgoingStream.GetVideoTracks ToLower rangeVideo o w.
Proof.
  intros Hvisits Haudio Hvideo.
  assert (∀ kind,
            OutgoingStream.ofKind ToLower kind w (rangeAudio (OutgoingStream.tracks o)).*2
            ≡ₚ OutgoingStream.ofKind ToLower kind w (range (OutgoingStream.tracks o)).*2)
    as Hkind_audio.
  { intros kind. unfold OutgoingStream.ofKind. by rewrite Haudio, Hvisits. }
  assert (∀ kind,
            OutgoingStream.ofKind ToLower kind w (rangeVideo (OutgoingStream.tracks o)).*2
            ≡ₚ OutgoingStream.ofKind ToLower kind w (range (OutgoingStream.tracks o)).*2)
    as Hkind_video.
  { intros kind. unfold OutgoingStream.ofKind. by rewrite Hvideo, Hvisits. }
  assert (∀ p q, OutgoingStream.hasKind ToLower "audio" w p →
                 OutgoingStream.hasKind ToLower "video" w q → p ≠ q) as Hdisjoint.
  { intros p q Hp Hq <-. unfold OutgoingStream.hasKind in *.
    destruct (outgoingTracks w !! p); [|done].
    apply bool_decide_unpack in Hp, Hq. by rewrite Hp in Hq. }
  assert (OutgoingStream.ofKind ToLower "audio" w (range (OutgoingStream.tracks o)).*2
          ++ OutgoingStream.ofKind ToLower "video" w (range (OutgoingStream.tracks o)).*2
          ⊆+ (range (OutgoingStream.tracks o)).*2) as Hboth.
  { apply filter_disjoint_submseteq. intros p Hp Hq. by apply (Hdisjoint p p). }
  unfold OutgoingStream.GetTracks, OutgoingStream.GetAudioTracks,
    OutgoingStream.GetVideoTracks, OutgoingStream.GetTrack.
  split_and!.
  - by apply range_length.
  - intros p. by apply range_values.
  - by rewrite Hkind_audio, Hkind_video.
  - intros p. rewrite Hkind_audio. apply outgoing_ofKind_elem.
  - intros p. rewrite Hkind_video. apply outgoing_ofKind_elem.
  - intros p (Hp & _)%list_elem_of_filter (Hq & _)%list_elem_of_filter.
    by apply (Hdisjoint p p).
  - rewrite <- (range_length range Hvisits), <- length_app, Hkind_audio, Hkind_video.
    by apply submseteq_length.
  - by rewrite Haudio, Hvisits.
  - by rewrite Hkind_audio, Hkind_video.
  - by rewrite Hkind_audio, Hkind_video.
Qed.

(** One range visits the map as [lib.range] does, another last first. *)
Lemma outgoing_snapshots_witness :
  ((∀ m, lib.range m ≡ₚ map_to_list m)
   ∧ (∀ m, lib.rangeBack m ≡ₚ map_to_list m))
  ∧ OutgoingStream.GetAudioTracks lib.ToLower lib.rangeBack outgoingOneAudioOneVideo surplusWorld
      ++ OutgoingStream.GetVideoTracks lib.ToLower lib.range outgoingOneAudioOneVideo surplusWorld
    ⊆+ OutgoingStream.GetTracks lib.range outgoingOneAudioOneVideo
  ∧ OutgoingStream.GetAudioTracks lib.ToLower lib.range outgoingOneAudioOneVideo surplusWorld
    ≡ₚ OutgoingStream.GetAudioTracks lib.ToLower lib.rangeBack outgoingOneAudioOneVideo surplusWorld.
Proof.
  assert (∀ m, lib.range m ≡ₚ map_to_list m) as Hrange.
  { intros m. reflexivity. }
  assert (∀ m, lib.rangeBack m ≡ₚ map_to_list m) as Hback.
  { intros m. apply reverse_Permutation. }
  split; [exact (conj Hrange Hback)|].
  pose proof (outgoing_snapshots lib.ToLower lib.range lib.rangeBack lib.range
                outgoingOneAudioOneVideo surplusWorld Hrange Hback Hrange)
    as (_ & _ & Hboth & _ & _ & _ & _ & _ & Haudio & _).
  exact (conj Hboth Haudio).
Defined.

(** ** Media kind and frame type *)

(** X5: the kind lists compare the lowered media kind, [CreateTrack] compares
    the media kind as it is written. For a descriptor whose kind is "video"
    once lowered but is not written "video", the outgoing [CreateTrack]
    creates and registers a source group of frame type 0, the audio type,
    and the track it returns is among the video tracks of the stream. *)
Theorem CreateTrack_kind_letter_case
    (ToLower : string → string)
    (GetSourceGroup : sdp.TrackInfo → string → option sdp.SourceGroupInfo)
    (range : gmap string ptr → list (string * ptr))
    (o : OutgoingStream.t) (track : sdp.TrackInfo)
    (transport : native.DTLSICETransport) (w : World) :
  (∀ m, range m ≡ₚ map_to_list m) →
  OutgoingStream.tracks o !! sdp.id track = None →
  OutgoingStream.transport o = Some transport →
  singleFlowReadable GetSourceGroup track →
  ToLower (sdp.media track) = "video" →
  sdp.media track ≠ "video" →
  ∃ p o' w' obj,
    OutgoingStream.CreateTrack GetSourceGroup o track w = Ok (Some p, o', w')
    ∧ outgoingTracks w' !! p = Some obj
    ∧ native.out_type (OutgoingStreamTrack.source obj) = 0%N
    ∧ AddOutgoingSourceGroup transport (OutgoingStreamTrack.source obj) ∈ calls w'
    ∧ p ∈ OutgoingStream.GetVideoTracks ToLower range o' w'
    ∧ p ∉ OutgoingStream.GetAudioTracks ToLower range o' w'.
Proof.
  intros Hvisits Hfresh Hlive Hreadable Hlower Hwritten.
  destruct (outgoing_resolve_Ok GetSourceGroup track (mediaTypeOf track) Hreadable)
    as (source & first & Hresolve & Htype & _).
  rewrite (outgoing_CreateTrack_fresh GetSourceGroup o track transport source w)
    by done.
  eexists _, _, _, _. split; [done|].
  assert (∀ cs h, outgoingTracks (callAll cs (setOutgoingTracks h
            (call (AddOutgoingSourceGroup transport source) w))) = h) as Hheap by done.
  split_and!.
  - rewrite Hheap. by apply list_lookup_middle.
  - simpl. rewrite Htype. unfold mediaTypeOf. by rewrite decide_False.
  - simpl. set_solver.
  - unfold OutgoingStream.GetVideoTracks. apply outgoing_ofKind_elem.
    split.
    + apply (range_values range Hvisits). exists (sdp.id track). simpl. apply lookup_insert_eq.
    + eexists. rewrite Hheap. split; [by apply list_lookup_middle|done].
  - unfold OutgoingStream.GetAudioTracks.
    intros (_ & obj & Hobj & Hkind)%outgoing_ofKind_elem.
    rewrite Hheap, list_lookup_middle in Hobj by done. injection Hobj as <-.
    simpl in Hkind. by rewrite Hlower in Hkind.
Qed.

Lemma CreateTrack_kind_letter_case_witness :
  ((∀ m, lib.range m ≡ₚ map_to_list m)
   ∧ OutgoingStream.tracks liveOutgoing !! sdp.id videoUpperCase = None
   ∧ OutgoingStream.transport liveOutgoing = Some 7%N
   ∧ singleFlowReadable lib.GetSourceGroup videoUpperCase
   ∧ lib.ToLower (sdp.media videoUpperCase) = "video"
   ∧ sdp.media videoUpperCase ≠ "video")
  ∧ ∃ p o' w' obj,
    OutgoingStream.CreateTrack lib.GetSourceGroup liveOutgoing videoUpperCase emptyWorld
      = Ok (Some p, o', w')
    ∧ outgoingTracks w' !! p = Some obj
    ∧ native.out_type (OutgoingStreamTrack.source obj) = 0%N
    ∧ AddOutgoingSourceGroup 7%N (OutgoingStreamTrack.source obj) ∈ calls w'
    ∧ p ∈ OutgoingStream.GetVideoTracks lib.ToLower lib.range o' w'
    ∧ p ∉ OutgoingStream.GetAudioTracks lib.ToLower lib.range o' w'.
Proof.
  assert (singleFlowReadable lib.GetSourceGroup videoUpperCase) as Hreadable.
  { split_and!; [simpl; lia|intros ? [=]|intros ? [=]]. }
  split; [split_and!; done|].
  by apply (CreateTrack_kind_letter_case lib.ToLower lib.GetSourceGroup lib.range
              liveOutgoing videoUpperCase 7%N emptyWorld).
Defined.

(** ** [AttachTo]: when it returns, and what *)

Section Pairing.

Variable ToLower : string → string.
Variable range : OutgoingStream.RangeSite → gmap string ptr → list (string * ptr).

Implicit Types (o : OutgoingStream.t) (w : World) (h : list OutgoingStreamTrack.t).

Local Abbreviation outAudios o w :=
  (OutgoingStream.GetAudioTracks ToLower (range OutgoingStream.InOutgoingAudio) o w).
Local Abbreviation outVideos o w :=
  (OutgoingStream.GetVideoTracks ToLower (range OutgoingStream.InOutgoingVideo) o w).
Local Abbreviation inAudios i w :=
  (IncomingStream.GetAudioTracks ToLower (range OutgoingStream.InIncomingAudio) i w).
Local Abbreviation inVideos i w :=
  (IncomingStream.GetVideoTracks ToLower (range OutgoingStream.InIncomingVideo) i w).

Lemma attachKind_Ok (outgoing incoming : list ptr) (st : list ptr * World) :
  ¬ surplus outgoing incoming →
  OutgoingStream.attachKind outgoing incoming st =
  Ok (st.1 ++ take (length incoming) outgoing,
      setOutgoingTracks (paired outgoing incoming (outgoingTracks st.2)) st.2).
Proof.
  intros Hfit. destruct outgoing as [|out outgoing].
  - rewrite attachKind_none. destruct st as [transponders w]. unfold paired. simpl.
    by rewrite take_nil, app_nil_r, setOutgoingTracks_same.
  - apply attachKind_paired. unfold surplus in Hfit. simpl in *. lia.
Qed.

Lemma attachKind_Panic (outgoing incoming : list ptr) (st : list ptr * World) :
  OutgoingStream.attachKind outgoing incoming st = Panic ↔ surplus outgoing incoming.
Proof.
  split.
  - intros Hpanic. destruct (decide (surplus outgoing incoming)) as [|Hfit]; [done|].
    by rewrite attachKind_Ok in Hpanic.
  - intros [Hsome Hmore]. by apply attachKind_surplus.
Qed.

Lemma paired_media outgoing incoming h (p : ptr) :
  OutgoingStreamTrack.media <$> paired outgoing incoming h !! p
  = OutgoingStreamTrack.media <$> h !! p.
Proof.
  unfold paired. revert h.
  induction (zip outgoing incoming) as [|[out track] pairs IH]; intros h; [done|].
  simpl. rewrite IH. destruct (decide (out = p)) as [->|Hne].
  - rewrite list_lookup_alter_eq. by destruct (h !! p).
  - by rewrite list_lookup_alter_ne.
Qed.

Lemma paired_length outgoing incoming h :
  length (paired outgoing incoming h) = length h.
Proof.
  unfold paired. revert h.
  induction (zip outgoing incoming) as [|[out track] pairs IH]; intros h; [done|].
  simpl. by rewrite IH, length_alter.
Qed.

(** The kind lists read the media kind of the tracks and nothing else. *)
Lemma ofKind_media kind w w' ps :
  (∀ p, OutgoingStreamTrack.media <$> outgoingTracks w' !! p
        = OutgoingStreamTrack.media <$> outgoingTracks w !! p) →
  OutgoingStream.ofKind ToLower kind w' ps = OutgoingStream.ofKind ToLower kind w ps.
Proof.
  intros Hmedia. unfold OutgoingStream.ofKind. apply list_filter_iff. intros p.
  by rewrite !hasKind_media, Hmedia.
Qed.

(** Detaching and pairing change the media kind of no track. *)
Lemma attached_ofKind kind outgoing incoming (detached : list ptr) w ps :
  OutgoingStream.ofKind ToLower kind
    (setOutgoingTracks
       (paired outgoing incoming
          (alterAll OutgoingStreamTrack.Detach detached (outgoingTracks w))) w) ps
  = OutgoingStream.ofKind ToLower kind w ps.
Proof.
  apply ofKind_media. intros p. simpl.
  by rewrite paired_media, (alterAll_lookup_fmap OutgoingStreamTrack.media).
Qed.

(** [AttachTo] when neither kind has a surplus of incoming tracks. *)
Lemma AttachTo_Ok o (incomingStream : IncomingStream.t) w :
  ¬ surplus (outAudios o w) (inAudios incomingStream w) →
  ¬ surplus (outVideos o w) (inVideos incomingStream w) →
  OutgoingStream.AttachTo ToLower range o incomingStream w =
  Ok (take (length (inAudios incomingStream w)) (outAudios o w)
      ++ take (length (inVideos incomingStream w)) (outVideos o w),
      attached ToLower range o incomingStream w).
Proof.
  intros Haudio Hvideo. unfold OutgoingStream.AttachTo.
  unfold OutgoingStream.GetAudioTracks, OutgoingStream.GetVideoTracks in *.
  rewrite Detach_ofKind.
  assert (∀ site h, IncomingStream.GetAudioTracks ToLower (range site) incomingStream
                      (setOutgoingTracks h w)
                    = IncomingStream.GetAudioTracks ToLower (range site) incomingStream w)
    as Hin_audio by done.
  assert (∀ site h, IncomingStream.GetVideoTracks ToLower (range site) incomingStream
                      (setOutgoingTracks h w)
                    = IncomingStream.GetVideoTracks ToLower (range site) incomingStream w)
    as Hin_video by done.
  rewrite Detach_alterAll, Hin_audio, attachKind_Ok by done. simpl.
  assert (∀ h h', setOutgoingTracks h' (setOutgoingTracks h w) = setOutgoingTracks h' w)
    as Hset by done.
  rewrite Hset, attached_ofKind, Hin_video.
  rewrite attachKind_Ok by done. simpl. by rewrite Hset.
Qed.

(** [AttachTo] panics exactly on a surplus of incoming tracks of a kind. *)
Lemma AttachTo_Panic o (incomingStream : IncomingStream.t) w :
  OutgoingStream.AttachTo ToLower range o incomingStream w = Panic
  ↔ surplus (outAudios o w) (inAudios incomingStream w)
    ∨ surplus (outVideos o w) (inVideos incomingStream w).
Proof.
  destruct (decide (surplus (outAudios o w) (inAudios incomingStream w))) as [Haudio|Haudio].
  { destruct Haudio as [Hsome Hmore].
    rewrite (AttachTo_surplus_audio ToLower range o incomingStream w Hsome Hmore).
    split; [|done]. intros _. by left. }
  destruct (decide (surplus (outVideos o w) (inVideos incomingStream w))) as [Hvideo|Hvideo].
  { assert (OutgoingStream.AttachTo ToLower range o incomingStream w = Panic) as ->.
    { unfold OutgoingStream.AttachTo.
      unfold OutgoingStream.GetAudioTracks, OutgoingStream.GetVideoTracks in *.
      rewrite Detach_ofKind, Detach_alterAll.
      assert (∀ h, IncomingStream.GetAudioTracks ToLower
                     (range OutgoingStream.InIncomingAudio) incomingStream
                     (setOutgoingTracks h w)
                   = inAudios incomingStream w) as -> by done.
      rewrite attachKind_Ok by done. simpl.
      assert (∀ h h', setOutgoingTracks h' (setOutgoingTracks h w) = setOutgoingTracks h' w)
        as -> by done.
      rewrite attached_ofKind.
      by apply attachKind_Panic. }
    split; [|done]. intros _. by right. }
  rewrite AttachTo_Ok by done. split; [done|]. by intros [|].
Qed.

Lemma AttachTo_Ok_inv o (incomingStream : IncomingStream.t) w transponders w' :
  OutgoingStream.AttachTo ToLower range o incomingStream w = Ok (transponders, w') →
  transponders
  = take (length (inAudios incomingStream w)) (outAudios o w)
    ++ take (length (inVideos incomingStream w)) (outVideos o w)
  ∧ w' = attached ToLower range o incomingStream w
  ∧ ¬ surplus (outAudios o w) (inAudios incomingStream w)
  ∧ ¬ surplus (outVideos o w) (inVideos incomingStream w).
Proof.
  intros Hok.
  destruct (decide (surplus (outAudios o w) (inAudios incomingStream w))) as [Haudio|Haudio].
  { assert (OutgoingStream.AttachTo ToLower range o incomingStream w = Panic) as Hpanic
      by (apply AttachTo_Panic; by left).
    by rewrite Hpanic in Hok. }
  destruct (decide (surplus (outVideos o w) (inVideos incomingStream w))) as [Hvideo|Hvideo].
  { assert (OutgoingStream.AttachTo ToLower range o incomingStream w = Panic) as Hpanic
      by (apply AttachTo_Panic; by right).
    by rewrite Hpanic in Hok. }
  rewrite AttachTo_Ok in Hok by done. by injection Hok as <- <-.
Qed.

Lemma take_elem {A} (l : list A) (n : nat) (x : A) : x ∈ take n l → x ∈ l.
Proof. intros (j & Hj & _)%elem_of_take. by eapply list_elem_of_lookup_2. Qed.

Lemma paired_cons out outgoing track incoming h :
  paired (out :: outgoing) (track :: incoming) h
  = paired outgoing incoming (alter (OutgoingStreamTrack.AttachTo track) out h).
Proof. done. Qed.

(** A track beyond the incoming ones, or not among the outgoing ones, is
    left alone by the pairing. *)
Lemma paired_lookup_other outgoing incoming h (q : ptr) :
  q ∉ take (length incoming) outgoing → paired outgoing incoming h !! q = h !! q.
Proof.
  revert incoming h. induction outgoing as [|out outgoing IH]; intros incoming h Hq.
  - done.
  - destruct incoming as [|track incoming]; [done|].
    simpl in Hq. apply not_elem_of_cons in Hq as [Hne Hq].
    rewrite paired_cons, IH by done. by rewrite list_lookup_alter_ne.
Qed.

(** A track among the outgoing ones that have an incoming track at their
    position is left with a Transponder that forwards from one of the
    incoming tracks. *)
Lemma paired_attachedTo outgoing incoming h (q : ptr) :
  q ∈ take (length incoming) outgoing → is_Some (h !! q) →
  ∃ p, p ∈ incoming
    ∧ OutgoingStreamTrack.transponder <$> paired outgoing incoming h !! q
      = Some (Some {| Transponder.incoming := Some p |}).
Proof.
  revert incoming h. induction outgoing as [|out outgoing IH]; intros incoming h Hq Hsome.
  - rewrite take_nil in Hq. by apply elem_of_nil in Hq.
  - destruct incoming as [|track incoming]; [by apply elem_of_nil in Hq|].
    rewrite paired_cons.
    destruct (decide (q ∈ take (length incoming) outgoing)) as [Hlater|Hlast].
    + destruct (IH incoming (alter (OutgoingStreamTrack.AttachTo track) out h) Hlater)
        as (p & Hp & Hattached).
      { apply lookup_lt_is_Some. rewrite length_alter. by apply lookup_lt_is_Some. }
      exists p. split; [|done]. apply elem_of_cons. by right.
    + simpl in Hq. apply elem_of_cons in Hq as [->|Hq]; [|done].
      exists track. split; [apply elem_of_cons; by left|].
      rewrite paired_lookup_other, list_lookup_alter_eq by done.
      destruct Hsome as [obj ->]. done.
Qed.

(** The tracks of the two kinds are not the same. *)
Lemma outgoing_kinds_disjoint w (audios videos : list ptr) (q : ptr) :
  q ∈ OutgoingStream.ofKind ToLower "audio" w audios →
  q ∈ OutgoingStream.ofKind ToLower "video" w videos → False.
Proof.
  intros (_ & obj & Hobj & Hkind)%outgoing_ofKind_elem
         (_ & obj' & Hobj' & Hkind')%outgoing_ofKind_elem.
  rewrite Hobj in Hobj'. injection Hobj' as <-. by rewrite Hkind in Hkind'.
Qed.

(** What [AttachTo] leaves of the tracks it hands back the Transponders of,
    and of the other tracks. *)
Lemma attached_effect o (incomingStream : IncomingStream.t) w :
  (∀ q, q ∈ take (length (inAudios incomingStream w)) (outAudios o w) →
     ∃ p, p ∈ inAudios incomingStream w
       ∧ attachedTo (attached ToLower range o incomingStream w) q p)
  ∧ (∀ q, q ∈ take (length (inVideos incomingStream w)) (outVideos o w) →
       ∃ p, p ∈ inVideos incomingStream w
         ∧ attachedTo (attached ToLower range o incomingStream w) q p)
  ∧ (∀ q, q ∉ take (length (inAudios incomingStream w)) (outAudios o w)
              ++ take (length (inVideos incomingStream w)) (outVideos o w) →
       outgoingTracks (attached ToLower range o incomingStream w) !! q
       = if decide (q ∈ OutgoingStream.GetTracks (range OutgoingStream.InDetach) o)
         then OutgoingStreamTrack.Detach <$> outgoingTracks w !! q
         else outgoingTracks w !! q).
Proof.
  unfold attachedTo, attached. simpl.
  set (h0 := alterAll OutgoingStreamTrack.Detach
               (OutgoingStream.GetTracks (range OutgoingStream.InDetach) o) (outgoingTracks w)).
  assert (∀ q kind ps, q ∈ OutgoingStream.ofKind ToLower kind w ps → is_Some (h0 !! q))
    as Hsome.
  { intros q kind ps (_ & obj & Hobj & _)%outgoing_ofKind_elem.
    apply lookup_lt_is_Some. unfold h0. rewrite alterAll_length.
    by eapply lookup_lt_Some. }
  split_and!.
  - intros q Hq. rewrite paired_lookup_other.
    + apply paired_attachedTo; [done|]. eapply Hsome, take_elem, Hq.
    + intros Hvideo%take_elem. apply take_elem in Hq.
      by eapply outgoing_kinds_disjoint.
  - intros q Hq. apply paired_attachedTo; [done|].
    apply lookup_lt_is_Some. rewrite paired_length. apply lookup_lt_is_Some.
    eapply Hsome, take_elem, Hq.
  - intros q [Haudio Hvideo]%not_elem_of_app.
    rewrite !paired_lookup_other by done. unfold h0.
    by rewrite alterAll_lookup by apply OutgoingStreamTrack_Detach_idemp.
Qed.

End Pairing.



(** ** [AttachTo]: which track is paired with which *)

Section Positions.

Variable ToLower : string → string.
Variable range : OutgoingStream.RangeSite → gmap string ptr → list (string * ptr).
Hypothesis range_visits : ∀ site m, range site m ≡ₚ map_to_list m.

Implicit Types (o : OutgoingStream.t) (w : World) (h : list OutgoingStreamTrack.t).

Local Abbreviation outAudios o w :=
  (OutgoingStream.GetAudioTracks ToLower (range OutgoingStream.InOutgoingAudio) o w).
Local Abbreviation outVideos o w :=
  (OutgoingStream.GetVideoTracks ToLower (range OutgoingStream.InOutgoingVideo) o w).
Local Abbreviation inAudios i w :=
  (IncomingStream.GetAudioTracks ToLower (range OutgoingStream.InIncomingAudio) i w).
Local Abbreviation inVideos i w :=
  (IncomingStream.GetVideoTracks ToLower (range OutgoingStream.InIncomingVideo) i w).

(** The outgoing track at a position is attached to the incoming track at
    that position. *)
Lemma paired_lookup_at outgoing incoming h (j : nat) (q p : ptr) :
  NoDup outgoing → outgoing !! j = Some q → incoming !! j = Some p →
  paired outgoing incoming h !! q = OutgoingStreamTrack.AttachTo p <$> h !! q.
Proof.
  revert incoming h j. induction outgoing as [|out outgoing IH]; intros incoming h j Hnodup Hq Hp.
  - done.
  - destruct incoming as [|track incoming]; [done|].
    apply NoDup_cons in Hnodup as [Hout Hnodup]. rewrite paired_cons.
    destruct j as [|j]; simpl in Hq, Hp.
    + injection Hq as ->. injection Hp as ->.
      rewrite paired_lookup_other.
      * by rewrite list_lookup_alter_eq.
      * intros Hin. apply Hout. by eapply take_elem.
    + rewrite (IH incoming _ j) by done.
      rewrite list_lookup_alter_ne; [done|].
      intros ->. apply Hout. by eapply list_elem_of_lookup_2.
Qed.

(** Each range over the track map visits the tracks the stream holds. *)
Lemma heldBy_range o (site : OutgoingStream.RangeSite) (q : ptr) :
  q ∈ (range site (OutgoingStream.tracks o)).*2 ↔ heldBy o q.
Proof. apply (range_values (range site) (range_visits site)). Qed.

(** A stream that holds no track under two ids is visited without
    repetition. *)
Lemma range_NoDup o (site : OutgoingStream.RangeSite) :
  (∀ trackID trackID' q,
     OutgoingStream.GetTrack o trackID = Some q →
     OutgoingStream.GetTrack o trackID' = Some q → trackID = trackID') →
  NoDup (range site (OutgoingStream.tracks o)).*2.
Proof.
  intros Hinj. rewrite range_visits. apply NoDup_fmap_2_strong; [|apply NoDup_map_to_list].
  intros [key q] [key' q'] Hq%elem_of_map_to_list Hq'%elem_of_map_to_list. simpl.
  intros <-. f_equal. by eapply Hinj.
Qed.

(** The pairing by position, when the ranges visit no track twice. *)
Lemma attached_positions o (incomingStream : IncomingStream.t) w :
  NoDup (map_to_list (OutgoingStream.tracks o)).*2 →
  (∀ j q p,
     outAudios o w !! j = Some q → inAudios incomingStream w !! j = Some p →
     ∃ obj, outgoingTracks w !! q = Some obj
       ∧ outgoingTracks (attached ToLower range o incomingStream w) !! q
         = Some (OutgoingStreamTrack.AttachTo p (OutgoingStreamTrack.Detach obj))
       ∧ attachedTo (attached ToLower range o incomingStream w) q p)
  ∧ (∀ j q p,
       outVideos o w !! j = Some q → inVideos incomingStream w !! j = Some p →
       ∃ obj, outgoingTracks w !! q = Some obj
         ∧ outgoingTracks (attached ToLower range o incomingStream w) !! q
           = Some (OutgoingStreamTrack.AttachTo p (OutgoingStreamTrack.Detach obj))
         ∧ attachedTo (attached ToLower range o incomingStream w) q p).
Proof.
  intros Hnodup.
  assert (∀ site, NoDup (range site (OutgoingStream.tracks o)).*2) as Hsites.
  { intros site. by rewrite range_visits. }
  assert (∀ q kind site,
            q ∈ OutgoingStream.ofKind ToLower kind w (range site (OutgoingStream.tracks o)).*2 →
            ∃ obj, outgoingTracks w !! q = Some obj
              ∧ alterAll OutgoingStreamTrack.Detach
                  (OutgoingStream.GetTracks (range OutgoingStream.InDetach) o)
                  (outgoingTracks w) !! q
                = Some (OutgoingStreamTrack.Detach obj)) as Hdetached.
  { intros q kind site (Hq & obj & Hobj & _)%outgoing_ofKind_elem. exists obj. split; [done|].
    rewrite alterAll_lookup by apply OutgoingStreamTrack_Detach_idemp.
    rewrite decide_True, Hobj; [done|].
    unfold OutgoingStream.GetTracks. by rewrite heldBy_range in *. }
  unfold attachedTo, attached. simpl. split.
  - intros j q p Hq Hp.
    assert (q ∈ outAudios o w) as Hin by by eapply list_elem_of_lookup_2.
    destruct (Hdetached q _ _ Hin) as (obj & Hobj & Hdetach). exists obj. split; [done|].
    rewrite paired_lookup_other.
    + rewrite (paired_lookup_at _ _ _ j q p); [|by apply NoDup_filter|done..].
      rewrite Hdetach. split; [done|]. simpl.
      by destruct (OutgoingStreamTrack.transponder obj).
    + intros Hvideo%take_elem. by eapply outgoing_kinds_disjoint.
  - intros j q p Hq Hp.
    assert (q ∈ outVideos o w) as Hin by by eapply list_elem_of_lookup_2.
    destruct (Hdetached q _ _ Hin) as (obj & Hobj & Hdetach). exists obj. split; [done|].
    rewrite (paired_lookup_at _ _ _ j q p); [|by apply NoDup_filter|done..].
    rewrite paired_lookup_other.
    + rewrite Hdetach. split; [done|]. simpl.
      by destruct (OutgoingStreamTrack.transponder obj).
    + intros Haudio%take_elem. by eapply outgoing_kinds_disjoint.
Qed.

(** The Transponders handed back are those of tracks the stream holds. *)
Lemma transponders_held o (incomingStream : IncomingStream.t) w (q : ptr) :
  q ∈ take (length (inAudios incomingStream w)) (outAudios o w)
      ++ take (length (inVideos incomingStream w)) (outVideos o w) →
  heldBy o q.
Proof.
  intros [Hq%take_elem|Hq%take_elem]%elem_of_app;
    apply outgoing_ofKind_elem in Hq as [Hq _]; by rewrite heldBy_range in Hq.
Qed.

End Positions.

(** X7: when no track object is held under two ids and [AttachTo] returns,
    the outgoing audio track at each position of the range over the
    outgoing tracks is left attached to the incoming audio track at that
    position of the range over the incoming tracks, and so for video,
    whatever order each range takes; a track of the outgoing stream with no
    incoming track at its position, or of another kind, is left detached; a
    track the stream does not hold is not written. *)
Theorem AttachTo_pairs_by_position
    (ToLower : string → string)
    (range : OutgoingStream.RangeSite → gmap string ptr → list (string * ptr))
    (o : OutgoingStream.t) (incomingStream : IncomingStream.t) (w : World)
    (transponders : list ptr) (w' : World) :
  (∀ site m, range site m ≡ₚ map_to_list m) →
  (∀ trackID trackID' q,
     OutgoingStream.GetTrack o trackID = Some q →
     OutgoingStream.GetTrack o trackID' = Some q → trackID = trackID') →
  OutgoingStream.AttachTo ToLower range o incomingStream w = Ok (transponders, w') →
  (∀ j q p,
     OutgoingStream.GetAudioTracks ToLower (range OutgoingStream.InOutgoingAudio) o w !! j
       = Some q →
     IncomingStream.GetAudioTracks ToLower (range OutgoingStream.InIncomingAudio)
       incomingStream w !! j = Some p →
     q ∈ transponders
     ∧ ∃ obj, outgoingTracks w !! q = Some obj
        ∧ outgoingTracks w' !! q
          = Some (OutgoingStreamTrack.AttachTo p (OutgoingStreamTrack.Detach obj))
        ∧ attachedTo w' q p)
  ∧ (∀ j q p,
       OutgoingStream.GetVideoTracks ToLower (range OutgoingStream.InOutgoingVideo) o w !! j
         = Some q →
       IncomingStream.GetVideoTracks ToLower (range OutgoingStream.InIncomingVideo)
         incomingStream w !! j = Some p →
       q ∈ transponders
       ∧ ∃ obj, outgoingTracks w !! q = Some obj
          ∧ outgoingTracks w' !! q
            = Some (OutgoingStreamTrack.AttachTo p (OutgoingStreamTrack.Detach obj))
          ∧ attachedTo w' q p)
  ∧ (∀ q, heldBy o q → q ∉ transponders →
       outgoingTracks w' !! q = OutgoingStreamTrack.Detach <$> outgoingTracks w !! q
       ∧ ∀ p, ¬ attachedTo w' q p)
  ∧ (∀ q, ¬ heldBy o q → outgoingTracks w' !! q = outgoingTracks w !! q).
Proof.
  intros Hvisits Hinj (-> & -> & _)%AttachTo_Ok_inv.
  assert (NoDup (map_to_list (OutgoingStream.tracks o)).*2) as Hnodup.
  { rewrite <- (Hvisits OutgoingStream.InDetach). by apply range_NoDup. }
  destruct (attached_positions ToLower range Hvisits o incomingStream w Hnodup)
    as [Haudio Hvideo].
  destruct (attached_effect ToLower range o incomingStream w) as (_ & _ & Hother).
  split_and!.
  - intros j q p Hq Hp. split; [|by eapply Haudio].
    apply elem_of_app. left. apply elem_of_take. exists j. split; [done|].
    by eapply lookup_lt_Some.
  - intros j q p Hq Hp. split; [|by eapply Hvideo].
    apply elem_of_app. right. apply elem_of_take. exists j. split; [done|].
    by eapply lookup_lt_Some.
  - intros q Hheld Hq.
    assert (q ∈ OutgoingStream.GetTracks (range OutgoingStream.InDetach) o) as Hin.
    { unfold OutgoingStream.GetTracks. by rewrite heldBy_range. }
    rewrite Hother, decide_True by done. split; [done|].
    intros p. unfold attachedTo. rewrite Hother, decide_True by done.
    destruct (outgoingTracks w !! q) as [obj|]; [|done]. simpl.
    by destruct (OutgoingStreamTrack.transponder obj).
  - intros q Hheld. rewrite Hother.
    + rewrite decide_False; [done|].
      unfold OutgoingStream.GetTracks. by rewrite heldBy_range.
    + intros Hq. apply Hheld. by eapply transponders_held.
Qed.

(** The outgoing stream of an audio and a video track, attached to the
    incoming stream of an audio and a video track: track 0 is left attached
    to the incoming track 0, track 1 to the incoming track 2. *)
Lemma AttachTo_pairs_by_position_witness :
  ((∀ site m, lib.rangeMixed site m ≡ₚ map_to_list m)
   ∧ (∀ trackID trackID' q,
        OutgoingStream.GetTrack outgoingOneAudioOneVideo trackID = Some q →
        OutgoingStream.GetTrack outgoingOneAudioOneVideo trackID' = Some q →
        trackID = trackID')
   ∧ OutgoingStream.AttachTo lib.ToLower lib.rangeMixed outgoingOneAudioOneVideo
       incomingOneAudioOneVideo surplusWorld
     = Ok ([0; 1],
           attached lib.ToLower lib.rangeMixed outgoingOneAudioOneVideo
             incomingOneAudioOneVideo surplusWorld))
  ∧ attachedTo (attached lib.ToLower lib.rangeMixed outgoingOneAudioOneVideo
                  incomingOneAudioOneVideo surplusWorld) 0 0
  ∧ attachedTo (attached lib.ToLower lib.rangeMixed outgoingOneAudioOneVideo
                  incomingOneAudioOneVideo surplusWorld) 1 2.
Proof.
  assert (∀ site m, lib.rangeMixed site m ≡ₚ map_to_list m) as Hvisits.
  { intros site m. destruct site; try reflexivity; apply reverse_Permutation. }
  assert (∀ trackID trackID' q,
            OutgoingStream.GetTrack outgoingOneAudioOneVideo trackID = Some q →
            OutgoingStream.GetTrack outgoingOneAudioOneVideo trackID' = Some q →
            trackID = trackID') as Hinj.
  { unfold OutgoingStream.GetTrack, outgoingOneAudioOneVideo. simpl.
    intros trackID trackID' q.
    rewrite !lookup_insert_Some, !lookup_singleton_Some. intros H1 H2.
    destruct H1 as [[<- <-]|[? [<- <-]]]; destruct H2 as [[<- ?]|[? [<- ?]]];
      congruence. }
  assert (OutgoingStream.AttachTo lib.ToLower lib.rangeMixed outgoingOneAudioOneVideo
            incomingOneAudioOneVideo surplusWorld
          = Ok ([0; 1],
                attached lib.ToLower lib.rangeMixed outgoingOneAudioOneVideo
                  incomingOneAudioOneVideo surplusWorld)) as Hok.
  { vm_compute. reflexivity. }
  split; [exact (conj Hvisits (conj Hinj Hok))|].
  pose proof (AttachTo_pairs_by_position lib.ToLower lib.rangeMixed outgoingOneAudioOneVideo
                incomingOneAudioOneVideo surplusWorld [0; 1]
                (attached lib.ToLower lib.rangeMixed outgoingOneAudioOneVideo
                   incomingOneAudioOneVideo surplusWorld) Hvisits Hinj Hok)
    as (Haudio & Hvideo & _).
  split.
  - destruct (Haudio 0 0 0) as (_ & obj & _ & _ & Hattached);
      [vm_compute; reflexivity|vm_compute; reflexivity|exact Hattached].
  - destruct (Hvideo 0 1 2) as (_ & obj & _ & _ & Hattached);
      [vm_compute; reflexivity|vm_compute; reflexivity|exact Hattached].
Defined.

(** ** [AttachTo] twice *)

Section Calls.

Context {A : Type}.
Implicit Types (ops : list (ptr * (A → A))) (h : list A).






End Calls.

Section Twice.

Variable ToLower : string → string.
Variable range : OutgoingStream.RangeSite → gmap string ptr → list (string * ptr).

Implicit Types (o : OutgoingStream.t) (w : World) (h : list OutgoingStreamTrack.t).
Implicit Types (track : OutgoingStreamTrack.t).



















End Twice.



(** ** What [CreateTrack] writes *)

Section Frame.

Variable GetSourceGroup : sdp.TrackInfo → string → option sdp.SourceGroupInfo.

Implicit Types (i : IncomingStream.t) (track : sdp.TrackInfo) (w : World).
Implicit Types (st : gmap string native.RTPIncomingSourceGroup * World).

(** A loop whose iterations register a group and enter it, or do nothing,
    as the element they are at decides: the groups do not depend on the
    map and the world the loop starts from. *)
Lemma foldM_registers {B} (P : native.RTPIncomingSourceGroup → Prop)
    (transport : native.DTLSICETransport)
    (step : B → result (option (string * native.RTPIncomingSourceGroup)))
    (f : gmap string native.RTPIncomingSourceGroup * World → B
         → result (gmap string native.RTPIncomingSourceGroup * World))
    (l : list B) st st' :
  (∀ st b, f st b =
     entry ← step b;
     Ok (match entry with
         | Some entry => IncomingStream.register transport entry.1 entry.2 st
         | None => st
         end)) →
  (∀ b entry, step b = Ok (Some entry) → P entry.2) →
  foldM f st l = Ok st' →
  ∃ entries, Forall (λ entry, P entry.2) entries
    ∧ ∀ st0, foldM f st0 l
             = Ok (enter entries st0.1, callAll (registrations transport entries) st0.2).
Proof.
  intros Hstep HP. revert st. induction l as [|b l IH]; intros st.
  - intros _. exists []. split; [done|]. intros [sources w]. simpl.
    by rewrite callAll_nil.
  - rewrite foldM_cons, Hstep.
    intros (st1 & (entry & Hentry & [= <-])%bind_Ok & Hrest)%bind_Ok.
    destruct (IH _ Hrest) as (entries & Hentries & Hall).
    destruct entry as [[key source]|].
    + exists ((key, source) :: entries). split.
      * constructor; [|done]. by apply (HP b (key, source)).
      * intros [sources w]. rewrite foldM_cons, Hstep, Hentry. simpl. rewrite Hall.
        unfold IncomingStream.register, registrations. simpl. do 2 f_equal.
        unfold callAll, call. simpl. by rewrite <- app_assoc.
    + exists entries. split; [done|].
      intros st0. rewrite foldM_cons, Hstep, Hentry. simpl. apply Hall.
Qed.

Lemma foldM_scanGroupSIM_sameFlow (ssrc : N) (groups : list sdp.SourceGroupInfo)
    (source source' : native.RTPIncomingSourceGroup) :
  foldM (IncomingStream.scanGroupSIM ssrc) source groups = Ok source' → sameFlow source source'.
Proof.
  revert source. induction groups as [|group groups IH]; intros source.
  - intros [= <-]. apply sameFlow_refl.
  - rewrite foldM_cons. intros (source1 & Hfirst & Hrest)%bind_Ok.
    eapply sameFlow_trans; [by eapply scanGroupSIM_sameFlow|by apply IH].
Qed.

Lemma encodingSource_type track mediaType (encoding : sdp.TrackEncodingInfo)
    (source : native.RTPIncomingSourceGroup) :
  IncomingStream.encodingSource track mediaType encoding = Ok (Some source) →
  native.in_type source = mediaType.
Proof.
  unfold IncomingStream.encodingSource.
  destruct (sdp.params encoding !! "ssrc") as [ssrc|].
  - destruct (ParseUint ssrc) as [ssrcUint|]; [|done].
    rewrite foldM_scanGroup_filter.
    intros (source1 & Hscan & [= <-])%bind_Ok.
    apply foldM_scanGroupSIM_sameFlow in Hscan as (Htype & _).
    rewrite Htype. by destruct (decide (sdp.mediaID track ≠ "")).
  - intros [= <-]. by destruct (decide (sdp.mediaID track ≠ "")).
Qed.

Lemma simulcastSource_type track mediaType (ssrc : N)
    (source : native.RTPIncomingSourceGroup) :
  IncomingStream.simulcastSource track mediaType ssrc = Ok source →
  native.in_type source = mediaType.
Proof.
  unfold IncomingStream.simulcastSource.
  intros (Htype & _)%foldM_scanGroupSIM_sameFlow. by rewrite Htype.
Qed.

(** On a live stream, the resolution of a descriptor registers source
    groups of the frame type it is handed, enters them, and does nothing
    else; the groups are the same whatever the world. *)
Lemma resolve_uniform i track mediaType transport w st :
  IncomingStream.Transport i = Some transport →
  IncomingStream.resolve GetSourceGroup i track mediaType w = Ok st →
  ∃ entries, Forall (λ entry, native.in_type entry.2 = mediaType) entries
    ∧ ∀ w0, IncomingStream.resolve GetSourceGroup i track mediaType w0
            = Ok (enter entries ∅, callAll (registrations transport entries) w0).
Proof.
  intros Hlive. unfold IncomingStream.resolve.
  destruct (decide (0 < length (sdp.encodings track))) as [Hexplicit|Hnone].
  - rewrite foldM_concat. intros Hfold.
    eapply (foldM_registers (λ source, native.in_type source = mediaType) transport
              (λ encoding,
                 source ← IncomingStream.encodingSource track mediaType encoding;
                 Ok (match source with
                     | Some source => Some (sdp.rid encoding, source)
                     | None => None
                     end))) in Hfold
      as (entries & Hentries & Hall).
    + exists entries. split; [done|]. intros w0. rewrite foldM_concat. apply Hall.
    + intros st0 encoding. unfold IncomingStream.resolveEncoding. rewrite Hlive. simpl.
      by destruct (IncomingStream.encodingSource track mediaType encoding) as [[source|]|].
    + intros encoding entry.
      destruct (IncomingStream.encodingSource track mediaType encoding)
        as [[source|]|] eqn:Hsource; simpl; intros [= <-].
      by eapply encodingSource_type.
  - destruct (GetSourceGroup track "SIM") as [SIM|].
    + intros Hfold.
      eapply (foldM_registers (λ source, native.in_type source = mediaType) transport
                (λ member : nat * N,
                   source ← IncomingStream.simulcastSource track mediaType member.2;
                   Ok (Some (Itoa member.1, source)))) in Hfold
        as (entries & Hentries & Hall).
      * exists entries. split; [done|]. intros w0. apply Hall.
      * intros st0 member. unfold IncomingStream.resolveSimulcast. rewrite Hlive. simpl.
        by destruct (IncomingStream.simulcastSource track mediaType member.2).
      * intros member entry.
        destruct (IncomingStream.simulcastSource track mediaType member.2)
          as [source|] eqn:Hsource; simpl; intros [= <-].
        by eapply simulcastSource_type.
    + unfold IncomingStream.resolveSingle. rewrite Hlive. simpl.
      destruct (index (sdp.ssrcsOf track) 0) as [first|]; [|done]. simpl.
      set (source0 := native.in_SetMedia first (native.NewRTPIncomingSourceGroup mediaType)).
      assert (native.in_type source0 = mediaType) as Htype0 by done.
      clearbody source0.
      destruct (match GetSourceGroup track "FID" with
                | Some fid => _
                | None => _
                end) as [source1|] eqn:Hrtx; [|done]. simpl.
      assert (native.in_type source1 = mediaType) as Htype1.
      { destruct (GetSourceGroup track "FID").
        - apply bind_Ok in Hrtx as (second & _ & [= <-]). done.
        - by injection Hrtx as <-. }
      clear Hrtx.
      destruct (match GetSourceGroup track "FEC-FR" with
                | Some fec_fr => _
                | None => _
                end) as [source2|] eqn:Hfec; [|done]. simpl.
      assert (native.in_type source2 = mediaType) as Htype2.
      { destruct (GetSourceGroup track "FEC-FR").
        - apply bind_Ok in Hfec as (second & _ & [= <-]). done.
        - by injection Hfec as <-. }
      intros _. exists [("", source2)]. split; [by repeat constructor|].
      intros w0. done.
Qed.

Lemma resolve_registers i track mediaType transport w sources w' :
  IncomingStream.Transport i = Some transport →
  IncomingStream.resolve GetSourceGroup i track mediaType w = Ok (sources, w') →
  ∃ entries, Forall (λ entry, native.in_type entry.2 = mediaType) entries
    ∧ sources = enter entries ∅
    ∧ w' = callAll (registrations transport entries) w.
Proof.
  intros Hlive Hresolve.
  destruct (resolve_uniform i track mediaType transport w _ Hlive Hresolve)
    as (entries & Htypes & Hall).
  rewrite Hall in Hresolve. injection Hresolve as <- <-. by exists entries.
Qed.

(** A loop whose iterations all panic returns only when there is nothing
    to go through. *)
Lemma foldM_Panic {S B} (f : S → B → result S) (l : list B) (s : S) :
  (∀ s b, f s b = Panic) → foldM f s l = if decide (l = []) then Ok s else Panic.
Proof.
  intros Hpanic. destruct l as [|b l]; [done|].
  rewrite foldM_cons, Hpanic. done.
Qed.

(** On a stream whose transport is nil, the resolution of a descriptor
    panics at the first call on the transport. *)
Lemma resolve_nil i track mediaType w :
  IncomingStream.Transport i = None →
  (touchesTransport GetSourceGroup track →
   IncomingStream.resolve GetSourceGroup i track mediaType w = Panic)
  ∧ (¬ touchesTransport GetSourceGroup track →
     IncomingStream.resolve GetSourceGroup i track mediaType w = Ok (∅, w)).
Proof.
  intros Hnil. unfold IncomingStream.resolve, touchesTransport.
  destruct (decide (0 < length (sdp.encodings track))) as [Hexplicit|Hnone].
  - rewrite foldM_concat, foldM_Panic.
    + destruct (decide (concat (sdp.encodings track) = [])); split; done.
    + intros st encoding. unfold IncomingStream.resolveEncoding. by rewrite Hnil.
  - destruct (GetSourceGroup track "SIM") as [SIM|].
    + rewrite foldM_Panic.
      * destruct (sdp.GetSSRCs SIM) as [|ssrc members] eqn:Hmembers; split; try done.
        intros Hnot. destruct Hnot. done.
      * intros st member. unfold IncomingStream.resolveSimulcast. by rewrite Hnil.
    + unfold IncomingStream.resolveSingle. rewrite Hnil. split; [done|]. by intros [].
Qed.

Lemma enter_registered (entries : list (string * native.RTPIncomingSourceGroup))
    (key : string) (source : native.RTPIncomingSourceGroup) :
  enter entries ∅ !! key = Some source → (key, source) ∈ entries.
Proof.
  rewrite enter_list_to_map, (right_id_L ∅ (∪)).
  intros Hin%elem_of_list_to_map_2. by apply elem_of_reverse.
Qed.

Lemma enter_size_le (entries : list (string * native.RTPIncomingSourceGroup)) :
  size (enter entries ∅) ≤ length entries.
Proof.
  induction entries as [|[key source] entries IH] using rev_ind; [done|].
  rewrite enter_snoc, length_app, map_size_insert. simpl.
  destruct (enter entries ∅ !! key); simpl; lia.
Qed.

End Frame.
(** X9: what the incoming [CreateTrack] writes when it returns. The stream
    keeps its id, transport and receiver, and every track it held, under the
    same id; the track objects there were and the outgoing tracks are not
    written; the calls made are registrations of incoming source groups with
    the transport of the stream, of the frame type of the descriptor, and no
    other call. When nil is returned the id was held and nothing is written;
    otherwise the id was not held and is now held by the track returned, a
    new object with the id and the media kind of the descriptor and the
    receiver of the stream, not stopped, and every source group of its
    mapping is among the groups registered. *)
Theorem CreateTrack_frame
    (GetSourceGroup : sdp.TrackInfo → string → option sdp.SourceGroupInfo)
    (i : IncomingStream.t) (track : sdp.TrackInfo) (w : World)
    (r : option ptr) (i' : IncomingStream.t) (w' : World) :
  IncomingStream.CreateTrack GetSourceGroup i track w = Ok (r, i', w') →
  IncomingStream.Id i' = IncomingStream.Id i
  ∧ IncomingStream.Transport i' = IncomingStream.Transport i
  ∧ IncomingStream.Receiver i' = IncomingStream.Receiver i
  ∧ (∀ key p, IncomingStream.Tracks i !! key = Some p →
       IncomingStream.Tracks i' !! key = Some p)
  ∧ (∀ key, key ≠ sdp.id track →
       IncomingStream.Tracks i' !! key = IncomingStream.Tracks i !! key)
  ∧ outgoingTracks w' = outgoingTracks w
  ∧ (∀ p, p < length (incomingTracks w) → incomingTracks w' !! p = incomingTracks w !! p)
  ∧ ∃ registered,
      calls w' = calls w ++ registered
      ∧ Forall (λ c, ∃ transport source,
                  IncomingStream.Transport i = Some transport
                  ∧ c = AddIncomingSourceGroup transport source
                  ∧ native.in_type source = mediaTypeOf track) registered
      ∧ match r with
        | None => is_Some (IncomingStream.Tracks i !! sdp.id track) ∧ i' = i ∧ w' = w
        | Some p =>
            IncomingStream.Tracks i !! sdp.id track = None
            ∧ p = length (incomingTracks w)
            ∧ IncomingStream.Tracks i' !! sdp.id track = Some p
            ∧ ∃ obj,
                incomingTracks w' = incomingTracks w ++ [obj]
                ∧ IncomingStreamTrack.id obj = sdp.id track
                ∧ IncomingStreamTrack.media obj = sdp.media track
                ∧ IncomingStreamTrack.receiver obj = IncomingStream.Receiver i
                ∧ IncomingStreamTrack.stopped obj = false
                ∧ (∀ key source,
                     IncomingStreamTrack.sources obj !! key = Some source →
                     ∃ transport, IncomingStream.Transport i = Some transport
                       ∧ AddIncomingSourceGroup transport source ∈ registered)
                ∧ size (IncomingStreamTrack.sources obj) ≤ length registered
        end.
Proof.
  unfold IncomingStream.CreateTrack.
  destruct (IncomingStream.Tracks i !! sdp.id track) as [held|] eqn:Hheld.
  { intros [= <- <- <-]. split_and!; try done. exists []. split_and!; try done.
    by rewrite app_nil_r. }
  intros ([sources w1] & Hresolve & [= <- <- <-])%bind_Ok.
  assert (∃ registered,
            w1 = callAll registered w
            ∧ Forall (λ c, ∃ transport source,
                        IncomingStream.Transport i = Some transport
                        ∧ c = AddIncomingSourceGroup transport source
                        ∧ native.in_type source = mediaTypeOf track) registered
            ∧ (∀ key source, sources !! key = Some source →
                 ∃ transport, IncomingStream.Transport i = Some transport
                   ∧ AddIncomingSourceGroup transport source ∈ registered)
            ∧ size sources ≤ length registered)
    as (registered & -> & Hregistered & Hsources & Hsize).
  { destruct (IncomingStream.Transport i) as [transport|] eqn:Hlive.
    - destruct (resolve_registers GetSourceGroup i track _ transport w sources w1 Hlive Hresolve)
        as (entries & Htypes & -> & ->).
      exists (registrations transport entries). split_and!.
      + done.
      + unfold registrations. apply Forall_fmap, Forall_fmap.
        eapply Forall_impl; [exact Htypes|]. intros [key source] Htype. simpl in *.
        by exists transport, source.
      + intros key source Hin%enter_registered. exists transport. split; [done|].
        unfold registrations. apply list_elem_of_fmap_2.
        by apply (list_elem_of_fmap_2 snd _ (key, source)).
      + unfold registrations. rewrite !length_fmap. apply enter_size_le.
    - destruct (resolve_nil GetSourceGroup i track (mediaTypeOf track) w Hlive)
        as [Hpanic Hok].
      destruct (decide (touchesTransport GetSourceGroup track)) as [Htouches|Hnot].
      + by rewrite Hpanic in Hresolve.
      + rewrite Hok in Hresolve by done. injection Hresolve as <- <-.
        exists []. split_and!; [by rewrite callAll_nil|done|done|done]. }
  split_and!; try done.
  - intros key p Hkey. simpl. rewrite lookup_insert_ne; [done|]. intros <-. congruence.
  - intros key Hkey. simpl. by rewrite lookup_insert_ne.
  - intros p Hp. simpl. by rewrite lookup_app_l.
  - exists registered. split_and!; try done.
    + simpl. apply lookup_insert_eq.
    + eexists. split_and!; done.
Qed.

Lemma CreateTrack_frame_witness :
  IncomingStream.CreateTrack lib.GetSourceGroup liveIncoming audioSingle emptyWorld
    = Ok (Some 0, audioCreatedStream, audioCreatedWorld)
  ∧ IncomingStream.Id audioCreatedStream = IncomingStream.Id liveIncoming
  ∧ IncomingStream.Transport audioCreatedStream = IncomingStream.Transport liveIncoming
  ∧ IncomingStream.Receiver audioCreatedStream = IncomingStream.Receiver liveIncoming
  ∧ (∀ key p, IncomingStream.Tracks liveIncoming !! key = Some p →
       IncomingStream.Tracks audioCreatedStream !! key = Some p)
  ∧ (∀ key, key ≠ sdp.id audioSingle →
       IncomingStream.Tracks audioCreatedStream !! key = IncomingStream.Tracks liveIncoming !! key)
  ∧ outgoingTracks audioCreatedWorld = outgoingTracks emptyWorld
  ∧ (∀ p, p < length (incomingTracks emptyWorld) →
       incomingTracks audioCreatedWorld !! p = incomingTracks emptyWorld !! p)
  ∧ ∃ registered,
      calls audioCreatedWorld = calls emptyWorld ++ registered
      ∧ Forall (λ c, ∃ transport source,
                  IncomingStream.Transport liveIncoming = Some transport
                  ∧ c = AddIncomingSourceGroup transport source
                  ∧ native.in_type source = mediaTypeOf audioSingle) registered
      ∧ IncomingStream.Tracks liveIncoming !! sdp.id audioSingle = None
      ∧ 0 = length (incomingTracks emptyWorld)
      ∧ IncomingStream.Tracks audioCreatedStream !! sdp.id audioSingle = Some 0
      ∧ ∃ obj,
          incomingTracks audioCreatedWorld = incomingTracks emptyWorld ++ [obj]
          ∧ IncomingStreamTrack.id obj = sdp.id audioSingle
          ∧ IncomingStreamTrack.media obj = sdp.media audioSingle
          ∧ IncomingStreamTrack.receiver obj = IncomingStream.Receiver liveIncoming
          ∧ IncomingStreamTrack.stopped obj = false
          ∧ (∀ key source,
               IncomingStreamTrack.sources obj !! key = Some source →
               ∃ transport, IncomingStream.Transport liveIncoming = Some transport
                 ∧ AddIncomingSourceGroup transport source ∈ registered)
          ∧ size (IncomingStreamTrack.sources obj) ≤ length registered.
Proof.
  assert (IncomingStream.CreateTrack lib.GetSourceGroup liveIncoming audioSingle emptyWorld
          = Ok (Some 0, audioCreatedStream, audioCreatedWorld)) as Hcreated.
  { vm_compute. reflexivity. }
  split; [exact Hcreated|].
  exact (CreateTrack_frame lib.GetSourceGroup liveIncoming audioSingle emptyWorld
           (Some 0) audioCreatedStream audioCreatedWorld Hcreated).
Defined.
(** ** Encodings that share a rid *)

Lemma enter_lookup_other (entries : list (string * native.RTPIncomingSourceGroup))
    (sources : gmap string native.RTPIncomingSourceGroup) (key : string) :
  key ∉ entries.*1 → enter entries sources !! key = sources !! key.
Proof.
  induction entries as [|[k g] entries IH] using rev_ind; [done|].
  rewrite fmap_app. simpl. intros [Hkey Hk]%not_elem_of_app.
  rewrite enter_snoc, lookup_insert_ne, IH; [done..|].
  intros ->. apply Hk. apply elem_of_cons. by left.
Qed.

Lemma enter_app (entries1 entries2 : list (string * native.RTPIncomingSourceGroup))
    (sources : gmap string native.RTPIncomingSourceGroup) :
  enter (entries1 ++ entries2) sources = enter entries2 (enter entries1 sources).
Proof. apply foldl_app. Qed.

Lemma enter_distinct (entries : list (string * native.RTPIncomingSourceGroup)) :
  size (enter entries ∅) = size (list_to_set entries.*1 : gset string).
Proof.
  rewrite <- size_dom. f_equal. apply set_eq. intros key.
  by rewrite elem_of_dom, enter_dom, elem_of_list_to_set.
Qed.

(** X10: encodings that share a rid. On a live stream and a fresh track
    id, with the reads of the explicit branch succeeding, [CreateTrack]
    registers one source group for each encoding it does not skip, in the
    order of the encodings, and the mapping of the track keeps, under each
    rid, the group of the last such encoding with that rid: the mapping has
    as many entries as there are distinct rids among these encodings. *)
Theorem CreateTrack_repeated_rid
    (GetSourceGroup : sdp.TrackInfo → string → option sdp.SourceGroupInfo)
    (i : IncomingStream.t) (track : sdp.TrackInfo)
    (transport : native.DTLSICETransport) (w : World) :
  IncomingStream.Tracks i !! sdp.id track = None →
  IncomingStream.Transport i = Some transport →
  0 < length (sdp.encodings track) →
  explicitReadable track →
  ∃ p obj w' registered,
    IncomingStream.CreateTrack GetSourceGroup i track w =
      Ok (Some p,
          IncomingStream.setTracks (<[sdp.id track := p]> (IncomingStream.Tracks i)) i, w')
    ∧ incomingTracks w' !! p = Some obj
    ∧ calls w' = calls w ++ (AddIncomingSourceGroup transport <$> registered)
    ∧ Forall2 (λ encoding source,
                 IncomingStream.encodingSource track (mediaTypeOf track) encoding
                 = Ok (Some source))
              (filter (λ encoding, parses encoding) (concat (sdp.encodings track)))
              registered
    ∧ size (IncomingStreamTrack.sources obj)
      = size (list_to_set
                (sdp.rid <$> filter (λ encoding, parses encoding)
                                    (concat (sdp.encodings track))) : gset string)
    ∧ (∀ earlier encoding later,
         filter (λ encoding, parses encoding) (concat (sdp.encodings track))
           = earlier ++ encoding :: later →
         sdp.rid encoding ∉ sdp.rid <$> later →
         ∃ source,
           IncomingStream.encodingSource track (mediaTypeOf track) encoding = Ok (Some source)
           ∧ IncomingStreamTrack.sources obj !! sdp.rid encoding = Some source).
Proof.
  intros Hfresh Hlive Hexplicit Hreadable.
  pose proof (resolve_explicit GetSourceGroup i track transport w Hlive Hreadable Hexplicit)
    as Hresolve.
  rewrite (CreateTrack_fresh GetSourceGroup i track w _ _ Hfresh Hresolve).
  pose proof (explicitEntries_parses track Hreadable) as Hentries.
  eexists _, _, _, (explicitEntries track).*2. split; [done|]. split_and!.
  - simpl. by apply list_lookup_middle.
  - done.
  - apply Forall2_fmap_r. eapply Forall2_impl; [exact Hentries|]. by intros encoding entry [_ ?].
  - simpl. rewrite enter_distinct. do 2 f_equal.
    exact (entries_keys
             (λ encoding source,
                IncomingStream.encodingSource track (mediaTypeOf track) encoding
                = Ok (Some source)) _ _ Hentries).
  - intros earlier encoding later Hsplit Hlast. rewrite Hsplit in Hentries.
    apply Forall2_app_inv_l in Hentries as (entries1 & entries2 & _ & Hrest & ->).
    apply Forall2_cons_inv_l in Hrest as ([key source] & entries3 & [Hkey Hsource] & Hlater & ->).
    simpl in Hkey, Hsource. subst key. exists source. split; [done|].
    simpl. rewrite enter_app. simpl. rewrite enter_lookup_other.
    + apply lookup_insert_eq.
    + by rewrite (entries_keys
                    (λ encoding source,
                       IncomingStream.encodingSource track (mediaTypeOf track) encoding
                       = Ok (Some source)) _ _ Hlater).
Qed.

Lemma explicitReadable_videoSameRid : explicitReadable videoSameRid.
Proof. intros encoding _ ssrc ssrcUint _ _ group Hgroup. by apply elem_of_nil in Hgroup. Qed.

Lemma CreateTrack_repeated_rid_witness :
  (IncomingStream.Tracks liveIncoming !! sdp.id videoSameRid = None
   ∧ IncomingStream.Transport liveIncoming = Some 7%N
   ∧ 0 < length (sdp.encodings videoSameRid)
   ∧ explicitReadable videoSameRid)
  ∧ ∃ p obj w' registered,
    IncomingStream.CreateTrack lib.GetSourceGroup liveIncoming videoSameRid emptyWorld =
      Ok (Some p,
          IncomingStream.setTracks
            (<[sdp.id videoSameRid := p]> (IncomingStream.Tracks liveIncoming)) liveIncoming,
          w')
    ∧ incomingTracks w' !! p = Some obj
    ∧ calls w' = calls emptyWorld ++ (AddIncomingSourceGroup 7%N <$> registered)
    ∧ Forall2 (λ encoding source,
                 IncomingStream.encodingSource videoSameRid (mediaTypeOf videoSameRid) encoding
                 = Ok (Some source))
              (filter (λ encoding, parses encoding) (concat (sdp.encodings videoSameRid)))
              registered
    ∧ size (IncomingStreamTrack.sources obj)
      = size (list_to_set
                (sdp.rid <$> filter (λ encoding, parses encoding)
                                    (concat (sdp.encodings videoSameRid))) : gset string)
    ∧ (∀ earlier encoding later,
         filter (λ encoding, parses encoding) (concat (sdp.encodings videoSameRid))
           = earlier ++ encoding :: later →
         sdp.rid encoding ∉ sdp.rid <$> later →
         ∃ source,
           IncomingStream.encodingSource videoSameRid (mediaTypeOf videoSameRid) encoding
             = Ok (Some source)
           ∧ IncomingStreamTrack.sources obj !! sdp.rid encoding = Some source).
Proof.
  split.
  - split_and!; [reflexivity|reflexivity|simpl; lia|exact explicitReadable_videoSameRid].
  - apply (CreateTrack_repeated_rid lib.GetSourceGroup liveIncoming videoSameRid 7%N emptyWorld).
    + reflexivity.
    + reflexivity.
    + simpl. lia.
    + exact explicitReadable_videoSameRid.
Defined.

(** The two encodings of [videoSameRid] are registered, and the mapping
    keeps the group of the second one. *)
Example CreateTrack_repeated_rid_scenario :
  ∃ i' w' first second,
    IncomingStream.CreateTrack lib.GetSourceGroup liveIncoming videoSameRid emptyWorld
      = Ok (Some 0, i', w')
    ∧ calls w' = [AddIncomingSourceGroup 7%N first; AddIncomingSourceGroup 7%N second]
    ∧ native.ssrc (native.in_media first) = 1111%N
    ∧ native.ssrc (native.in_media second) = 3333%N
    ∧ IncomingStreamTrack.sources <$> incomingTracks w' !! 0 = Some {[ "hi" := second ]}.
Proof. eexists _, _, _, _. split_and!; by vm_compute. Qed.
(** ** [CreateTrack] on a stopped stream *)

Section Stopped.

Variable GetSourceGroup : sdp.TrackInfo → string → option sdp.SourceGroupInfo.

(** On an outgoing stream whose transport is nil, [CreateTrack] of a
    descriptor whose id is not held panics: on a read of the descriptor, or
    on the registration with the transport. *)
Lemma outgoing_CreateTrack_nil (o : OutgoingStream.t) (track : sdp.TrackInfo) (w : World) :
  OutgoingStream.transport o = None → OutgoingStream.tracks o !! sdp.id track = None →
  OutgoingStream.CreateTrack GetSourceGroup o track w = Panic.
Proof.
  intros Hnil Hfresh. unfold OutgoingStream.CreateTrack.
  destruct (OutgoingStream.resolve GetSourceGroup track (mediaTypeOf track)); [|done].
  simpl. by rewrite Hfresh, Hnil.
Qed.

Lemma incoming_CreateTrack_nil (i : IncomingStream.t) (track : sdp.TrackInfo) (w : World) :
  IncomingStream.Transport i = None → IncomingStream.Tracks i !! sdp.id track = None →
  (touchesTransport GetSourceGroup track →
   IncomingStream.CreateTrack GetSourceGroup i track w = Panic)
  ∧ (¬ touchesTransport GetSourceGroup track →
     IncomingStream.CreateTrack GetSourceGroup i track w =
     Ok (Some (length (incomingTracks w)),
         IncomingStream.setTracks
           (<[sdp.id track := length (incomingTracks w)]> (IncomingStream.Tracks i)) i,
         setIncomingTracks
           (incomingTracks w ++
              [IncomingStreamTrack.New (sdp.media track) (sdp.id track)
                 (IncomingStream.Receiver i) ∅]) w)).
Proof.
  intros Hnil Hfresh.
  destruct (resolve_nil GetSourceGroup i track (mediaTypeOf track) w Hnil) as [Hpanic Hok].
  split; intros Htouches.
  - by apply CreateTrack_fresh_Panic, Hpanic.
  - by apply CreateTrack_fresh, Hok.
Qed.

End Stopped.

(** X11: [CreateTrack] after [Stop]. [Stop] sets the transport to nil and
    [CreateTrack] does not test it: on a stopped outgoing stream it panics
    for every descriptor; on a stopped incoming stream it panics for every
    descriptor that has an encoding, or a SIM group with a member, or
    neither encodings nor a SIM group, and for the others it returns a track
    with no source group and no receiver, and registers nothing. *)
Theorem CreateTrack_after_Stop
    (GetSourceGroup : sdp.TrackInfo → string → option sdp.SourceGroupInfo)
    (range : gmap string ptr → list (string * ptr))
    (i : IncomingStream.t) (o : OutgoingStream.t)
    (transportIn transportOut : native.DTLSICETransport)
    (track : sdp.TrackInfo) (w : World) :
  (∀ m, range m ≡ₚ map_to_list m) →
  IncomingStream.Transport i = Some transportIn →
  OutgoingStream.transport o = Some transportOut →
  OutgoingStream.CreateTrack GetSourceGroup
    (OutgoingStream.Stop range o w).1 track (OutgoingStream.Stop range o w).2 = Panic
  ∧ (touchesTransport GetSourceGroup track →
     IncomingStream.CreateTrack GetSourceGroup
       (IncomingStream.Stop range i w).1 track (IncomingStream.Stop range i w).2 = Panic)
  ∧ (¬ touchesTransport GetSourceGroup track →
     ∃ p i' w',
       IncomingStream.CreateTrack GetSourceGroup
         (IncomingStream.Stop range i w).1 track (IncomingStream.Stop range i w).2
       = Ok (Some p, i', w')
       ∧ incomingTracks w' !! p
         = Some (IncomingStreamTrack.New (sdp.media track) (sdp.id track) None ∅)
       ∧ calls w' = calls (IncomingStream.Stop range i w).2).
Proof.
  intros Hvisits HliveIn HliveOut.
  assert (IncomingStream.Transport (IncomingStream.Stop range i w).1 = None
          ∧ IncomingStream.Receiver (IncomingStream.Stop range i w).1 = None
          ∧ IncomingStream.Tracks (IncomingStream.Stop range i w).1 = ∅)
    as (Hnil & Hreceiver & Hempty).
  { unfold IncomingStream.Stop. rewrite HliveIn, foldl_incoming_stopTrack. simpl.
    split_and!; [done|done|by apply foldl_delete_range]. }
  split_and!.
  - apply outgoing_CreateTrack_nil; unfold OutgoingStream.Stop; by rewrite HliveOut.
  - intros Htouches.
    apply (incoming_CreateTrack_nil GetSourceGroup); [done| |done].
    by rewrite Hempty.
  - intros Hnot.
    destruct (incoming_CreateTrack_nil GetSourceGroup (IncomingStream.Stop range i w).1 track
                (IncomingStream.Stop range i w).2 Hnil) as [_ Hok].
    { by rewrite Hempty. }
    rewrite Hok by done. eexists _, _, _. split; [done|]. split; [|done].
    simpl. rewrite Hreceiver. by apply list_lookup_middle.
Qed.

Lemma CreateTrack_after_Stop_witness :
  ((∀ m, lib.range m ≡ₚ map_to_list m)
   ∧ IncomingStream.Transport incomingWithAudio = Some 7%N
   ∧ OutgoingStream.transport outgoingWithAudio = Some 7%N
   ∧ touchesTransport lib.GetSourceGroup audioSingle
   ∧ ¬ touchesTransport lib.GetSourceGroup videoNoEncoding)
  ∧ OutgoingStream.CreateTrack lib.GetSourceGroup
      (OutgoingStream.Stop lib.range outgoingWithAudio audioWorld).1 audioSingle
      (OutgoingStream.Stop lib.range outgoingWithAudio audioWorld).2 = Panic
  ∧ IncomingStream.CreateTrack lib.GetSourceGroup
      (IncomingStream.Stop lib.range incomingWithAudio audioWorld).1 audioSingle
      (IncomingStream.Stop lib.range incomingWithAudio audioWorld).2 = Panic
  ∧ ∃ p i' w',
      IncomingStream.CreateTrack lib.GetSourceGroup
        (IncomingStream.Stop lib.range incomingWithAudio audioWorld).1 videoNoEncoding
        (IncomingStream.Stop lib.range incomingWithAudio audioWorld).2
      = Ok (Some p, i', w')
      ∧ incomingTracks w' !! p
        = Some (IncomingStreamTrack.New (sdp.media videoNoEncoding) (sdp.id videoNoEncoding)
                  None ∅)
      ∧ calls w' = calls (IncomingStream.Stop lib.range incomingWithAudio audioWorld).2.
Proof.
  assert (∀ m, lib.range m ≡ₚ map_to_list m) as Hvisits by (by intros m).
  assert (touchesTransport lib.GetSourceGroup audioSingle) as Htouches by exact I.
  assert (¬ touchesTransport lib.GetSourceGroup videoNoEncoding) as Hnot
    by (intros Htouched; by apply Htouched).
  destruct (CreateTrack_after_Stop lib.GetSourceGroup lib.range incomingWithAudio
              outgoingWithAudio 7%N 7%N audioSingle audioWorld Hvisits eq_refl eq_refl)
    as (Houtgoing & Hincoming & _).
  destruct (CreateTrack_after_Stop lib.GetSourceGroup lib.range incomingWithAudio
              outgoingWithAudio 7%N 7%N videoNoEncoding audioWorld Hvisits eq_refl eq_refl)
    as (_ & _ & Hreturns).
  split.
  - split_and!; [exact Hvisits|reflexivity|reflexivity|exact Htouches|exact Hnot].
  - exact (conj Houtgoing (conj (Hincoming Htouches) (Hreturns Hnot))).
Defined.
(** ** The constructors *)

Section OutgoingConstructor.

Variable GetSourceGroup : sdp.TrackInfo → string → option sdp.SourceGroupInfo.

Implicit Types (o : OutgoingStream.t) (w : World) (track : sdp.TrackInfo).

(** On a live stream [CreateTrack] returns when the reads of the descriptor
    succeed, whether the id is held or not, and leaves the transport and
    the listeners of the stream as they are. *)
Lemma outgoing_CreateTrack_Ok o track (transport : native.DTLSICETransport) w :
  OutgoingStream.transport o = Some transport →
  singleFlowReadable GetSourceGroup track →
  ∃ r o' w', OutgoingStream.CreateTrack GetSourceGroup o track w = Ok (r, o', w')
    ∧ OutgoingStream.transport o' = Some transport.
Proof.
  intros Hlive Hreadable.
  destruct (outgoing_resolve_Ok GetSourceGroup track (mediaTypeOf track) Hreadable)
    as (source & first & Hresolve & _).
  destruct (OutgoingStream.tracks o !! sdp.id track) as [held|] eqn:Hheld.
  - unfold OutgoingStream.CreateTrack. rewrite Hresolve. simpl. rewrite Hheld.
    by eexists _, _, _.
  - rewrite (outgoing_CreateTrack_fresh GetSourceGroup o track transport source w) by done.
    by eexists _, _, _.
Qed.

Lemma outgoing_CreateTrack_Panic o track w :
  ¬ singleFlowReadable GetSourceGroup track →
  OutgoingStream.CreateTrack GetSourceGroup o track w = Panic.
Proof.
  intros Hunreadable. unfold OutgoingStream.CreateTrack.
  destruct (OutgoingStream.resolve GetSourceGroup track (mediaTypeOf track))
    as [source|] eqn:Hresolve; [|done].
  destruct Hunreadable. by eapply outgoing_resolve_Ok_inv.
Qed.

Lemma singleFlowReadable_or_not track :
  singleFlowReadable GetSourceGroup track ∨ ¬ singleFlowReadable GetSourceGroup track.
Proof.
  destruct (OutgoingStream.resolve GetSourceGroup track (mediaTypeOf track))
    as [source|] eqn:Hresolve.
  - left. by eapply outgoing_resolve_Ok_inv.
  - right. intros Hreadable.
    destruct (outgoing_resolve_Ok GetSourceGroup track (mediaTypeOf track) Hreadable)
      as (source & first & Hok & _).
    by rewrite Hok in Hresolve.
Qed.

(** The loop of [NewOutgoingStream] panics exactly when the reads of one of
    the descriptors do not succeed. *)
Lemma outgoing_loop_Panic (l : list sdp.TrackInfo) o (transport : native.DTLSICETransport) w :
  OutgoingStream.transport o = Some transport →
  foldM (λ '(stream, w) track,
           '(_, stream, w) ← OutgoingStream.CreateTrack GetSourceGroup stream track w;
           Ok (stream, w)) (o, w) l = Panic
  ↔ ¬ Forall (singleFlowReadable GetSourceGroup) l.
Proof.
  revert o w. induction l as [|track l IH]; intros o w Hlive.
  - split; [done|]. intros []. constructor.
  - rewrite foldM_cons.
    destruct (singleFlowReadable_or_not track) as [Hreadable|Hunreadable].
    + destruct (outgoing_CreateTrack_Ok o track transport w Hlive Hreadable)
        as (r & o1 & w1 & -> & Hlive1).
      simpl. rewrite (IH o1 w1 Hlive1). rewrite Forall_cons. tauto.
    + rewrite outgoing_CreateTrack_Panic by done. simpl.
      split; [|done]. intros _ [? _]%Forall_cons. done.
Qed.

(** The loop of [NewOutgoingStream] on descriptors with distinct ids, none
    of them held: each descriptor gets a track, in the order of the loop. *)
Lemma outgoing_loop_Ok (l : list sdp.TrackInfo) o (transport : native.DTLSICETransport) w :
  OutgoingStream.transport o = Some transport →
  OutgoingStream.onAddTrackListeners o = [] →
  Forall (singleFlowReadable GetSourceGroup) l →
  NoDup (sdp.id <$> l) →
  (∀ track, track ∈ l → OutgoingStream.tracks o !! sdp.id track = None) →
  ∃ o' w',
    foldM (λ '(stream, w) track,
             '(_, stream, w) ← OutgoingStream.CreateTrack GetSourceGroup stream track w;
             Ok (stream, w)) (o, w) l = Ok (o', w')
    ∧ OutgoingStream.id o' = OutgoingStream.id o
    ∧ OutgoingStream.transport o' = Some transport
    ∧ OutgoingStream.muted o' = OutgoingStream.muted o
    ∧ OutgoingStream.onAddTrackListeners o' = []
    ∧ incomingTracks w' = incomingTracks w
    ∧ size (OutgoingStream.tracks o') = size (OutgoingStream.tracks o) + length l
    ∧ (∀ key, key ∉ sdp.id <$> l →
         OutgoingStream.tracks o' !! key = OutgoingStream.tracks o !! key)
    ∧ ∃ objs registered,
        outgoingTracks w' = outgoingTracks w ++ objs
        ∧ calls w' = calls w ++ registered
        ∧ length objs = length l
        ∧ length registered = length l
        ∧ (∀ j track, l !! j = Some track →
             ∃ source,
               OutgoingStream.resolve GetSourceGroup track (mediaTypeOf track) = Ok source
               ∧ OutgoingStream.tracks o' !! sdp.id track
                 = Some (length (outgoingTracks w) + j)
               ∧ objs !! j
                 = Some (OutgoingStreamTrack.new (sdp.media track) (sdp.id track)
                           transport source)
               ∧ registered !! j = Some (AddOutgoingSourceGroup transport source)).
Proof.
  revert o w. induction l as [|track l IH]; intros o w Hlive Hlisteners Hreadable Hnodup Hfresh.
  - exists o, w. split_and!; [done..|simpl; lia|done|].
    exists [], []. rewrite !app_nil_r. split_and!; [done..|]. by intros j track [=].
  - apply Forall_cons in Hreadable as [Hfirst Hreadable].
    rewrite fmap_cons in Hnodup. apply NoDup_cons in Hnodup as [Hid Hnodup].
    destruct (outgoing_resolve_Ok GetSourceGroup track (mediaTypeOf track) Hfirst)
      as (source & first & Hresolve & _).
    rewrite foldM_cons.
    rewrite (outgoing_CreateTrack_fresh GetSourceGroup o track transport source w);
      [|apply Hfresh; apply elem_of_cons; by left|done|done].
    rewrite Hlisteners. simpl.
    set (o1 := OutgoingStream.setTracks _ o).
    set (w1 := callAll [] _).
    destruct (IH o1 w1) as (o' & w' & -> & Hid' & Hlive' & Hmuted' & Hlisteners' & Hincoming
                             & Hsize & Hothers & objs & registered & Hobjs & Hregistered
                             & Hlen_objs & Hlen_registered & Heach);
      [done|done|done|done| |].
    { intros track' Hin. subst o1. simpl. rewrite lookup_insert_ne.
      - apply Hfresh. apply elem_of_cons. by right.
      - intros Heq. apply Hid. rewrite Heq. by apply list_elem_of_fmap_2. }
    exists o', w'. split; [done|]. split_and!; try done.
    + rewrite Hsize. subst o1. simpl. rewrite map_size_insert_None.
      * lia.
      * apply Hfresh. apply elem_of_cons. by left.
    + intros key [Hne Hkey]%not_elem_of_cons. rewrite Hothers by done.
      subst o1. simpl. by rewrite lookup_insert_ne.
    + exists (OutgoingStreamTrack.new (sdp.media track) (sdp.id track) transport source :: objs),
             (AddOutgoingSourceGroup transport source :: registered).
      split_and!.
      * rewrite Hobjs. subst w1. simpl. by rewrite <- app_assoc.
      * rewrite Hregistered. subst w1. simpl. by rewrite app_nil_r, <- app_assoc.
      * simpl. by rewrite Hlen_objs.
      * simpl. by rewrite Hlen_registered.
      * intros [|j] track' Htrack'.
        -- injection Htrack' as <-. exists source. split_and!; try done.
           rewrite Hothers by done. subst o1. simpl.
           rewrite Nat.add_0_r. apply lookup_insert_eq.
        -- simpl in Htrack'. destruct (Heach j track' Htrack')
             as (source' & Hresolve' & Hheld & Hobj & Hcall).
           exists source'. split_and!; try done.
           rewrite Hheld. subst w1. simpl. rewrite length_app. simpl. f_equal. lia.
Qed.

End OutgoingConstructor.

(** X12: [NewOutgoingStream] on a live transport, for a stream descriptor
    whose tracks have distinct ids and can be read. It returns an unmuted
    stream with the id of the descriptor, no listener, and one track for
    each track descriptor, held under the id of the descriptor; the tracks
    are new objects, allocated in the order of the loop, each with the
    source group resolved from its descriptor; the calls made are the
    registrations of these source groups, in that order; no listener is
    called, and no object there was is written. *)
Theorem NewOutgoingStream_tracks
    (GetSourceGroup : sdp.TrackInfo → string → option sdp.SourceGroupInfo)
    (transport : native.DTLSICETransport) (info : sdp.StreamInfo) (w : World) :
  Forall (singleFlowReadable GetSourceGroup) (sdp.tracks info) →
  NoDup (sdp.id <$> sdp.tracks info) →
  ∃ o w' registered,
    OutgoingStream.NewOutgoingStream GetSourceGroup (Some transport) info w = Ok (o, w')
    ∧ OutgoingStream.GetID o = sdp.streamID info
    ∧ OutgoingStream.transport o = Some transport
    ∧ OutgoingStream.IsMuted o = false
    ∧ OutgoingStream.onAddTrackListeners o = []
    ∧ size (OutgoingStream.tracks o) = length (sdp.tracks info)
    ∧ (∀ trackID, trackID ∉ sdp.id <$> sdp.tracks info → OutgoingStream.GetTrack o trackID = None)
    ∧ incomingTracks w' = incomingTracks w
    ∧ length (outgoingTracks w') = length (outgoingTracks w) + length (sdp.tracks info)
    ∧ (∀ p, p < length (outgoingTracks w) → outgoingTracks w' !! p = outgoingTracks w !! p)
    ∧ calls w' = calls w ++ registered
    ∧ length registered = length (sdp.tracks info)
    ∧ (∀ j track, sdp.tracks info !! j = Some track →
         ∃ source,
           OutgoingStream.resolve GetSourceGroup track (mediaTypeOf track) = Ok source
           ∧ OutgoingStream.GetTrack o (sdp.id track) = Some (length (outgoingTracks w) + j)
           ∧ outgoingTracks w' !! (length (outgoingTracks w) + j)
             = Some (OutgoingStreamTrack.new (sdp.media track) (sdp.id track) transport source)
           ∧ registered !! j = Some (AddOutgoingSourceGroup transport source)).
Proof.
  intros Hreadable Hnodup. unfold OutgoingStream.NewOutgoingStream.
  set (o0 := {| OutgoingStream.id := sdp.streamID info;
                OutgoingStream.transport := Some transport;
                OutgoingStream.muted := false; OutgoingStream.tracks := ∅;
                OutgoingStream.onAddTrackListeners := [] |}).
  destruct (outgoing_loop_Ok GetSourceGroup (sdp.tracks info) o0 transport w)
    as (o' & w' & -> & Hid & Hlive & Hmuted & Hlisteners & Hincoming & Hsize & Hothers
        & objs & registered & Hobjs & Hregistered & Hlen_objs & Hlen_registered & Heach);
    [done..|].
  simpl. eexists _, w', registered. split; [done|].
  unfold OutgoingStream.GetID, OutgoingStream.IsMuted, OutgoingStream.GetTrack,
    OutgoingStream.makeListeners. simpl.
  split_and!; try done.
  - by rewrite Hobjs, length_app, Hlen_objs.
  - intros p Hp. by rewrite Hobjs, lookup_app_l.
  - intros j track Htrack.
    destruct (Heach j track Htrack) as (source & Hresolve & Hheld & Hobj & Hcall).
    exists source. split_and!; try done.
    rewrite Hobjs, lookup_app_r by lia. by replace (_ + j - _) with j by lia.
Qed.

Lemma singleFlowReadable_audioAndVideo :
  Forall (singleFlowReadable lib.GetSourceGroup) (sdp.tracks audioAndVideo).
Proof.
  repeat constructor; simpl; try lia; intros group; vm_compute; intros [= <-]; simpl; lia.
Qed.

Lemma NewOutgoingStream_tracks_witness :
  (Forall (singleFlowReadable lib.GetSourceGroup) (sdp.tracks audioAndVideo)
   ∧ NoDup (sdp.id <$> sdp.tracks audioAndVideo))
  ∧ ∃ o w' registered,
    OutgoingStream.NewOutgoingStream lib.GetSourceGroup (Some 7%N) audioAndVideo emptyWorld
      = Ok (o, w')
    ∧ OutgoingStream.GetID o = sdp.streamID audioAndVideo
    ∧ OutgoingStream.transport o = Some 7%N
    ∧ OutgoingStream.IsMuted o = false
    ∧ OutgoingStream.onAddTrackListeners o = []
    ∧ size (OutgoingStream.tracks o) = length (sdp.tracks audioAndVideo)
    ∧ (∀ trackID, trackID ∉ sdp.id <$> sdp.tracks audioAndVideo →
         OutgoingStream.GetTrack o trackID = None)
    ∧ incomingTracks w' = incomingTracks emptyWorld
    ∧ length (outgoingTracks w')
      = length (outgoingTracks emptyWorld) + length (sdp.tracks audioAndVideo)
    ∧ (∀ p, p < length (outgoingTracks emptyWorld) →
         outgoingTracks w' !! p = outgoingTracks emptyWorld !! p)
    ∧ calls w' = calls emptyWorld ++ registered
    ∧ length registered = length (sdp.tracks audioAndVideo)
    ∧ (∀ j track, sdp.tracks audioAndVideo !! j = Some track →
         ∃ source,
           OutgoingStream.resolve lib.GetSourceGroup track (mediaTypeOf track) = Ok source
           ∧ OutgoingStream.GetTrack o (sdp.id track)
             = Some (length (outgoingTracks emptyWorld) + j)
           ∧ outgoingTracks w' !! (length (outgoingTracks emptyWorld) + j)
             = Some (OutgoingStreamTrack.new (sdp.media track) (sdp.id track) 7%N source)
           ∧ registered !! j = Some (AddOutgoingSourceGroup 7%N source)).
Proof.
  assert (NoDup (sdp.id <$> sdp.tracks audioAndVideo)) as Hnodup.
  { refine (bool_decide_unpack _ _). vm_compute. exact I. }
  split.
  - split; [exact singleFlowReadable_audioAndVideo|exact Hnodup].
  - exact (NewOutgoingStream_tracks lib.GetSourceGroup 7%N audioAndVideo emptyWorld
             singleFlowReadable_audioAndVideo Hnodup).
Defined.

Section IncomingConstructor.

Variable GetSourceGroup : sdp.TrackInfo → string → option sdp.SourceGroupInfo.

Implicit Types (i : IncomingStream.t) (w : World) (track : sdp.TrackInfo).

Lemma foldM_ext {S B} (f g : S → B → result S) (l : list B) (s : S) :
  (∀ s b, f s b = g s b) → foldM f s l = foldM g s l.
Proof.
  intros Hext. revert s. induction l as [|b l IH]; intros s; [done|].
  rewrite !foldM_cons, Hext. destruct (g s b); simpl; [apply IH|done].
Qed.

(** Of the stream, the resolution of a descriptor reads the transport
    only. *)
Lemma resolve_transport i1 i2 track (mediaType : native.MediaFrameType) w :
  IncomingStream.Transport i1 = IncomingStream.Transport i2 →
  IncomingStream.resolve GetSourceGroup i1 track mediaType w
  = IncomingStream.resolve GetSourceGroup i2 track mediaType w.
Proof.
  intros Htransport. unfold IncomingStream.resolve.
  destruct (decide (0 < length (sdp.encodings track))).
  - apply foldM_ext. intros st items. apply foldM_ext. intros st' encoding.
    unfold IncomingStream.resolveEncoding. by rewrite Htransport.
  - destruct (GetSourceGroup track "SIM").
    + apply foldM_ext. intros st member.
      unfold IncomingStream.resolveSimulcast. by rewrite Htransport.
    + unfold IncomingStream.resolveSingle. by rewrite Htransport.
Qed.

(** On a live stream the resolution of a descriptor returns exactly when
    its reads succeed. *)
Lemma incoming_resolve_Ok i track (transport : native.DTLSICETransport) w :
  IncomingStream.Transport i = Some transport →
  incomingReadable GetSourceGroup track →
  ∃ st, IncomingStream.resolve GetSourceGroup i track (mediaTypeOf track) w = Ok st.
Proof.
  intros Hlive. unfold incomingReadable.
  destruct (decide (0 < length (sdp.encodings track))) as [Hexplicit|Hnone].
  - intros Hreadable. eexists. by apply resolve_explicit.
  - assert (sdp.encodings track = []) as Hempty.
    { destruct (sdp.encodings track); [done|]. simpl in Hnone. lia. }
    destruct (GetSourceGroup track "SIM") as [SIM|] eqn:HSIM.
    + intros Hreadable. eexists. by eapply resolve_simulcast.
    + intros Hreadable. rewrite resolve_single by done.
      destruct (resolveSingle_Ok GetSourceGroup i track transport (mediaTypeOf track)
                  (∅, w) Hlive Hreadable) as (source & first & -> & _).
      by eexists.
Qed.

Lemma incoming_resolve_Ok_inv i track w st :
  IncomingStream.resolve GetSourceGroup i track (mediaTypeOf track) w = Ok st →
  incomingReadable GetSourceGroup track.
Proof.
  unfold incomingReadable.
  destruct (decide (0 < length (sdp.encodings track))) as [Hexplicit|Hnone].
  - unfold IncomingStream.resolve. rewrite decide_True by done. rewrite foldM_concat.
    intros Hall%foldM_resolveEncoding_inv. intros encoding Hin.
    by eapply Forall_forall in Hall.
  - assert (sdp.encodings track = []) as Hempty.
    { destruct (sdp.encodings track); [done|]. simpl in Hnone. lia. }
    destruct (GetSourceGroup track "SIM") as [SIM|] eqn:HSIM.
    + intros Hok. by eapply resolve_simulcast_inv.
    + rewrite resolve_single by done. apply resolveSingle_Ok_inv.
Qed.

Lemma incoming_resolve_Panic i track (transport : native.DTLSICETransport) w :
  IncomingStream.Transport i = Some transport →
  IncomingStream.resolve GetSourceGroup i track (mediaTypeOf track) w = Panic
  ↔ ¬ incomingReadable GetSourceGroup track.
Proof.
  intros Hlive. split.
  - intros Hpanic Hreadable.
    destruct (incoming_resolve_Ok i track transport w Hlive Hreadable) as [st Hok].
    by rewrite Hok in Hpanic.
  - intros Hunreadable.
    destruct (IncomingStream.resolve GetSourceGroup i track (mediaTypeOf track) w)
      as [st|] eqn:Hresolve; [|done].
    destruct Hunreadable. by eapply incoming_resolve_Ok_inv.
Qed.

Lemma incomingReadable_or_not track :
  incomingReadable GetSourceGroup track ∨ ¬ incomingReadable GetSourceGroup track.
Proof.
  destruct (IncomingStream.resolve GetSourceGroup liveIncoming track (mediaTypeOf track)
              emptyWorld) as [st|] eqn:Hresolve.
  - left. by eapply incoming_resolve_Ok_inv.
  - right. by eapply (incoming_resolve_Panic liveIncoming).
Qed.

(** [CreateTrack] on a live stream, for a descriptor whose id is not held
    and whose reads succeed. *)
Lemma incoming_CreateTrack_Ok i track (transport : native.DTLSICETransport) w :
  IncomingStream.Transport i = Some transport →
  IncomingStream.Tracks i !! sdp.id track = None →
  incomingReadable GetSourceGroup track →
  ∃ entries,
    IncomingStream.CreateTrack GetSourceGroup i track w =
      Ok (Some (length (incomingTracks w)),
          IncomingStream.setTracks
            (<[sdp.id track := length (incomingTracks w)]> (IncomingStream.Tracks i)) i,
          setIncomingTracks
            (incomingTracks w ++
               [IncomingStreamTrack.New (sdp.media track) (sdp.id track)
                  (IncomingStream.Receiver i) (enter entries ∅)])
            (callAll (registrations transport entries) w))
    ∧ (∀ w0, IncomingStream.resolve GetSourceGroup i track (mediaTypeOf track) w0
             = Ok (enter entries ∅, callAll (registrations transport entries) w0)).
Proof.
  intros Hlive Hfresh Hreadable.
  destruct (incoming_resolve_Ok i track transport w Hlive Hreadable) as [st Hresolve].
  destruct (resolve_uniform GetSourceGroup i track _ transport w st Hlive Hresolve)
    as (entries & _ & Hall).
  exists entries. split; [|done].
  by rewrite (CreateTrack_fresh GetSourceGroup i track w _ _ Hfresh (Hall w)).
Qed.

(** The loop of [newIncomingStream] on descriptors with distinct ids, none
    of them held: each descriptor gets a track, in the order of the loop. *)
Lemma incoming_loop_Ok (l : list sdp.TrackInfo) i (transport : native.DTLSICETransport) w :
  IncomingStream.Transport i = Some transport →
  Forall (incomingReadable GetSourceGroup) l →
  NoDup (sdp.id <$> l) →
  (∀ track, track ∈ l → IncomingStream.Tracks i !! sdp.id track = None) →
  ∃ i' w' resolved,
    foldM (λ '(stream, w) track,
             '(_, stream, w) ← IncomingStream.CreateTrack GetSourceGroup stream track w;
             Ok (stream, w)) (i, w) l = Ok (i', w')
    ∧ IncomingStream.Id i' = IncomingStream.Id i
    ∧ IncomingStream.Transport i' = Some transport
    ∧ IncomingStream.Receiver i' = IncomingStream.Receiver i
    ∧ outgoingTracks w' = outgoingTracks w
    ∧ size (IncomingStream.Tracks i') = size (IncomingStream.Tracks i) + length l
    ∧ (∀ key, key ∉ sdp.id <$> l →
         IncomingStream.Tracks i' !! key = IncomingStream.Tracks i !! key)
    ∧ (∀ j track, l !! j = Some track →
         IncomingStream.Tracks i' !! sdp.id track = Some (length (incomingTracks w) + j))
    ∧ Forall2 (λ track entries,
                 ∀ w0, IncomingStream.resolve GetSourceGroup i track (mediaTypeOf track) w0
                       = Ok (enter entries ∅, callAll (registrations transport entries) w0))
              l resolved
    ∧ incomingTracks w'
      = incomingTracks w
        ++ zip_with (λ track entries,
                       IncomingStreamTrack.New (sdp.media track) (sdp.id track)
                         (IncomingStream.Receiver i) (enter entries ∅)) l resolved
    ∧ calls w' = calls w ++ concat (registrations transport <$> resolved).
Proof.
  revert i w. induction l as [|track l IH]; intros i w Hlive Hreadable Hnodup Hfresh.
  - exists i, w, []. split_and!; [done..|simpl; lia|done|by intros j track [=]|done| |].
    + simpl. by rewrite app_nil_r.
    + simpl. by rewrite app_nil_r.
  - apply Forall_cons in Hreadable as [Hfirst Hreadable].
    rewrite fmap_cons in Hnodup. apply NoDup_cons in Hnodup as [Hid Hnodup].
    destruct (incoming_CreateTrack_Ok i track transport w Hlive) as (entries & Hcreate & Hresolve);
      [apply Hfresh; apply elem_of_cons; by left|done|].
    rewrite foldM_cons, Hcreate. simpl.
    set (i1 := IncomingStream.setTracks _ i).
    set (w1 := setIncomingTracks _ _).
    destruct (IH i1 w1) as (i' & w' & resolved & -> & Hid' & Hlive' & Hreceiver' & Houtgoing
                             & Hsize & Hothers & Hheld & Hresolved & Hobjs & Hcalls);
      [done|done|done| |].
    { intros track' Hin. subst i1. simpl. rewrite lookup_insert_ne.
      - apply Hfresh. apply elem_of_cons. by right.
      - intros Heq. apply Hid. rewrite Heq. by apply list_elem_of_fmap_2. }
    exists i', w', (entries :: resolved). split; [done|]. split_and!; try done.
    + rewrite Hsize. subst i1. simpl. rewrite map_size_insert_None.
      * lia.
      * apply Hfresh. apply elem_of_cons. by left.
    + intros key [Hne Hkey]%not_elem_of_cons. rewrite Hothers by done.
      subst i1. simpl. by rewrite lookup_insert_ne.
    + intros [|j] track' Htrack'.
      * injection Htrack' as <-. rewrite Hothers by done. subst i1. simpl.
        rewrite Nat.add_0_r. apply lookup_insert_eq.
      * simpl in Htrack'. rewrite (Hheld j track' Htrack').
        subst w1. simpl. rewrite length_app. simpl. f_equal. lia.
    + constructor; [done|].
      eapply Forall2_impl; [exact Hresolved|]. intros track' entries' Hall w0.
      rewrite <- Hall. by apply resolve_transport.
    + rewrite Hobjs. subst w1 i1. simpl. by rewrite <- app_assoc.
    + rewrite Hcalls. subst w1. simpl. by rewrite <- app_assoc.
Qed.

(** The loop of [newIncomingStream], on descriptors with distinct ids,
    panics exactly when the reads of one of them do not succeed. *)
Lemma incoming_loop_Panic (l : list sdp.TrackInfo) i (transport : native.DTLSICETransport) w :
  IncomingStream.Transport i = Some transport →
  NoDup (sdp.id <$> l) →
  (∀ track, track ∈ l → IncomingStream.Tracks i !! sdp.id track = None) →
  foldM (λ '(stream, w) track,
           '(_, stream, w) ← IncomingStream.CreateTrack GetSourceGroup stream track w;
           Ok (stream, w)) (i, w) l = Panic
  ↔ ¬ Forall (incomingReadable GetSourceGroup) l.
Proof.
  revert i w. induction l as [|track l IH]; intros i w Hlive Hnodup Hfresh.
  - split; [done|]. intros []. constructor.
  - rewrite fmap_cons in Hnodup. apply NoDup_cons in Hnodup as [Hid Hnodup].
    assert (IncomingStream.Tracks i !! sdp.id track = None) as Hfirst
      by (apply Hfresh; apply elem_of_cons; by left).
    rewrite foldM_cons.
    destruct (incomingReadable_or_not track) as [Hreadable|Hunreadable].
    + destruct (incoming_CreateTrack_Ok i track transport w Hlive Hfirst Hreadable)
        as (entries & -> & _).
      simpl. rewrite IH; [rewrite Forall_cons; tauto|done|done|].
      intros track' Hin. simpl. rewrite lookup_insert_ne.
      * apply Hfresh. apply elem_of_cons. by right.
      * intros Heq. apply Hid. rewrite Heq. by apply list_elem_of_fmap_2.
    + assert (IncomingStream.CreateTrack GetSourceGroup i track w = Panic) as ->.
      { apply CreateTrack_fresh_Panic; [done|]. by eapply incoming_resolve_Panic. }
      simpl. split; [|done]. intros _ [? _]%Forall_cons. done.
Qed.

End IncomingConstructor.

(** X13: [newIncomingStream] on a live transport, for a stream descriptor
    whose tracks have distinct ids and can be read. It returns a stream with
    the id of the descriptor and the transport and receiver it was handed,
    holding one track for each track descriptor under the id of the
    descriptor; the tracks are new objects, allocated in the order of the
    loop, each with the media kind of its descriptor, the receiver, and the
    source groups resolved from its descriptor; the calls made are the
    registrations of these source groups, descriptor after descriptor; no
    object there was is written. *)
Theorem newIncomingStream_tracks
    (GetSourceGroup : sdp.TrackInfo → string → option sdp.SourceGroupInfo)
    (transport : native.DTLSICETransport) (receiver : option native.RTPReceiverFacade)
    (info : sdp.StreamInfo) (w : World) :
  Forall (incomingReadable GetSourceGroup) (sdp.tracks info) →
  NoDup (sdp.id <$> sdp.tracks info) →
  ∃ i w' resolved,
    IncomingStream.newIncomingStream GetSourceGroup (Some transport) receiver info w
      = Ok (i, w')
    ∧ IncomingStream.GetID i = sdp.streamID info
    ∧ IncomingStream.Transport i = Some transport
    ∧ IncomingStream.Receiver i = receiver
    ∧ size (IncomingStream.Tracks i) = length (sdp.tracks info)
    ∧ (∀ trackID, trackID ∉ sdp.id <$> sdp.tracks info → IncomingStream.GetTrack i trackID = None)
    ∧ outgoingTracks w' = outgoingTracks w
    ∧ length (incomingTracks w') = length (incomingTracks w) + length (sdp.tracks info)
    ∧ (∀ p, p < length (incomingTracks w) → incomingTracks w' !! p = incomingTracks w !! p)
    ∧ calls w' = calls w ++ concat (registrations transport <$> resolved)
    ∧ length resolved = length (sdp.tracks info)
    ∧ (∀ j track, sdp.tracks info !! j = Some track →
         ∃ entries,
           resolved !! j = Some entries
           ∧ (∀ w0, IncomingStream.resolve GetSourceGroup i track (mediaTypeOf track) w0
                    = Ok (enter entries ∅, callAll (registrations transport entries) w0))
           ∧ IncomingStream.GetTrack i (sdp.id track) = Some (length (incomingTracks w) + j)
           ∧ incomingTracks w' !! (length (incomingTracks w) + j)
             = Some (IncomingStreamTrack.New (sdp.media track) (sdp.id track) receiver
                       (enter entries ∅))).
Proof.
  intros Hreadable Hnodup. unfold IncomingStream.newIncomingStream.
  set (i0 := {| IncomingStream.Id := sdp.streamID info;
                IncomingStream.Transport := Some transport;
                IncomingStream.Receiver := receiver; IncomingStream.Tracks := ∅ |}).
  destruct (incoming_loop_Ok GetSourceGroup (sdp.tracks info) i0 transport w)
    as (i & w' & resolved & -> & Hid & Hlive & Hreceiver & Houtgoing & Hsize & Hothers
        & Hheld & Hresolved & Hobjs & Hcalls); [done..|].
  exists i, w', resolved. split; [done|].
  pose proof (Forall2_length _ _ _ Hresolved) as Hlength.
  unfold IncomingStream.GetID, IncomingStream.GetTrack.
  split_and!; try done.
  - rewrite Hobjs, length_app, length_zip_with. lia.
  - intros p Hp. by rewrite Hobjs, lookup_app_l.
  - intros j track Htrack.
    destruct (Forall2_lookup_l _ _ _ _ _ Hresolved Htrack) as (entries & Hentries & Hall).
    exists entries. split_and!; [done| |by apply Hheld|].
    + intros w0. rewrite <- Hall. by apply resolve_transport.
    + rewrite Hobjs, lookup_app_r by lia. replace (_ + j - _) with j by lia.
      rewrite lookup_zip_with, Htrack. simpl. by rewrite Hentries.
Qed.

Lemma incomingReadable_audioAndVideo :
  Forall (incomingReadable lib.GetSourceGroup) (sdp.tracks audioAndVideo).
Proof.
  repeat constructor; simpl; try lia; intros group; vm_compute; intros [= <-]; simpl; lia.
Qed.

Lemma newIncomingStream_tracks_witness :
  (Forall (incomingReadable lib.GetSourceGroup) (sdp.tracks audioAndVideo)
   ∧ NoDup (sdp.id <$> sdp.tracks audioAndVideo))
  ∧ ∃ i w' resolved,
    IncomingStream.newIncomingStream lib.GetSourceGroup (Some 7%N) (Some 9%N) audioAndVideo
      emptyWorld = Ok (i, w')
    ∧ IncomingStream.GetID i = sdp.streamID audioAndVideo
    ∧ IncomingStream.Transport i = Some 7%N
    ∧ IncomingStream.Receiver i = Some 9%N
    ∧ size (IncomingStream.Tracks i) = length (sdp.tracks audioAndVideo)
    ∧ (∀ trackID, trackID ∉ sdp.id <$> sdp.tracks audioAndVideo →
         IncomingStream.GetTrack i trackID = None)
    ∧ outgoingTracks w' = outgoingTracks emptyWorld
    ∧ length (incomingTracks w')
      = length (incomingTracks emptyWorld) + length (sdp.tracks audioAndVideo)
    ∧ (∀ p, p < length (incomingTracks emptyWorld) →
         incomingTracks w' !! p = incomingTracks emptyWorld !! p)
    ∧ calls w' = calls emptyWorld ++ concat (registrations 7%N <$> resolved)
    ∧ length resolved = length (sdp.tracks audioAndVideo)
    ∧ (∀ j track, sdp.tracks audioAndVideo !! j = Some track →
         ∃ entries,
           resolved !! j = Some entries
           ∧ (∀ w0, IncomingStream.resolve lib.GetSourceGroup i track (mediaTypeOf track) w0
                    = Ok (enter entries ∅, callAll (registrations 7%N entries) w0))
           ∧ IncomingStream.GetTrack i (sdp.id track)
             = Some (length (incomingTracks emptyWorld) + j)
           ∧ incomingTracks w' !! (length (incomingTracks emptyWorld) + j)
             = Some (IncomingStreamTrack.New (sdp.media track) (sdp.id track) (Some 9%N)
                       (enter entries ∅))).
Proof.
  assert (NoDup (sdp.id <$> sdp.tracks audioAndVideo)) as Hnodup.
  { refine (bool_decide_unpack _ _). vm_compute. exact I. }
  split.
  - split; [exact incomingReadable_audioAndVideo|exact Hnodup].
  - exact (newIncomingStream_tracks lib.GetSourceGroup 7%N (Some 9%N) audioAndVideo emptyWorld
             incomingReadable_audioAndVideo Hnodup).
Defined.

(** X14: when the constructors panic. On a live transport
    [NewOutgoingStream] panics exactly when the reads of one of the track
    descriptors do not succeed, and so does [newIncomingStream] when the
    descriptors have distinct ids; handed a nil transport,
    [NewOutgoingStream] panics exactly when the stream descriptor has a
    track. *)
Theorem constructors_panic
    (GetSourceGroup : sdp.TrackInfo → string → option sdp.SourceGroupInfo)
    (transport : native.DTLSICETransport) (receiver : option native.RTPReceiverFacade)
    (info : sdp.StreamInfo) (w : World) :
  (OutgoingStream.NewOutgoingStream GetSourceGroup (Some transport) info w = Panic
   ↔ ¬ Forall (singleFlowReadable GetSourceGroup) (sdp.tracks info))
  ∧ (OutgoingStream.NewOutgoingStream GetSourceGroup None info w = Panic
     ↔ sdp.tracks info ≠ [])
  ∧ (NoDup (sdp.id <$> sdp.tracks info) →
     (IncomingStream.newIncomingStream GetSourceGroup (Some transport) receiver info w = Panic
      ↔ ¬ Forall (incomingReadable GetSourceGroup) (sdp.tracks info))).
Proof.
  split_and!.
  - unfold OutgoingStream.NewOutgoingStream.
    set (o0 := {| OutgoingStream.id := sdp.streamID info;
                  OutgoingStream.transport := Some transport;
                  OutgoingStream.muted := false; OutgoingStream.tracks := ∅;
                  OutgoingStream.onAddTrackListeners := [] |}).
    pose proof (outgoing_loop_Panic GetSourceGroup (sdp.tracks info) o0 transport w eq_refl)
      as Hloop.
    destruct (foldM _ (o0, w) (sdp.tracks info)) as [[o' w']|]; simpl; rewrite <- Hloop;
      by split.
  - unfold OutgoingStream.NewOutgoingStream.
    destruct (sdp.tracks info) as [|track l]; [by split|].
    rewrite foldM_cons, outgoing_CreateTrack_nil by done. by split.
  - intros Hnodup. unfold IncomingStream.newIncomingStream.
    by apply (incoming_loop_Panic GetSourceGroup (sdp.tracks info) _ transport w).
Qed.

Lemma constructors_panic_witness :
  NoDup (sdp.id <$> sdp.tracks audioAndVideo)
  ∧ (OutgoingStream.NewOutgoingStream lib.GetSourceGroup (Some 7%N) audioAndVideo emptyWorld
       = Panic
     ↔ ¬ Forall (singleFlowReadable lib.GetSourceGroup) (sdp.tracks audioAndVideo))
  ∧ (OutgoingStream.NewOutgoingStream lib.GetSourceGroup None audioAndVideo emptyWorld = Panic
     ↔ sdp.tracks audioAndVideo ≠ [])
  ∧ (IncomingStream.newIncomingStream lib.GetSourceGroup (Some 7%N) (Some 9%N) audioAndVideo
       emptyWorld = Panic
     ↔ ¬ Forall (incomingReadable lib.GetSourceGroup) (sdp.tracks audioAndVideo)).
Proof.
  assert (NoDup (sdp.id <$> sdp.tracks audioAndVideo)) as Hnodup.
  { refine (bool_decide_unpack _ _). vm_compute. exact I. }
  split; [exact Hnodup|].
  destruct (constructors_panic lib.GetSourceGroup 7%N (Some 9%N) audioAndVideo emptyWorld)
    as (Hlive & Hnil & Hincoming).
  exact (conj Hlive (conj Hnil (Hincoming Hnodup))).
Defined.

(** ** A stream from its constructor to [Stop] *)

Section Lifetime.

Variable GetSourceGroup : sdp.TrackInfo → string → option sdp.SourceGroupInfo.
Variable range : gmap string ptr → list (string * ptr).
Hypothesis range_visits : ∀ m, range m ≡ₚ map_to_list m.

(** A map that holds the positions from [first] on under distinct keys is
    visited at these positions. *)
Lemma range_positions (m : gmap string ptr) (keys : list string) (first : nat) :
  NoDup keys →
  (∀ j key, keys !! j = Some key → m !! key = Some (first + j)) →
  (∀ key, key ∉ keys → m !! key = None) →
  (range m).*2 ≡ₚ seq first (length keys).
Proof.
  intros Hnodup Hheld Hothers.
  assert (m = list_to_map (zip keys (seq first (length keys)))) as ->.
  { apply map_eq. intros key. destruct (decide (key ∈ keys)) as [Hin|Hout].
    - apply list_elem_of_lookup in Hin as [j Hj]. rewrite (Hheld j key Hj).
      symmetry. apply elem_of_list_to_map_1.
      + by rewrite fst_zip by (by rewrite length_seq).
      + apply (list_elem_of_lookup_2 _ j). apply lookup_zip_Some. split; [done|].
        apply lookup_seq_lt. by eapply lookup_lt_Some.
    - rewrite (Hothers key Hout). symmetry. apply not_elem_of_list_to_map_1.
      by rewrite fst_zip by (by rewrite length_seq). }
  rewrite range_visits, map_to_list_to_map.
  - by rewrite snd_zip by (by rewrite length_seq).
  - by rewrite fst_zip by (by rewrite length_seq).
Qed.

(** Reading the objects appended to a heap at their positions. *)
Lemma omap_seq_appended {A B} (f : A → B) (h objs : list A) :
  omap (λ p, f <$> (h ++ objs) !! p) (seq (length h) (length objs)) = f <$> objs.
Proof.
  revert h. induction objs as [|obj objs IH]; intros h; [done|].
  simpl. rewrite list_lookup_middle by done. simpl. f_equal.
  specialize (IH (h ++ [obj])). rewrite length_app, Nat.add_1_r, <- app_assoc in IH.
  exact IH.
Qed.

End Lifetime.

(** X15: from [NewOutgoingStream] to [Stop]. For a stream descriptor whose
    tracks have distinct ids and can be read, the constructor registers one
    outgoing source group for each track with the transport, and [Stop] on
    the stream it returns has [Stop] and [DeleteOutgoingSourceGroup] called
    on each of the tracks created, once, in the order the range visits the
    track map, so that each of these groups is unregistered once; it leaves
    the track map empty and the transport nil, and writes no other
    object. *)
Theorem NewOutgoingStream_then_Stop
    (GetSourceGroup : sdp.TrackInfo → string → option sdp.SourceGroupInfo)
    (range : gmap string ptr → list (string * ptr))
    (transport : native.DTLSICETransport) (info : sdp.StreamInfo) (w : World) :
  (∀ m, range m ≡ₚ map_to_list m) →
  Forall (singleFlowReadable GetSourceGroup) (sdp.tracks info) →
  NoDup (sdp.id <$> sdp.tracks info) →
  ∃ o w1 sources unregistered,
    OutgoingStream.NewOutgoingStream GetSourceGroup (Some transport) info w = Ok (o, w1)
    ∧ calls w1 = calls w ++ (AddOutgoingSourceGroup transport <$> sources)
    ∧ length sources = length (sdp.tracks info)
    ∧ calls (OutgoingStream.Stop range o w1).2 = calls w1 ++ unregistered
    ∧ unregistered ≡ₚ RemoveOutgoingSourceGroup transport <$> sources
    ∧ OutgoingStream.tracks (OutgoingStream.Stop range o w1).1 = ∅
    ∧ OutgoingStream.transport (OutgoingStream.Stop range o w1).1 = None
    ∧ incomingTracks (OutgoingStream.Stop range o w1).2 = incomingTracks w
    ∧ length (outgoingTracks (OutgoingStream.Stop range o w1).2)
      = length (outgoingTracks w) + length (sdp.tracks info)
    ∧ (∀ p, p < length (outgoingTracks w) →
         outgoingTracks (OutgoingStream.Stop range o w1).2 !! p = outgoingTracks w !! p)
    ∧ (∀ p obj, length (outgoingTracks w) ≤ p →
         outgoingTracks (OutgoingStream.Stop range o w1).2 !! p = Some obj →
         OutgoingStreamTrack.stopped obj = true).
Proof.
  intros Hvisits Hreadable Hnodup. unfold OutgoingStream.NewOutgoingStream.
  set (o0 := {| OutgoingStream.id := sdp.streamID info;
                OutgoingStream.transport := Some transport;
                OutgoingStream.muted := false; OutgoingStream.tracks := ∅;
                OutgoingStream.onAddTrackListeners := [] |}).
  destruct (outgoing_loop_Ok GetSourceGroup (sdp.tracks info) o0 transport w)
    as (o' & w1 & -> & Hid & Hlive & Hmuted & Hlisteners & Hincoming & Hsize & Hothers
        & objs & registered & Hobjs & Hregistered & Hlen_objs & Hlen_registered & Heach);
    [done..|].
  simpl.
  assert (registered
          = AddOutgoingSourceGroup transport <$> (OutgoingStreamTrack.source <$> objs))
    as Hadded.
  { apply list_eq. intros j. rewrite !list_lookup_fmap.
    destruct (sdp.tracks info !! j) as [track|] eqn:Htrack.
    - destruct (Heach j track Htrack) as (source & _ & _ & -> & ->). done.
    - apply lookup_ge_None in Htrack.
      rewrite (lookup_ge_None_2 registered), (lookup_ge_None_2 objs) by lia. done. }
  assert ((range (OutgoingStream.tracks o')).*2
          ≡ₚ seq (length (outgoingTracks w)) (length objs)) as Hpositions.
  { rewrite Hlen_objs, <- (length_fmap sdp.id).
    apply (range_positions range Hvisits); [done| |].
    - intros j key (track & -> & Htrack)%list_lookup_fmap_Some.
      by destruct (Heach j track Htrack) as (source & _ & -> & _).
    - intros key Hkey. by rewrite Hothers. }
  exists (OutgoingStream.makeListeners o'), w1, (OutgoingStreamTrack.source <$> objs).
  eexists.
  unfold OutgoingStream.Stop, OutgoingStream.makeListeners. simpl. rewrite Hlive.
  rewrite foldl_outgoing_stopTrack. simpl.
  split_and!; [done|by rewrite Hregistered, Hadded|by rewrite length_fmap|done| |done..| | |].
  - rewrite Hpositions, Hobjs.
    rewrite (omap_seq_appended
               (λ obj, RemoveOutgoingSourceGroup transport (OutgoingStreamTrack.source obj))).
    by rewrite <- list_fmap_compose.
  - by rewrite alterAll_length, Hobjs, length_app, Hlen_objs.
  - intros p Hp. rewrite alterAll_lookup by apply OutgoingStreamTrack_Stop_idemp.
    rewrite decide_False.
    + by rewrite Hobjs, lookup_app_l.
    + rewrite Hpositions, elem_of_seq. lia.
  - intros p obj Hp. rewrite alterAll_lookup by apply OutgoingStreamTrack_Stop_idemp.
    destruct (decide (p ∈ (range (OutgoingStream.tracks o')).*2)) as [Hin|Hout].
    + destruct (outgoingTracks w1 !! p); intros [= <-]. done.
    + intros Hobj. destruct Hout. rewrite Hpositions, elem_of_seq.
      apply lookup_lt_Some in Hobj. rewrite Hobjs, length_app in Hobj. lia.
Qed.

Lemma NewOutgoingStream_then_Stop_witness :
  ((∀ m, lib.range m ≡ₚ map_to_list m)
   ∧ Forall (singleFlowReadable lib.GetSourceGroup) (sdp.tracks audioAndVideo)
   ∧ NoDup (sdp.id <$> sdp.tracks audioAndVideo))
  ∧ ∃ o w1 sources unregistered,
    OutgoingStream.NewOutgoingStream lib.GetSourceGroup (Some 7%N) audioAndVideo emptyWorld
      = Ok (o, w1)
    ∧ calls w1 = calls emptyWorld ++ (AddOutgoingSourceGroup 7%N <$> sources)
    ∧ length sources = length (sdp.tracks audioAndVideo)
    ∧ calls (OutgoingStream.Stop lib.range o w1).2 = calls w1 ++ unregistered
    ∧ unregistered ≡ₚ RemoveOutgoingSourceGroup 7%N <$> sources
    ∧ OutgoingStream.tracks (OutgoingStream.Stop lib.range o w1).1 = ∅
    ∧ OutgoingStream.transport (OutgoingStream.Stop lib.range o w1).1 = None
    ∧ incomingTracks (OutgoingStream.Stop lib.range o w1).2 = incomingTracks emptyWorld
    ∧ length (outgoingTracks (OutgoingStream.Stop lib.range o w1).2)
      = length (outgoingTracks emptyWorld) + length (sdp.tracks audioAndVideo)
    ∧ (∀ p, p < length (outgoingTracks emptyWorld) →
         outgoingTracks (OutgoingStream.Stop lib.range o w1).2 !! p
         = outgoingTracks emptyWorld !! p)
    ∧ (∀ p obj, length (outgoingTracks emptyWorld) ≤ p →
         outgoingTracks (OutgoingStream.Stop lib.range o w1).2 !! p = Some obj →
         OutgoingStreamTrack.stopped obj = true).
Proof.
  assert (NoDup (sdp.id <$> sdp.tracks audioAndVideo)) as Hnodup.
  { refine (bool_decide_unpack _ _). vm_compute. exact I. }
  assert (∀ m, lib.range m ≡ₚ map_to_list m) as Hvisits by (by intros m).
  split.
  - split_and!; [exact Hvisits|exact singleFlowReadable_audioAndVideo|exact Hnodup].
  - exact (NewOutgoingStream_then_Stop lib.GetSourceGroup lib.range 7%N audioAndVideo
             emptyWorld Hvisits singleFlowReadable_audioAndVideo Hnodup).
Defined.
(** ** Track listeners *)

Lemma OnTrack_all (o : OutgoingStream.t) (listeners : list nat) :
  foldl OutgoingStream.OnTrack o listeners
  = {| OutgoingStream.id := OutgoingStream.id o;
       OutgoingStream.transport := OutgoingStream.transport o;
       OutgoingStream.muted := OutgoingStream.muted o;
       OutgoingStream.tracks := OutgoingStream.tracks o;
       OutgoingStream.onAddTrackListeners :=
         OutgoingStream.onAddTrackListeners o ++ listeners |}.
Proof.
  revert o. induction listeners as [|listener listeners IH]; intros o.
  - simpl. rewrite app_nil_r. by destruct o.
  - simpl. rewrite IH. simpl. by rewrite <- app_assoc.
Qed.

(** X16: the listeners handed to [OnTrack] are called by [CreateTrack] when
    it creates a track, each once, after the listeners the stream had, in
    the order they were handed over, with the new track, and after the
    source group is registered; they stay registered, and a second
    [CreateTrack] for the same descriptor calls none of them. *)
Theorem OnTrack_then_CreateTrack
    (GetSourceGroup : sdp.TrackInfo → string → option sdp.SourceGroupInfo)
    (o : OutgoingStream.t) (listeners : list nat) (track : sdp.TrackInfo)
    (transport : native.DTLSICETransport) (w : World) :
  OutgoingStream.tracks o !! sdp.id track = None →
  OutgoingStream.transport o = Some transport →
  singleFlowReadable GetSourceGroup track →
  ∃ p o' w' source,
    OutgoingStream.CreateTrack GetSourceGroup
      (foldl OutgoingStream.OnTrack o listeners) track w = Ok (Some p, o', w')
    ∧ OutgoingStream.GetTrack o' (sdp.id track) = Some p
    ∧ OutgoingStream.onAddTrackListeners o'
      = OutgoingStream.onAddTrackListeners o ++ listeners
    ∧ calls w' = calls w ++ [AddOutgoingSourceGroup transport source]
                   ++ ((λ listener, OnTrack listener p)
                         <$> (OutgoingStream.onAddTrackListeners o ++ listeners))
    ∧ OutgoingStream.CreateTrack GetSourceGroup o' track w' = Ok (None, o', w').
Proof.
  intros Hfresh Hlive Hreadable. rewrite OnTrack_all.
  destruct (outgoing_resolve_Ok GetSourceGroup track (mediaTypeOf track) Hreadable)
    as (source & first & Hresolve & _).
  rewrite (outgoing_CreateTrack_fresh GetSourceGroup _ track transport source w) by done.
  eexists _, _, _, source. split; [done|]. simpl. split_and!.
  - apply lookup_insert_eq.
  - done.
  - by rewrite <- app_assoc.
  - unfold OutgoingStream.CreateTrack. rewrite Hresolve. simpl.
    by rewrite lookup_insert_eq.
Qed.

Lemma OnTrack_then_CreateTrack_witness :
  (OutgoingStream.tracks liveOutgoing !! sdp.id audioSingle = None
   ∧ OutgoingStream.transport liveOutgoing = Some 7%N
   ∧ singleFlowReadable lib.GetSourceGroup audioSingle)
  ∧ ∃ p o' w' source,
    OutgoingStream.CreateTrack lib.GetSourceGroup
      (foldl OutgoingStream.OnTrack liveOutgoing [1; 2]) audioSingle emptyWorld
      = Ok (Some p, o', w')
    ∧ OutgoingStream.GetTrack o' (sdp.id audioSingle) = Some p
    ∧ OutgoingStream.onAddTrackListeners o'
      = OutgoingStream.onAddTrackListeners liveOutgoing ++ [1; 2]
    ∧ calls w' = calls emptyWorld ++ [AddOutgoingSourceGroup 7%N source]
                   ++ ((λ listener, OnTrack listener p)
                         <$> (OutgoingStream.onAddTrackListeners liveOutgoing ++ [1; 2]))
    ∧ OutgoingStream.CreateTrack lib.GetSourceGroup o' audioSingle w' = Ok (None, o', w').
Proof.
  split.
  - split_and!; [reflexivity|reflexivity|exact singleFlowReadable_audioSingle].
  - exact (OnTrack_then_CreateTrack lib.GetSourceGroup liveOutgoing [1; 2] audioSingle 7%N
             emptyWorld eq_refl eq_refl singleFlowReadable_audioSingle).
Defined.

(** X17: from [newIncomingStream] to [Stop]. For a stream descriptor whose
    tracks have distinct ids and can be read, [Stop] on the stream the
    constructor returns has [Stop] called on each of the tracks created,
    leaves the track map empty and the transport and the receiver nil, and
    of its own makes one call on the native layer,
    [DeleteRTPReceiverFacade] on the receiver; the mappings of the tracks
    keep their source groups, and no other object is written. *)
Theorem newIncomingStream_then_Stop
    (GetSourceGroup : sdp.TrackInfo → string → option sdp.SourceGroupInfo)
    (range : gmap string ptr → list (string * ptr))
    (transport : native.DTLSICETransport) (receiver : option native.RTPReceiverFacade)
    (info : sdp.StreamInfo) (w : World) :
  (∀ m, range m ≡ₚ map_to_list m) →
  Forall (incomingReadable GetSourceGroup) (sdp.tracks info) →
  NoDup (sdp.id <$> sdp.tracks info) →
  ∃ i w1,
    IncomingStream.newIncomingStream GetSourceGroup (Some transport) receiver info w
      = Ok (i, w1)
    ∧ calls (IncomingStream.Stop range i w1).2
      = calls w1 ++ [DeleteRTPReceiverFacade receiver]
    ∧ IncomingStream.Tracks (IncomingStream.Stop range i w1).1 = ∅
    ∧ IncomingStream.Transport (IncomingStream.Stop range i w1).1 = None
    ∧ IncomingStream.Receiver (IncomingStream.Stop range i w1).1 = None
    ∧ outgoingTracks (IncomingStream.Stop range i w1).2 = outgoingTracks w
    ∧ length (incomingTracks (IncomingStream.Stop range i w1).2)
      = length (incomingTracks w) + length (sdp.tracks info)
    ∧ (∀ p, p < length (incomingTracks w) →
         incomingTracks (IncomingStream.Stop range i w1).2 !! p = incomingTracks w !! p)
    ∧ (∀ p obj, length (incomingTracks w) ≤ p →
         incomingTracks (IncomingStream.Stop range i w1).2 !! p = Some obj →
         IncomingStreamTrack.stopped obj = true)
    ∧ (∀ p, IncomingStreamTrack.sources <$> incomingTracks (IncomingStream.Stop range i w1).2 !! p
            = IncomingStreamTrack.sources <$> incomingTracks w1 !! p).
Proof.
  intros Hvisits Hreadable Hnodup. unfold IncomingStream.newIncomingStream.
  set (i0 := {| IncomingStream.Id := sdp.streamID info;
                IncomingStream.Transport := Some transport;
                IncomingStream.Receiver := receiver; IncomingStream.Tracks := ∅ |}).
  destruct (incoming_loop_Ok GetSourceGroup (sdp.tracks info) i0 transport w)
    as (i & w1 & resolved & -> & Hid & Hlive & Hreceiver & Houtgoing & Hsize & Hothers
        & Hheld & Hresolved & Hobjs & Hcalls); [done..|].
  pose proof (Forall2_length _ _ _ Hresolved) as Hlength.
  assert ((range (IncomingStream.Tracks i)).*2
          ≡ₚ seq (length (incomingTracks w)) (length (sdp.tracks info))) as Hpositions.
  { rewrite <- (length_fmap sdp.id).
    apply (range_positions range Hvisits); [done| |].
    - intros j key (track & -> & Htrack)%list_lookup_fmap_Some. by apply Hheld.
    - intros key Hkey. by rewrite Hothers. }
  assert (length (incomingTracks w1)
          = length (incomingTracks w) + length (sdp.tracks info)) as Hheap.
  { rewrite Hobjs, length_app, length_zip_with. lia. }
  exists i, w1. split; [done|].
  unfold IncomingStream.Stop. rewrite Hlive, foldl_incoming_stopTrack. simpl.
  split_and!; [by rewrite Hreceiver|by apply foldl_delete_range|done..| | | |].
  - by rewrite alterAll_length.
  - intros p Hp. rewrite alterAll_lookup by apply IncomingStreamTrack_Stop_idemp.
    rewrite decide_False.
    + by rewrite Hobjs, lookup_app_l.
    + rewrite Hpositions, elem_of_seq. lia.
  - intros p obj Hp. rewrite alterAll_lookup by apply IncomingStreamTrack_Stop_idemp.
    destruct (decide (p ∈ (range (IncomingStream.Tracks i)).*2)) as [Hin|Hout].
    + destruct (incomingTracks w1 !! p); intros [= <-]. done.
    + intros Hobj. destruct Hout. rewrite Hpositions, elem_of_seq.
      apply lookup_lt_Some in Hobj. lia.
  - intros p. by apply alterAll_lookup_fmap.
Qed.

Lemma newIncomingStream_then_Stop_witness :
  ((∀ m, lib.range m ≡ₚ map_to_list m)
   ∧ Forall (incomingReadable lib.GetSourceGroup) (sdp.tracks audioAndVideo)
   ∧ NoDup (sdp.id <$> sdp.tracks audioAndVideo))
  ∧ ∃ i w1,
    IncomingStream.newIncomingStream lib.GetSourceGroup (Some 7%N) (Some 9%N) audioAndVideo
      emptyWorld = Ok (i, w1)
    ∧ calls (IncomingStream.Stop lib.range i w1).2
      = calls w1 ++ [DeleteRTPReceiverFacade (Some 9%N)]
    ∧ IncomingStream.Tracks (IncomingStream.Stop lib.range i w1).1 = ∅
    ∧ IncomingStream.Transport (IncomingStream.Stop lib.range i w1).1 = None
    ∧ IncomingStream.Receiver (IncomingStream.Stop lib.range i w1).1 = None
    ∧ outgoingTracks (IncomingStream.Stop lib.range i w1).2 = outgoingTracks emptyWorld
    ∧ length (incomingTracks (IncomingStream.Stop lib.range i w1).2)
      = length (incomingTracks emptyWorld) + length (sdp.tracks audioAndVideo)
    ∧ (∀ p, p < length (incomingTracks emptyWorld) →
         incomingTracks (IncomingStream.Stop lib.range i w1).2 !! p
         = incomingTracks emptyWorld !! p)
    ∧ (∀ p obj, length (incomingTracks emptyWorld) ≤ p →
         incomingTracks (IncomingStream.Stop lib.range i w1).2 !! p = Some obj →
         IncomingStreamTrack.stopped obj = true)
    ∧ (∀ p, IncomingStreamTrack.sources
              <$> incomingTracks (IncomingStream.Stop lib.range i w1).2 !! p
            = IncomingStreamTrack.sources <$> incomingTracks w1 !! p).
Proof.
  assert (NoDup (sdp.id <$> sdp.tracks audioAndVideo)) as Hnodup.
  { refine (bool_decide_unpack _ _). vm_compute. exact I. }
  assert (∀ m, lib.range m ≡ₚ map_to_list m) as Hvisits by (by intros m).
  split.
  - split_and!; [exact Hvisits|exact incomingReadable_audioAndVideo|exact Hnodup].
  - exact (newIncomingStream_then_Stop lib.GetSourceGroup lib.range 7%N (Some 9%N)
             audioAndVideo emptyWorld Hvisits incomingReadable_audioAndVideo Hnodup).
Defined.
(** ** Attaching a stream to the stream it mirrors *)

Section Mirror.

Variable ToLower : string → string.
Variable GetSourceGroup : sdp.TrackInfo → string → option sdp.SourceGroupInfo.
Variable range : gmap string ptr → list (string * ptr).
Hypothesis range_visits : ∀ m, range m ≡ₚ map_to_list m.




End Mirror.


